(** * LigDockAnalyzer: the interaction-detection engine, embedded and verified

    The development follows the TypeScript sources:
    - [geometryUtils]      (vector kernel: distance, centroid, plane normal, angles)
    - [types], [constants] (records, thresholds, residue and element tables)
    - [interactionService] (ring perception, candidate enumeration, residue
                            lookup, interaction detection and deduplication)
    - [App]                (the ligand list and the manual search)

    Numbers that carry coordinates, distances and angles are IEEE binary64
    values, exactly as JavaScript's [number]: they are Rocq's primitive floats,
    so every definition below runs.  Atom indices, residue numbers and counters
    are integers ([N], [Z], [nat]).  Strings are Rocq strings and stand
    for UTF-8 text.  Structure files contain ASCII text; the query of the
    residue search is free text, and there the host's [toUpperCase] and
    [trim] are parameters. *)

From Stdlib Require Import PrimFloat.
From Stdlib Require Uint63.
From Stdlib Require SpecFloat FloatOps FloatAxioms.
From Stdlib Require Import Ascii.
From stdpp Require Import strings list pretty sorting gmap.

Local Open Scope float_scope.
Set Warnings "-inexact-float".

(** ** Host primitives (the JavaScript built-ins the sources call) *)

Module JS.

(** [Math.max] and [Math.min] on two arguments: NaN is contagious and
    [+0] is larger than [-0]. *)
Definition Math_max (a b : float) : float :=
  if is_nan a || is_nan b then nan
  else if a <? b then b
  else if b <? a then a
  else if get_sign a then b else a.

Definition Math_min (a b : float) : float :=
  if is_nan a || is_nan b then nan
  else if a <? b then a
  else if b <? a then b
  else if get_sign a then a else b.

Definition Math_abs (a : float) : float := abs a.
Definition Math_sqrt (a : float) : float := sqrt a.
Definition Math_PI : float := 3.141592653589793.

(** [array.length] used as a number. *)
Definition of_length (n : nat) : float :=
  of_uint63 (Uint63.of_Z (Z.of_nat n)).

(** [a === b] on numbers: IEEE equality ([+0 === -0], NaN differs from
    everything). *)
Definition strict_eq (a b : float) : bool := a =? b.

(** [String.prototype.toUpperCase] and [String.prototype.trim] follow the
    Unicode tables of the host.  Where the sources apply them to text typed
    by the user (the query of the residue search), the development takes
    them as parameters, as it does with [Math.acos].  The definitions below
    are what they compute on the text of structure files: residue names,
    atom names and element symbols are ASCII there, and a string stands for
    its UTF-8 encoding. *)

(** [String.prototype.toUpperCase] on ASCII text. *)
Definition upper_char (c : ascii) : ascii :=
  let n := nat_of_ascii c in
  if (97 <=? n)%nat && (n <=? 122)%nat then ascii_of_nat (n - 32) else c.

Fixpoint toUpperCase (s : string) : string :=
  match s with
  | EmptyString => EmptyString
  | String c s' => String (upper_char c) (toUpperCase s')
  end.

(** [String.prototype.trim] on text in UTF-8.  The white space and the line
    terminators of the language are dropped at both ends: TAB, LF, VT, FF,
    CR, SP, U+00A0, U+1680, U+2000 to U+200A, U+2028, U+2029, U+202F, U+205F,
    U+3000 and U+FEFF. *)
Definition utf8 (bytes : list nat) : string :=
  foldr (λ b s, String (ascii_of_nat b) s) EmptyString bytes.

Definition white_space : list string :=
  utf8 <$>
    [ [9]; [10]; [11]; [12]; [13]; [32];
      [194; 160];
      [225; 154; 128];
      [226; 128; 128]; [226; 128; 129]; [226; 128; 130]; [226; 128; 131];
      [226; 128; 132]; [226; 128; 133]; [226; 128; 134]; [226; 128; 135];
      [226; 128; 136]; [226; 128; 137]; [226; 128; 138];
      [226; 128; 168]; [226; 128; 169];
      [226; 128; 175];
      [226; 129; 159];
      [227; 128; 128];
      [239; 187; 191] ]%nat.

(** [strip_prefix p s] is what follows [p] in [s], if [s] starts with [p]. *)
Fixpoint strip_prefix (p s : string) : option string :=
  match p, s with
  | EmptyString, _ => Some s
  | String a p', String b s' =>
      if Ascii.eqb a b then strip_prefix p' s' else None
  | String _ _, EmptyString => None
  end.

Fixpoint strip_any (ws : list string) (s : string) : option string :=
  match ws with
  | [] => None
  | w :: ws' =>
      match strip_prefix w s with
      | Some rest => Some rest
      | None => strip_any ws' s
      end
  end.

(** Leading white space is dropped one character at a time; a string holds
    no more characters than bytes, which bounds the number of rounds. *)
Fixpoint strip_all (ws : list string) (rounds : nat) (s : string) : string :=
  match rounds with
  | O => s
  | S rounds' =>
      match strip_any ws s with
      | Some rest => strip_all ws rounds' rest
      | None => s
      end
  end.

Definition trimStart (s : string) : string :=
  strip_all white_space (String.length s) s.

Definition trimEnd (s : string) : string :=
  String.rev
    (strip_all (String.rev <$> white_space) (String.length s) (String.rev s)).

Definition trim (s : string) : string := trimEnd (trimStart s).

(** [String.prototype.includes]: substring test. *)
Fixpoint str_includes (sub s : string) : bool :=
  String.prefix sub s ||
  match s with
  | EmptyString => false
  | String _ s' => str_includes sub s'
  end.

(** [Array.prototype.includes] and [Set.prototype.has] on strings. *)
Definition includes (x : string) (l : list string) : bool :=
  bool_decide (x ∈ l).

(** [Array.prototype.includes] on array positions. *)
Definition includes_nat (x : nat) (l : list nat) : bool :=
  bool_decide (x ∈ l).

(** A property read [table[key]] on an object literal.  Besides the
    literal's own keys, the read reaches [Object.prototype]: a key that names
    one of its members yields that member (a function or an object, never an
    array). *)
Definition Object_prototype_keys : list string :=
  [ "constructor"; "hasOwnProperty"; "isPrototypeOf"; "propertyIsEnumerable";
    "toLocaleString"; "toString"; "valueOf"; "__proto__";
    "__defineGetter__"; "__defineSetter__"; "__lookupGetter__";
    "__lookupSetter__" ].

Inductive Property (A : Type) : Type :=
| Own (v : A)      (* the literal's own entry *)
| Inherited        (* a member of Object.prototype: truthy, not an array *)
| Undefined.       (* no such property *)
Arguments Own {A} v.
Arguments Inherited {A}.
Arguments Undefined {A}.

Definition get {A} (table : list (string * A)) (key : string) : Property A :=
  match list_find (λ kv, kv.1 = key) table with
  | Some (_, (_, v)) => Own v
  | None => if includes key Object_prototype_keys then Inherited else Undefined
  end.

End JS.

(** ** geometryUtils *)

Record Point3D := { x : float; y : float; z : float }.
Definition Vector3 := Point3D.

Definition distance (a b : Point3D) : float :=
  let dx := x a - x b in
  let dy := y a - y b in
  let dz := z a - z b in
  JS.Math_sqrt (dx * dx + dy * dy + dz * dz).

Definition distanceSq (a b : Point3D) : float :=
  let dx := x a - x b in
  let dy := y a - y b in
  let dz := z a - z b in
  dx * dx + dy * dy + dz * dz.

Definition getCenter (atoms : list Point3D) : Point3D :=
  if (length atoms =? 0)%nat then {| x := 0; y := 0; z := 0 |}
  else
    let '(sx, sy, sz) :=
      fold_left (λ '(sx, sy, sz) a, (sx + x a, sy + y a, sz + z a))
                atoms (0, 0, 0) in
    let n := JS.of_length (length atoms) in
    {| x := sx / n; y := sy / n; z := sz / n |}.

Definition sub (a b : Vector3) : Vector3 :=
  {| x := x a - x b; y := y a - y b; z := z a - z b |}.

Definition add (a b : Vector3) : Vector3 :=
  {| x := x a + x b; y := y a + y b; z := z a + z b |}.

Definition dot (a b : Vector3) : float :=
  x a * x b + y a * y b + z a * z b.

Definition cross (a b : Vector3) : Vector3 :=
  {| x := y a * z b - z a * y b;
     y := z a * x b - x a * z b;
     z := x a * y b - y a * x b |}.

Definition mag (v : Vector3) : float :=
  JS.Math_sqrt (x v * x v + y v * y v + z v * z v).

Definition normalize (v : Vector3) : Vector3 :=
  let m := mag v in
  if JS.strict_eq m 0 then {| x := 0; y := 0; z := 0 |}
  else {| x := x v / m; y := y v / m; z := z v / m |}.

(** [getPlaneNormal] reads the first, the middle and the last point.  With at
    least three points all three reads are in range; the first point serves
    as the (never used) default of [nth]. *)
Definition getPlaneNormal (atoms : list Point3D) : Vector3 :=
  if (length atoms <? 3)%nat then {| x := 0; y := 0; z := 1 |}
  else
    match atoms with
    | [] => {| x := 0; y := 0; z := 1 |}
    | p1 :: _ =>
        let p2 := nth (length atoms / 2) atoms p1 in
        let p3 := nth (length atoms - 1) atoms p1 in
        let v1 := sub p2 p1 in
        let v2 := sub p3 p1 in
        normalize (cross v1 v2)
    end.

(** [Math.acos] is left to the host by the language standard (an
    implementation-approximated function), so the two angle functions take it
    as a parameter. *)
Section Angles.
Variable Math_acos : float → float.

Definition angleDeg (a b c : Vector3) : float :=
  let v1 := sub a b in
  let v2 := sub c b in
  let dotProd := dot v1 v2 in
  let mag1 := mag v1 in
  let mag2 := mag v2 in
  if JS.strict_eq mag1 0 || JS.strict_eq mag2 0 then 0
  else
    let cosTheta := JS.Math_max (-1) (JS.Math_min 1 (dotProd / (mag1 * mag2))) in
    (Math_acos cosTheta * 180) / JS.Math_PI.

Definition angleBetween (v1 v2 : Vector3) : float :=
  let dotProd := dot v1 v2 in
  let mag1 := mag v1 in
  let mag2 := mag v2 in
  if JS.strict_eq mag1 0 || JS.strict_eq mag2 0 then 0
  else
    let cosTheta :=
      JS.Math_max (-1) (JS.Math_min 1 (JS.Math_abs dotProd / (mag1 * mag2))) in
    (Math_acos cosTheta * 180) / JS.Math_PI.
End Angles.

(** ** types *)

(** An atom copied out of the structure.  The three coordinate fields are
    grouped as [coords], so that an atom can stand wherever the sources pass
    it as a [Point3D]. *)
Record AtomData := {
  index : N;
  name : string;
  element : string;
  coords :> Point3D;
  resName : string;
  resNo : Z;
  chain : string;
  isHet : bool
}.

Inductive InteractionType :=
| HydrogenBond | Hydrophobic | SaltBridge | PiStacking
| HalogenBond | MetalCoordination | Unknown.

Global Instance InteractionType_eq_dec : EqDecision InteractionType.
Proof. solve_decision. Defined.

Module Interaction.
Record t := {
  id : string;
  type : InteractionType;
  distance : float;
  ligandAtom : AtomData;
  proteinAtom : AtomData;
  angle : option float
}.
End Interaction.
Abbreviation Interaction := Interaction.t.

(** The ligand selector.  Its optional field [resNos] is neither written nor
    read by the engine and is left out. *)
Module ResidueOption.
Record t := {
  resName : string;
  resNo : Z;
  chain : string;
  atomCount : N
}.
End ResidueOption.
Abbreviation ResidueOption := ResidueOption.t.

Record AnalysisResult := {
  interactions : list Interaction;
  ligandCenter : Point3D
}.

(** ** constants

    The thresholds and tables of the constants module that goes with the
    engine (hydrogen bond 3.5, halogen bond 3.5, pi-stacking 5.5).  The
    [Set]s of element symbols are lists here, [has] being membership. *)

Module THRESHOLDS.
Definition HBOND_DIST : float := 3.5.
Definition HBOND_ANGLE : float := 120.
Definition SALT_BRIDGE_DIST : float := 4.0.
Definition HYDROPHOBIC_DIST : float := 4.5.
Definition PI_STACKING_DIST : float := 5.5.
Definition PI_STACKING_OFFSET : float := 2.0.
Definition PI_STACKING_ANGLE_PARALLEL : float := 30.
Definition PI_STACKING_ANGLE_TSHAPED : float := 60.
Definition PI_CATION_DIST : float := 5.0.
Definition HALOGEN_DIST : float := 3.5.
Definition HALOGEN_ANGLE : float := 140.
Definition METAL_DIST : float := 2.8.
End THRESHOLDS.

Module ATOM_PROPS.
Definition POS_CHARGE_ATOMS : list (string * list string) :=
  [ ("ARG", ["NH1"; "NH2"; "CZ"]);
    ("LYS", ["NZ"]);
    ("HIS", ["ND1"; "NE2"]) ].
Definition NEG_CHARGE_ATOMS : list (string * list string) :=
  [ ("ASP", ["OD1"; "OD2"]);
    ("GLU", ["OE1"; "OE2"]) ].
Definition AROMATIC_PLANES : list (string * list string) :=
  [ ("PHE", ["CG"; "CD1"; "CD2"; "CE1"; "CE2"; "CZ"]);
    ("TYR", ["CG"; "CD1"; "CD2"; "CE1"; "CE2"; "CZ"]);
    ("TRP", ["CG"; "CD1"; "CD2"; "NE1"; "CE2"; "CE3"; "CZ2"; "CZ3"; "CH2"]);
    ("HIS", ["CG"; "ND1"; "CD2"; "CE1"; "NE2"]) ].
Definition DONORS : list string := ["N"; "O"; "S"].
Definition ACCEPTORS : list string := ["N"; "O"; "S"].
Definition HALOGENS : list string := ["CL"; "BR"; "I"].
Definition METALS : list string :=
  ["ZN"; "MG"; "FE"; "CU"; "CA"; "NA"; "K"; "MN"; "CO"; "NI"].
End ATOM_PROPS.

(** ** The structure provider (NGL)

    The engine reads a structure through two iterators, [eachAtom] and
    [eachResidue]; the proxies they hand out are modelled by the fields the
    engine reads. *)

Module NGL.
Record AtomProxy := {
  ap_index : N;
  atomname : string;
  ap_element : string;
  ap_x : float;
  ap_y : float;
  ap_z : float;
  ap_resname : string;
  ap_resno : Z;
  ap_chainname : string;
  ap_isHetero : bool
}.

Record ResidueProxy := {
  rp_resname : string;
  rp_resno : Z;
  rp_chainname : string;
  rp_atomCount : N;
  rp_isHetero : bool
}.

(** The proxies in traversal order. *)
Record Structure := {
  atoms : list AtomProxy;
  residues : list ResidueProxy
}.

Definition eachAtom {S} (s : Structure) (f : S → AtomProxy → S) (init : S) : S :=
  fold_left f (atoms s) init.
Definition eachResidue {S} (s : Structure) (f : S → ResidueProxy → S) (init : S) : S :=
  fold_left f (residues s) init.
End NGL.

(** ** interactionService *)

Definition parseNGLAtom (ap : NGL.AtomProxy) : AtomData :=
  {| index := NGL.ap_index ap;
     name := NGL.atomname ap;
     element := NGL.ap_element ap;
     coords := {| x := NGL.ap_x ap; y := NGL.ap_y ap; z := NGL.ap_z ap |};
     resName := NGL.ap_resname ap;
     resNo := NGL.ap_resno ap;
     chain := NGL.ap_chainname ap;
     isHet := NGL.ap_isHetero ap |}.

(** *** Ligand ring detection (geometric depth-first search) *)

Section Rings.
(** The ligand atoms; [a0] is the first of them and serves as the (never
    used) default of reads [atoms[i]], whose positions are always in range. *)
Variable a0 : AtomData.
Variable atoms : list AtomData.

Definition atomAt (i : nat) : AtomData := nth i atoms a0.

(** Adjacency by bond length below 1.65: the double loop pushes [j] on
    [adj[i]] and [i] on [adj[j]] for every bonded pair [i < j]. *)
Definition bondStep (i : nat) (adj : list (list nat)) (j : nat) : list (list nat) :=
  if distance (atomAt i) (atomAt j) <? 1.65
  then alter (λ l, l ++ [i]) j (alter (λ l, l ++ [j]) i adj)
  else adj.

Definition buildAdj : list (list nat) :=
  fold_left
    (λ adj i, fold_left (bondStep i) (seq (i + 1) (length atoms - (i + 1))) adj)
    (seq 0 (length atoms))
    (replicate (length atoms) []).

(** The search state: the rings found so far and the keys already seen. *)
Record RingState := {
  rings : list (list AtomData);
  visitedPaths : gset string
}.

(** [sortedPath.join(',')]. *)
Fixpoint join (l : list nat) : string :=
  match l with
  | [] => ""
  | [n] => pretty n
  | n :: l' => pretty n +:+ "," +:+ join l'
  end.

Definition sortPath (path : list nat) : list nat := merge_sort (≤)%nat path.

Definition pathKey (path : list nat) : string := join (sortPath path).

Variable adj : list (list nat).

(** [dfs]: every recursive call extends the path by one position, and a
    path longer than 6 returns at once, so seven levels of recursion are all
    the search ever uses; [fuel] counts them. *)
Fixpoint dfs (fuel : nat) (start current : nat) (path : list nat)
    (st : RingState) : RingState :=
  match fuel with
  | O => st
  | S fuel' =>
      if (6 <? length path)%nat then st
      else if (5 <=? length path)%nat
              && JS.includes_nat start (adj !!! current) then
        let key := pathKey path in
        if bool_decide (key ∈ visitedPaths st) then st
        else {| rings := rings st ++ [atomAt <$> path];
                visitedPaths := {[ key ]} ∪ visitedPaths st |}
      else
        fold_left
          (λ st neighbor,
             if JS.includes_nat neighbor path then st
             else dfs fuel' start neighbor (path ++ [neighbor]) st)
          (adj !!! current) st
  end.

Definition dfsFuel : nat := 7.

Definition searchFrom (st : RingState) (i : nat) : RingState :=
  if JS.includes (element (atomAt i)) ["C"; "N"]
  then dfs dfsFuel i i [i] st
  else st.
End Rings.

Definition findLigandRings (atoms : list AtomData) : list (list AtomData) :=
  match atoms with
  | [] => []
  | a0 :: _ =>
      let adj := buildAdj a0 atoms in
      rings (fold_left (searchFrom a0 atoms adj) (seq 0 (length atoms))
                       {| rings := []; visitedPaths := ∅ |})
  end.

(** *** Insertion-ordered string maps

    [proteinResidues] (an object used as a map, read back with
    [Object.values]) and [pairMap] (a [Map], read back with [values()]) both
    enumerate their entries in insertion order, and writing to a key that is
    present keeps its place.  Neither receives a key that could be taken for
    an array index or for a member of [Object.prototype]: every key contains
    [":"] or ["-"]. *)

Module OMap.
Definition t (V : Type) := list (string * V).

Fixpoint get {V} (k : string) (m : t V) : option V :=
  match m with
  | [] => None
  | (k', v) :: m' => if decide (k = k') then Some v else get k m'
  end.

Fixpoint set {V} (k : string) (v : V) (m : t V) : t V :=
  match m with
  | [] => [(k, v)]
  | (k', v') :: m' =>
      if decide (k = k') then (k, v) :: m' else (k', v') :: set k v m'
  end.

Definition keys {V} (m : t V) : list string := m.*1.
Definition values {V} (m : t V) : list V := m.*2.
End OMap.

(** *** Candidate lookup *)

Definition toResidueOption (rp : NGL.ResidueProxy) : ResidueOption :=
  {| ResidueOption.resName := NGL.rp_resname rp;
     ResidueOption.resNo := NGL.rp_resno rp;
     ResidueOption.chain := NGL.rp_chainname rp;
     ResidueOption.atomCount := NGL.rp_atomCount rp |}.

(** [findResidueByName] applies [toUpperCase] and [trim] to the query, which
    is free text: the two are the host's functions, taken as parameters. *)
Section ResidueLookup.
Variable toUpperCase : string → string.
Variable trim : string → string.

(** The callback of [eachResidue]; [found] is the variable it closes over. *)
Definition findResidueStep (q : string) (found : option ResidueOption)
    (rp : NGL.ResidueProxy) : option ResidueOption :=
  match found with
  | Some _ => found
  | None =>
      if bool_decide (toUpperCase (NGL.rp_resname rp) = q)
      then Some (toResidueOption rp)
      else None
  end.

Definition findResidueByName (structure : NGL.Structure) (queryName : string)
    : option ResidueOption :=
  let q := trim (toUpperCase queryName) in
  NGL.eachResidue structure (findResidueStep q) None.
End ResidueLookup.

(** *** Interaction detection *)

Module LigandRing.
Record t := {
  center : Point3D;
  normal : Vector3;
  atoms : list AtomData
}.
End LigandRing.

(** The two variables the detection loops update: the [interactions] array
    and [idCounter]. *)
Record Detection := {
  found : list Interaction;
  idCounter : N
}.

(** [interactions.push({ id: `${prefix}-${idCounter++}`, ... })]. *)
Definition push (prefix : string) (ty : InteractionType) (dist : float)
    (lAtom pAtom : AtomData) (ang : option float) (st : Detection) : Detection :=
  {| found := found st ++
       [ {| Interaction.id := prefix +:+ "-" +:+ pretty (idCounter st);
            Interaction.type := ty;
            Interaction.distance := dist;
            Interaction.ligandAtom := lAtom;
            Interaction.proteinAtom := pAtom;
            Interaction.angle := ang |} ];
     idCounter := (idCounter st + 1)%N |}.

(** A [forEach] whose body may throw: [None] stands for a thrown [TypeError]. *)
Fixpoint forEachM {A S} (f : S → A → option S) (l : list A) (s : S) : option S :=
  match l with
  | [] => Some s
  | a :: l' => s' ← f s a; forEachM f l' s'
  end.

(** [lAtom.element === 'N' || lAtom.name.includes('NH')]. *)
Definition isAmine (lAtom : AtomData) : bool :=
  bool_decide (element lAtom = "N") || JS.str_includes "NH" (name lAtom).

Section Engine.
Variable Math_acos : float → float.

Section Residue.
Variable ligandAtoms : list AtomData.
Variable ligandRingData : list LigandRing.t.

(** Reads of [lRing.atoms[0]], [ringAtoms[0]], [posAtoms[0]] and
    [negAtoms[0]] are [head]: a missing element would be [undefined], whose
    [index] is read during deduplication, where it throws. *)

Definition piStackingStep (pCenter : Point3D) (pNormal : Vector3)
    (ringAtoms : list AtomData) (st : Detection) (lRing : LigandRing.t)
    : option Detection :=
  let dist := distance pCenter (LigandRing.center lRing) in
  if dist <=? THRESHOLDS.PI_STACKING_DIST then
    let angle := angleBetween Math_acos pNormal (LigandRing.normal lRing) in
    let isParallel :=
      (angle <? THRESHOLDS.PI_STACKING_ANGLE_PARALLEL)
      || (180 - THRESHOLDS.PI_STACKING_ANGLE_PARALLEL <? angle) in
    let isTShaped :=
      (THRESHOLDS.PI_STACKING_ANGLE_TSHAPED <? angle) && (angle <? 120) in
    if isParallel || isTShaped then
      lAtom ← head (LigandRing.atoms lRing);
      pAtom ← head ringAtoms;
      Some (push "pi" PiStacking dist lAtom pAtom (Some angle) st)
    else Some st
  else Some st.

Definition piCationStep (pCenter : Point3D) (ringAtoms : list AtomData)
    (st : Detection) (lAtom : AtomData) : option Detection :=
  if isAmine lAtom && (distance lAtom pCenter <? THRESHOLDS.PI_CATION_DIST) then
    pAtom ← head ringAtoms;
    Some (push "pic" PiStacking (distance lAtom pCenter) lAtom pAtom None st)
  else Some st.

Definition cationPiStep (pPosCenter : Point3D) (posAtoms : list AtomData)
    (st : Detection) (lRing : LigandRing.t) : option Detection :=
  if distance pPosCenter (LigandRing.center lRing) <? THRESHOLDS.PI_CATION_DIST then
    lAtom ← head (LigandRing.atoms lRing);
    pAtom ← head posAtoms;
    Some (push "pic" PiStacking
            (distance pPosCenter (LigandRing.center lRing)) lAtom pAtom None st)
  else Some st.

Definition saltBridgePosStep (pPosCenter : Point3D) (posAtoms : list AtomData)
    (st : Detection) (lAtom : AtomData) : option Detection :=
  if JS.includes (element lAtom) ["O"; "S"; "P"] then
    let d := distance lAtom pPosCenter in
    if d <? THRESHOLDS.SALT_BRIDGE_DIST then
      pAtom ← head posAtoms;
      Some (push "sb" SaltBridge d lAtom pAtom None st)
    else Some st
  else Some st.

Definition saltBridgeNegStep (pNegCenter : Point3D) (negAtoms : list AtomData)
    (st : Detection) (lAtom : AtomData) : option Detection :=
  if isAmine lAtom then
    let d := distance lAtom pNegCenter in
    if d <? THRESHOLDS.SALT_BRIDGE_DIST then
      pAtom ← head negAtoms;
      Some (push "sb" SaltBridge d lAtom pAtom None st)
    else Some st
  else Some st.

(** A. Pi-stacking and pi-cation (protein ring against the ligand). *)
Definition aromaticBlock (resName : string) (resAtoms : list AtomData)
    (st : Detection) : option Detection :=
  match JS.get ATOM_PROPS.AROMATIC_PLANES resName with
  | JS.Undefined => Some st
  | JS.Inherited => None
  | JS.Own aromDef =>
      let ringAtoms := filter (λ a, JS.includes (name a) aromDef) resAtoms in
      if (3 <=? length ringAtoms)%nat then
        let pCenter := getCenter (coords <$> ringAtoms) in
        let pNormal := getPlaneNormal (coords <$> ringAtoms) in
        st ← forEachM (piStackingStep pCenter pNormal ringAtoms) ligandRingData st;
        forEachM (piCationStep pCenter ringAtoms) ligandAtoms st
      else Some st
  end.

(** B. Protein positive centre against ligand rings and anionic atoms. *)
Definition positiveBlock (resName : string) (resAtoms : list AtomData)
    (st : Detection) : option Detection :=
  match JS.get ATOM_PROPS.POS_CHARGE_ATOMS resName with
  | JS.Undefined => Some st
  | JS.Inherited => None
  | JS.Own posDef =>
      let posAtoms := filter (λ a, JS.includes (name a) posDef) resAtoms in
      if (0 <? length posAtoms)%nat then
        let pPosCenter := getCenter (coords <$> posAtoms) in
        st ← forEachM (cationPiStep pPosCenter posAtoms) ligandRingData st;
        forEachM (saltBridgePosStep pPosCenter posAtoms) ligandAtoms st
      else Some st
  end.

(** Protein negative centre against ligand amines. *)
Definition negativeBlock (resName : string) (resAtoms : list AtomData)
    (st : Detection) : option Detection :=
  match JS.get ATOM_PROPS.NEG_CHARGE_ATOMS resName with
  | JS.Undefined => Some st
  | JS.Inherited => None
  | JS.Own negDef =>
      let negAtoms := filter (λ a, JS.includes (name a) negDef) resAtoms in
      if (0 <? length negAtoms)%nat then
        let pNegCenter := getCenter (coords <$> negAtoms) in
        forEachM (saltBridgeNegStep pNegCenter negAtoms) ligandAtoms st
      else Some st
  end.

Definition residueStep (st : Detection) (resAtoms : list AtomData)
    : option Detection :=
  first ← head resAtoms;
  let resName := resName first in
  st ← aromaticBlock resName resAtoms st;
  st ← positiveBlock resName resAtoms st;
  negativeBlock resName resAtoms st.
End Residue.
End Engine.

(** C. Atom-atom interactions (hydrogen bond, halogen bond, hydrophobic
    contact, metal coordination) for one ligand atom and one protein atom. *)
Definition hydrogenBondTest (lAtom pAtom : AtomData) (dist : float)
    (st : Detection) : Detection :=
  if dist <=? THRESHOLDS.HBOND_DIST then
    let lIsDon := JS.includes (element lAtom) ATOM_PROPS.DONORS in
    let lIsAcc := JS.includes (element lAtom) ATOM_PROPS.ACCEPTORS in
    let pIsDon := JS.includes (element pAtom) ATOM_PROPS.DONORS in
    let pIsAcc := JS.includes (element pAtom) ATOM_PROPS.ACCEPTORS in
    let match1 := lIsDon && pIsAcc in
    let match2 := lIsAcc && pIsDon in
    if match1 || match2 then push "hb" HydrogenBond dist lAtom pAtom None st
    else st
  else st.

Definition halogenBondTest (lAtom pAtom : AtomData) (dist : float)
    (st : Detection) : Detection :=
  if JS.includes (JS.toUpperCase (element lAtom)) ATOM_PROPS.HALOGENS
     && JS.includes (element pAtom) ATOM_PROPS.ACCEPTORS then
    if dist <=? THRESHOLDS.HALOGEN_DIST
    then push "xb" HalogenBond dist lAtom pAtom None st
    else st
  else st.

Definition hydrophobicTest (lAtom pAtom : AtomData) (dist : float)
    (st : Detection) : Detection :=
  if bool_decide (element lAtom = "C") && bool_decide (element pAtom = "C") then
    if dist <=? THRESHOLDS.HYDROPHOBIC_DIST
    then push "hp" Hydrophobic dist lAtom pAtom None st
    else st
  else st.

Definition metalTest (lAtom pAtom : AtomData) (dist : float)
    (st : Detection) : Detection :=
  if JS.includes (JS.toUpperCase (element lAtom)) ATOM_PROPS.METALS
     || JS.includes (JS.toUpperCase (element pAtom)) ATOM_PROPS.METALS then
    if dist <=? THRESHOLDS.METAL_DIST
    then push "mt" MetalCoordination dist lAtom pAtom None st
    else st
  else st.

Definition atomPairStep (lAtom : AtomData) (st : Detection) (pAtom : AtomData)
    : Detection :=
  let dist := distance lAtom pAtom in
  if JS.Math_max THRESHOLDS.HBOND_DIST THRESHOLDS.HYDROPHOBIC_DIST <? dist then st
  else
    metalTest lAtom pAtom dist
      (hydrophobicTest lAtom pAtom dist
         (halogenBondTest lAtom pAtom dist
            (hydrogenBondTest lAtom pAtom dist st))).

Definition atomPairs (ligandAtoms relevantProteinAtoms : list AtomData)
    (st : Detection) : Detection :=
  fold_left (λ st lAtom, fold_left (atomPairStep lAtom) relevantProteinAtoms st)
            ligandAtoms st.

(** Residue grouping: [proteinResidues[`${a.chain}:${a.resNo}`].push(a)]. *)
Definition residueKey (a : AtomData) : string :=
  chain a +:+ ":" +:+ pretty (resNo a).

Definition groupStep (proteinResidues : OMap.t (list AtomData)) (a : AtomData)
    : OMap.t (list AtomData) :=
  let key := residueKey a in
  match OMap.get key proteinResidues with
  | None => OMap.set key [a] proteinResidues
  | Some resAtoms => OMap.set key (resAtoms ++ [a]) proteinResidues
  end.

(** *** Deduplication *)

Definition typeScore (t : InteractionType) : nat :=
  match t with
  | SaltBridge => 4
  | PiStacking => 3
  | HydrogenBond => 2
  | _ => 1
  end.

(** [`${i.ligandAtom.index}-${i.proteinAtom.index}`]. *)
Definition pairKey (i : Interaction) : string :=
  pretty (index (Interaction.ligandAtom i)) +:+ "-" +:+
  pretty (index (Interaction.proteinAtom i)).

Definition dedupStep (pairMap : OMap.t Interaction) (i : Interaction)
    : OMap.t Interaction :=
  let key := pairKey i in
  match OMap.get key pairMap with
  | None => OMap.set key i pairMap
  | Some existing =>
      if (typeScore (Interaction.type existing) <? typeScore (Interaction.type i))%nat
      then OMap.set key i pairMap
      else pairMap
  end.

Definition deduplicate (interactions : list Interaction) : list Interaction :=
  OMap.values (fold_left dedupStep interactions []).

(** *** The analysis *)

Definition isLigand (ligandResidue : ResidueOption) (ap : NGL.AtomProxy) : bool :=
  bool_decide (NGL.ap_resno ap = ResidueOption.resNo ligandResidue)
  && bool_decide (NGL.ap_chainname ap = ResidueOption.chain ligandResidue)
  && bool_decide (NGL.ap_resname ap = ResidueOption.resName ligandResidue).

(** 1. Atom extraction into [ligandAtoms] and [proteinAtoms]. *)
Definition extractStep (ligandResidue : ResidueOption)
    (acc : list AtomData * list AtomData) (ap : NGL.AtomProxy)
    : list AtomData * list AtomData :=
  let '(ligandAtoms, proteinAtoms) := acc in
  if isLigand ligandResidue ap then (ligandAtoms ++ [parseNGLAtom ap], proteinAtoms)
  else if negb (NGL.ap_isHetero ap) then (ligandAtoms, proteinAtoms ++ [parseNGLAtom ap])
  else (ligandAtoms, proteinAtoms).

Definition extractAtoms (structure : NGL.Structure) (ligandResidue : ResidueOption)
    : list AtomData * list AtomData :=
  NGL.eachAtom structure (extractStep ligandResidue) ([], []).

(** 2. The coarse filter around the ligand centre. *)
Definition coarseFilter (ligandCenter : Point3D) (proteinAtoms : list AtomData)
    : list AtomData :=
  filter (λ pAtom : AtomData, distance pAtom ligandCenter <? 18.0) proteinAtoms.

Definition ringData (ring : list AtomData) : LigandRing.t :=
  {| LigandRing.center := getCenter (coords <$> ring);
     LigandRing.normal := getPlaneNormal (coords <$> ring);
     LigandRing.atoms := ring |}.

Section Analysis.
Variable Math_acos : float → float.

(** Steps 3 and onwards up to deduplication: the raw [interactions] array
    that the detection loops fill from the ligand atoms and the protein
    atoms kept by the filter. *)
Definition detectInteractions (ligandAtoms relevantProteinAtoms : list AtomData)
    : option (list Interaction) :=
  let proteinResidues := fold_left groupStep relevantProteinAtoms [] in
  let ligandRings := findLigandRings ligandAtoms in
  let ligandRingData := ringData <$> ligandRings in
  st ← forEachM (residueStep Math_acos ligandAtoms ligandRingData)
                (OMap.values proteinResidues)
                {| found := []; idCounter := 0 |};
  Some (found (atomPairs ligandAtoms relevantProteinAtoms st)).

Definition analyzeInteractions (structure : NGL.Structure)
    (ligandResidue : ResidueOption) : option AnalysisResult :=
  let '(ligandAtoms, proteinAtoms) := extractAtoms structure ligandResidue in
  if (length ligandAtoms =? 0)%nat
  then Some {| interactions := []; ligandCenter := {| x := 0; y := 0; z := 0 |} |}
  else
    let ligandCenter := getCenter (coords <$> ligandAtoms) in
    let relevantProteinAtoms := coarseFilter ligandCenter proteinAtoms in
    found ← detectInteractions ligandAtoms relevantProteinAtoms;
    Some {| interactions := deduplicate found; ligandCenter := ligandCenter |}.

(** The analysis with step 2 left out: every protein atom is kept.  This is
    the reference against which the filter is judged; it is not part of the
    sources. *)
Definition analyzeInteractions_unfiltered (structure : NGL.Structure)
    (ligandResidue : ResidueOption) : option AnalysisResult :=
  let '(ligandAtoms, proteinAtoms) := extractAtoms structure ligandResidue in
  if (length ligandAtoms =? 0)%nat
  then Some {| interactions := []; ligandCenter := {| x := 0; y := 0; z := 0 |} |}
  else
    let ligandCenter := getCenter (coords <$> ligandAtoms) in
    found ← detectInteractions ligandAtoms proteinAtoms;
    Some {| interactions := deduplicate found; ligandCenter := ligandCenter |}.
End Analysis.

(** *** Candidate enumeration *)

Definition COMMON_LIGANDS : list string :=
  [ "LIG"; "UNK"; "DRG"; "INH"; "001"; "1";
    "NAG"; "NDG"; "MAN"; "BMA"; "GAL"; "GLC"; "FUC"; "SIA"; "BGC";
    "BGLC"; "BGLCC"; "AGLC"; "AGLCA";
    "GLA"; "GUP"; "XYL"; "RIB"; "ARA";
    "PLM"; "OLA"; "MYR"; "STE";
    "ATP"; "ADP"; "AMP"; "GTP"; "GDP"; "NAD"; "NADP"; "FAD"; "FMN"; "HEM"; "HEC" ].

Definition IGNORED_RESIDUES : list string :=
  [ "HOH"; "DOD"; "TIP"; "WAT"; "SOL"; "NA"; "CL"; "K"; "MG"; "ZN"; "CA"; "MN";
    "SO4"; "PO4" ].

(** [Array.prototype.sort] with a comparator.  The language fixes the
    result for a consistent comparator: the sorted arrangement in which
    elements that compare equal keep their order.  Insertion from the right
    computes it: an element goes in front of the first element it does not
    compare greater than. *)
Fixpoint sortInsert {A} (compare : A → A → Z) (a : A) (l : list A) : list A :=
  match l with
  | [] => [a]
  | b :: l' =>
      if (0 <? compare a b)%Z then b :: sortInsert compare a l' else a :: l
  end.

Definition arraySort {A} (compare : A → A → Z) (l : list A) : list A :=
  foldr (sortInsert compare) [] l.

Definition isCommonName (resName : string) : bool :=
  JS.includes (JS.toUpperCase resName) COMMON_LIGANDS.

(** [`${rp.chainname}:${rp.resno}`]. *)
Definition candidateKey (rp : NGL.ResidueProxy) : string :=
  NGL.rp_chainname rp +:+ ":" +:+ pretty (NGL.rp_resno rp).

(** The callback of [eachResidue] in [getLigandCandidates]. *)
Definition candidateStep (candidates : OMap.t ResidueOption) (rp : NGL.ResidueProxy)
    : OMap.t ResidueOption :=
  let resNameUpper := JS.toUpperCase (NGL.rp_resname rp) in
  let isCommon := JS.includes resNameUpper COMMON_LIGANDS in
  let isHet := NGL.rp_isHetero rp in
  let isIgnored := JS.includes resNameUpper IGNORED_RESIDUES in
  if isCommon || (isHet && negb isIgnored) then
    let key := candidateKey rp in
    match OMap.get key candidates with
    | Some _ => candidates
    | None => OMap.set key (toResidueOption rp) candidates
    end
  else candidates.

(** The comparator of the final sort. *)
Definition compareCandidates (a b : ResidueOption) : Z :=
  let aIsCommon := isCommonName (ResidueOption.resName a) in
  let bIsCommon := isCommonName (ResidueOption.resName b) in
  if aIsCommon && negb bIsCommon then (-1)%Z
  else if negb aIsCommon && bIsCommon then 1%Z
  else (Z.of_N (ResidueOption.atomCount b) - Z.of_N (ResidueOption.atomCount a))%Z.

Definition getLigandCandidates (structure : NGL.Structure) : list ResidueOption :=
  let candidates := NGL.eachResidue structure candidateStep [] in
  arraySort compareCandidates (OMap.values candidates).

(** ** App: the ligand list and the manual search

    The two pieces of state that the handlers below update. *)
Record LigandState := {
  ligandCandidates : list ResidueOption;
  selectedLigand : option ResidueOption
}.

(** [handleStructureLoaded]: the candidates are listed and the first one, if
    any, is selected ([keep] is the selection so far). *)
Definition handleStructureLoaded (structure : NGL.Structure)
    (keep : option ResidueOption) : LigandState :=
  let candidates := getLigandCandidates structure in
  {| ligandCandidates := candidates;
     selectedLigand :=
       if (0 <? length candidates)%nat then head candidates else keep |}.

(** The state update of [handleManualSearch]:
    [prev => exists ? prev : [found, ...prev]]. *)
Definition addFound (found : ResidueOption) (prev : list ResidueOption)
    : list ResidueOption :=
  let exists_ :=
    existsb (λ l, bool_decide (ResidueOption.chain l = ResidueOption.chain found)
                  && bool_decide (ResidueOption.resNo l = ResidueOption.resNo found))
            prev in
  if exists_ then prev else found :: prev.

(** [handleManualSearch]: the new state and the alert shown, if any.  Without
    a structure or with an empty query nothing happens.  [toUpperCase] and
    [trim] are the host's functions that [findResidueByName] applies to the
    query. *)
Definition handleManualSearch (toUpperCase trim : string → string)
    (structure : option NGL.Structure)
    (manualSearchQuery : string) (st : LigandState) : LigandState * option string :=
  match structure with
  | None => (st, None)
  | Some structure =>
      if bool_decide (manualSearchQuery = "") then (st, None)
      else
        match findResidueByName toUpperCase trim structure manualSearchQuery with
        | Some found =>
            ({| ligandCandidates := addFound found (ligandCandidates st);
                selectedLigand := Some found |}, None)
        | None =>
            (st, Some ("Residue '" +:+ manualSearchQuery +:+ "' not found."))
        end
  end.

(** ** Worked inputs *)

Definition mkAtom (i : N) (nm el : string) (px py pz : float)
    (rn : string) (rno : Z) (ch : string) (het : bool) : NGL.AtomProxy :=
  {| NGL.ap_index := i; NGL.atomname := nm; NGL.ap_element := el;
     NGL.ap_x := px; NGL.ap_y := py; NGL.ap_z := pz;
     NGL.ap_resname := rn; NGL.ap_resno := rno; NGL.ap_chainname := ch;
     NGL.ap_isHetero := het |}.

Definition mkResidue (rn : string) (rno : Z) (ch : string) (n : N) (het : bool)
    : NGL.ResidueProxy :=
  {| NGL.rp_resname := rn; NGL.rp_resno := rno; NGL.rp_chainname := ch;
     NGL.rp_atomCount := n; NGL.rp_isHetero := het |}.

Definition mkInteraction (id : string) (ty : InteractionType) (d : float)
    (l p : NGL.AtomProxy) (ang : option float) : Interaction :=
  {| Interaction.id := id; Interaction.type := ty; Interaction.distance := d;
     Interaction.ligandAtom := parseNGLAtom l;
     Interaction.proteinAtom := parseNGLAtom p;
     Interaction.angle := ang |}.

(** The ligand selector used throughout: residue LIG 1 of chain L. *)
Definition LIG1 : ResidueOption :=
  {| ResidueOption.resName := "LIG"; ResidueOption.resNo := 1;
     ResidueOption.chain := "L"; ResidueOption.atomCount := 6 |}.

(** A planar six-ring of carbons with bonds of about 1.4. *)
Definition hex_C1 := mkAtom 0 "C1" "C" 1.4 0 0 "LIG" 1 "L" true.
Definition hex_C2 := mkAtom 1 "C2" "C" 0.7 1.2 0 "LIG" 1 "L" true.
Definition hex_C3 := mkAtom 2 "C3" "C" (-0.7) 1.2 0 "LIG" 1 "L" true.
Definition hex_C4 := mkAtom 3 "C4" "C" (-1.4) 0 0 "LIG" 1 "L" true.
Definition hex_C5 := mkAtom 4 "C5" "C" (-0.7) (-1.2) 0 "LIG" 1 "L" true.
Definition hex_C6 := mkAtom 5 "C6" "C" 0.7 (-1.2) 0 "LIG" 1 "L" true.

Definition hexagon : list NGL.AtomProxy :=
  [hex_C1; hex_C2; hex_C3; hex_C4; hex_C5; hex_C6].

(** An arginine whose two guanidinium nitrogens flank a ligand oxygen. *)
Definition arg_NH1 := mkAtom 0 "NH1" "N" 0 0 0 "ARG" 10 "A" false.
Definition arg_NH2 := mkAtom 1 "NH2" "N" 2 0 0 "ARG" 10 "A" false.
Definition lig_O1 := mkAtom 2 "O1" "O" 1 0 3 "LIG" 1 "L" true.

Definition argStructure : NGL.Structure :=
  {| NGL.atoms := [arg_NH1; arg_NH2; lig_O1];
     NGL.residues := [mkResidue "ARG" 10 "A" 2 false; mkResidue "LIG" 1 "L" 1 true] |}.

Definition arg_sb0 := mkInteraction "sb-0" SaltBridge 3 lig_O1 arg_NH1 None.
Definition arg_hb1 :=
  mkInteraction "hb-1" HydrogenBond 3.1622776601683795 lig_O1 arg_NH1 None.
Definition arg_hb2 :=
  mkInteraction "hb-2" HydrogenBond 3.1622776601683795 lig_O1 arg_NH2 None.

(** The six-ring under a phenylalanine of which three ring atoms are present,
    all on one line. *)
Definition phe_CG := mkAtom 6 "CG" "C" 0 0 5 "PHE" 20 "A" false.
Definition phe_CD1 := mkAtom 7 "CD1" "C" 1 0 5 "PHE" 20 "A" false.
Definition phe_CD2 := mkAtom 8 "CD2" "C" 2 0 5 "PHE" 20 "A" false.

Definition collinearPheStructure : NGL.Structure :=
  {| NGL.atoms := hexagon ++ [phe_CG; phe_CD1; phe_CD2];
     NGL.residues := [mkResidue "LIG" 1 "L" 6 true; mkResidue "PHE" 20 "A" 3 false] |}.

Definition phe_pi0 :=
  mkInteraction "pi-0" PiStacking 5.0990195135927845 hex_C1 phe_CG (Some 0).

(** A long ligand: two atoms 40 apart, and a backbone nitrogen 3 away from
    the first of them. *)
Definition long_O1 := mkAtom 0 "O1" "O" 0 0 0 "LIG" 1 "L" true.
Definition long_C2 := mkAtom 1 "C2" "C" 40 0 0 "LIG" 1 "L" true.
Definition gly_N := mkAtom 2 "N" "N" 0 0 3 "GLY" 5 "A" false.

Definition longLigandStructure : NGL.Structure :=
  {| NGL.atoms := [long_O1; long_C2; gly_N];
     NGL.residues := [mkResidue "LIG" 1 "L" 2 true; mkResidue "GLY" 5 "A" 1 false] |}.

Definition long_hb0 := mkInteraction "hb-0" HydrogenBond 3 long_O1 gly_N None.

(** A structure without the ligand residue. *)
Definition apoStructure : NGL.Structure :=
  {| NGL.atoms := [gly_N];
     NGL.residues := [mkResidue "GLY" 5 "A" 1 false] |}.

(** A protein residue that carries the name of a member of
    [Object.prototype], next to a ligand oxygen. *)
Definition odd_CA := mkAtom 0 "CA" "C" 0 0 4 "constructor" 7 "A" false.

Definition oddNameStructure : NGL.Structure :=
  {| NGL.atoms := [odd_CA; lig_O1];
     NGL.residues := [mkResidue "constructor" 7 "A" 1 false; mkResidue "LIG" 1 "L" 1 true] |}.

(** A six-ring that starts with a nitrogen, under a phenylalanine of which
    three ring atoms are present, in a plane parallel to the ring: the ring
    stacks on the phenylalanine ring, and its nitrogen also lies within the
    pi-cation distance of that ring.  Both contacts are recorded for the
    pair (N1, CG), with the same rank. *)
Definition pyr_N1 := mkAtom 0 "N1" "N" 1.4 0 0 "LIG" 1 "L" true.

Definition pyridine : list NGL.AtomProxy :=
  [pyr_N1; hex_C2; hex_C3; hex_C4; hex_C5; hex_C6].

Definition tie_CG := mkAtom 6 "CG" "C" 0 0 4.6 "PHE" 20 "A" false.
Definition tie_CD1 := mkAtom 7 "CD1" "C" 1.2 0.7 4.6 "PHE" 20 "A" false.
Definition tie_CD2 := mkAtom 8 "CD2" "C" 1.2 (-0.7) 4.6 "PHE" 20 "A" false.

Definition tieStructure : NGL.Structure :=
  {| NGL.atoms := pyridine ++ [tie_CG; tie_CD1; tie_CD2];
     NGL.residues := [mkResidue "LIG" 1 "L" 6 true; mkResidue "PHE" 20 "A" 3 false] |}.

Definition tie_pi0 :=
  mkInteraction "pi-0" PiStacking 4.6690470119715002 pyr_N1 tie_CG (Some 0).
Definition tie_pic1 :=
  mkInteraction "pic-1" PiStacking 4.6389654018972806 pyr_N1 tie_CG None.

(** [Math.acos] where the worked inputs call it: the two normals are
    parallel, the cosine is 1, and the arc cosine of 1 is 0. *)
Definition acosAtOne (c : float) : float := if c =? 1 then 0 else nan.

(** U+00A0 (no-break space) in UTF-8. *)
Definition nbsp : string := JS.utf8 [194; 160]%nat.

(** [|a - b| <= 1e-9]. *)
Definition withinTolerance (a b : float) : bool := abs (a - b) <=? 1e-9.

(** * Verification *)

Local Close Scope float_scope.

(** ** General facts about loops *)

Lemma fold_left_invariant {A S} (P : S → Prop) (f : S → A → S) (l : list A) (s : S) :
  P s → (∀ s a, a ∈ l → P s → P (f s a)) → P (fold_left f l s).
Proof.
  revert s. induction l as [|a l IH]; intros s Hs Hstep; simpl; [done|].
  apply IH.
  - apply Hstep; [left | done].
  - intros s' b Hb. apply Hstep. by right.
Qed.

Lemma forEachM_invariant {A S} (P : S → Prop) (f : S → A → option S)
    (l : list A) (s s' : S) :
  P s → (∀ s a s', a ∈ l → P s → f s a = Some s' → P s') →
  forEachM f l s = Some s' → P s'.
Proof.
  revert s. induction l as [|a l IH]; intros s Hs Hstep Hrun; simpl in Hrun.
  - by simplify_eq.
  - destruct (f s a) as [s1|] eqn:Hf; simpl in Hrun; [|done].
    apply (IH s1); [| |done].
    + eapply Hstep; [left | done | done].
    + intros s2 b s3 Hb. apply Hstep. by right.
Qed.

(** ** Insertion-ordered maps *)

Section OMapFacts.
Context {V : Type}.
Implicit Types (m : OMap.t V) (k : string) (v : V).

Lemma OMap_get_set k k' v m :
  OMap.get k' (OMap.set k v m) = if decide (k' = k) then Some v else OMap.get k' m.
Proof.
  induction m as [|[k0 v0] m IH]; simpl.
  - repeat case_decide; congruence.
  - repeat (case_decide; simpl); try congruence.
Qed.

Lemma OMap_get_None k m : OMap.get k m = None ↔ k ∉ OMap.keys m.
Proof.
  unfold OMap.keys. induction m as [|[k0 v0] m IH]; simpl.
  - split; [intros _; apply not_elem_of_nil | done].
  - case_decide; subst.
    + split; [done | intros []; left].
    + rewrite IH, not_elem_of_cons. split; [by intros ?; split | by intros [_ ?]].
Qed.

Lemma OMap_get_Some_elem k v m : OMap.get k m = Some v → (k, v) ∈ m.
Proof.
  induction m as [|[k0 v0] m IH]; simpl; [done|].
  case_decide; subst.
  - intros [= ->]. left.
  - intros. right. auto.
Qed.

Lemma OMap_elem_get k v m : NoDup (OMap.keys m) → (k, v) ∈ m → OMap.get k m = Some v.
Proof.
  unfold OMap.keys. induction m as [|[k0 v0] m IH]; simpl.
  - intros _ H. by apply elem_of_nil in H.
  - rewrite NoDup_cons. intros [Hk0 Hnd] [[= -> ->]|Hin]%elem_of_cons.
    + by rewrite decide_True.
    + rewrite decide_False; [auto|].
      intros ->. apply Hk0. apply list_elem_of_fmap. by exists (k0, v).
Qed.

Lemma OMap_keys_set_Some k v v' m :
  OMap.get k m = Some v' → OMap.keys (OMap.set k v m) = OMap.keys m.
Proof.
  unfold OMap.keys. induction m as [|[k0 v0] m IH]; simpl; [done|].
  case_decide; subst; simpl; [done|].
  intros. f_equal. auto.
Qed.

Lemma OMap_keys_set_None k v m :
  OMap.get k m = None → OMap.keys (OMap.set k v m) = OMap.keys m ++ [k].
Proof.
  unfold OMap.keys. induction m as [|[k0 v0] m IH]; simpl; [done|].
  case_decide; subst; simpl; [done|].
  intros. f_equal. auto.
Qed.

Lemma OMap_NoDup_set k v m :
  NoDup (OMap.keys m) → NoDup (OMap.keys (OMap.set k v m)).
Proof.
  intros Hnd. destruct (OMap.get k m) as [v'|] eqn:Hget.
  - by rewrite (OMap_keys_set_Some _ _ _ _ Hget).
  - rewrite (OMap_keys_set_None _ _ _ Hget).
    apply NoDup_app. split_and!; [done| |apply NoDup_singleton].
    intros k' Hk' ->%list_elem_of_singleton. by apply OMap_get_None in Hget.
Qed.

Lemma OMap_values_elem v m : v ∈ OMap.values m ↔ ∃ k, (k, v) ∈ m.
Proof.
  unfold OMap.values. rewrite list_elem_of_fmap. split.
  - intros [[k v'] [-> ?]]. by exists k.
  - intros [k ?]. by exists (k, v).
Qed.
End OMapFacts.

(** ** The pair key identifies the pair of atom indices *)

Definition is_digit (c : ascii) : Prop := is_Some (Ascii.is_nat c).

Fixpoint all_digits (s : string) : Prop :=
  match s with
  | EmptyString => True
  | String c s' => is_digit c ∧ all_digits s'
  end.

Lemma pretty_N_char_digit n : is_digit (pretty_N_char n).
Proof.
  unfold is_digit, pretty_N_char.
  destruct n as [|p]; [by eexists|].
  repeat (destruct p as [p|p|]; try by eexists).
Qed.

Lemma pretty_N_go_digits n s : all_digits s → all_digits (pretty_N_go n s).
Proof.
  revert s. induction (N.lt_wf_0 n) as [n _ IH]; intros s Hs.
  destruct (decide (n = 0%N)) as [->|Hn].
  - by rewrite pretty_N_go_0.
  - rewrite pretty_N_go_step by lia. apply IH.
    + apply N.div_lt; lia.
    + split; [apply pretty_N_char_digit | done].
Qed.

Lemma pretty_N_digits (n : N) : all_digits (pretty n).
Proof.
  unfold pretty, pretty_N. case_decide.
  - split; [by eexists | done].
  - by apply pretty_N_go_digits.
Qed.

Lemma app_empty_l (s : string) : "" +:+ s = s.
Proof. reflexivity. Qed.

Lemma app_String_l (c : ascii) (s t : string) : String c s +:+ t = String c (s +:+ t).
Proof. reflexivity. Qed.

Lemma digit_not_dash c : is_digit c → c ≠ "-"%char.
Proof. intros [n Hn] ->. discriminate Hn. Qed.

(** Two strings of digits joined by a dash can be taken apart again. *)
Lemma dash_split s1 s2 t1 t2 :
  all_digits s1 → all_digits s2 →
  s1 +:+ "-" +:+ t1 = s2 +:+ "-" +:+ t2 → s1 = s2 ∧ t1 = t2.
Proof.
  revert s2. induction s1 as [|c s1 IH]; intros [|d s2]; simpl;
    rewrite ?app_empty_l, ?app_String_l.
  - intros _ _ H. change (String "-" t1 = String "-" t2) in H.
    split; [done | congruence].
  - intros _ [Hd _] [= <- _]. by apply digit_not_dash in Hd.
  - intros [Hc _] _ [= -> _]. by apply digit_not_dash in Hc.
  - intros [_ H1] [_ H2] [= -> Heq]. destruct (IH s2 H1 H2 Heq) as [-> ->]. done.
Qed.

Lemma pairKey_inj (i j : Interaction) :
  pairKey i = pairKey j ↔
  index (Interaction.ligandAtom i) = index (Interaction.ligandAtom j)
  ∧ index (Interaction.proteinAtom i) = index (Interaction.proteinAtom j).
Proof.
  unfold pairKey. split.
  - intros H. apply dash_split in H as [H1 H2]; try apply pretty_N_digits.
    split; by apply (inj pretty).
  - intros [-> ->]. done.
Qed.

(** ** Deduplication *)

(** What one key of [pairMap] sees of the loop: the first candidate is stored,
    and a later one takes its place only with a strictly higher score. *)
Definition pick (o : option Interaction) (i : Interaction) : option Interaction :=
  match o with
  | None => Some i
  | Some existing =>
      if (typeScore (Interaction.type existing) <? typeScore (Interaction.type i))%nat
      then Some i
      else Some existing
  end.

Definition score (i : Interaction) : nat := typeScore (Interaction.type i).

Lemma get_dedupStep k m i :
  OMap.get k (dedupStep m i) =
  if decide (k = pairKey i) then pick (OMap.get k m) i else OMap.get k m.
Proof.
  unfold dedupStep, pick.
  destruct (OMap.get (pairKey i) m) as [e|] eqn:He.
  - case_decide; subst.
    + rewrite He. case_match; [|done].
      by rewrite OMap_get_set, decide_True.
    + case_match; [|done]. by rewrite OMap_get_set, decide_False.
  - rewrite OMap_get_set. case_decide; subst; [by rewrite He | done].
Qed.

Lemma get_dedup_fold k cs m :
  OMap.get k (fold_left dedupStep cs m) =
  fold_left pick (filter (λ i, pairKey i = k) cs) (OMap.get k m).
Proof.
  revert m. induction cs as [|c cs IH]; intros m; simpl; [done|].
  rewrite IH, get_dedupStep, filter_cons.
  repeat case_decide; simpl; congruence.
Qed.

Lemma NoDup_dedupStep m i : NoDup (OMap.keys m) → NoDup (OMap.keys (dedupStep m i)).
Proof.
  intros Hnd. unfold dedupStep.
  repeat case_match; auto using OMap_NoDup_set.
Qed.

Lemma NoDup_dedup_fold cs m :
  NoDup (OMap.keys m) → NoDup (OMap.keys (fold_left dedupStep cs m)).
Proof.
  intros Hnd. apply fold_left_invariant; [done|].
  intros. by apply NoDup_dedupStep.
Qed.

(** Every entry of the map is stored under its own pair key. *)
Definition keyed (m : OMap.t Interaction) : Prop :=
  ∀ k i, (k, i) ∈ m → k = pairKey i.

Lemma elem_of_OMap_set {V} k (v : V) m kv :
  kv ∈ OMap.set k v m → kv = (k, v) ∨ kv ∈ m.
Proof.
  induction m as [|[k0 v0] m IH]; simpl.
  - intros ->%list_elem_of_singleton. by left.
  - case_decide; subst.
    + intros [->|?]%elem_of_cons; [by left | right; by right].
    + intros [->|?]%elem_of_cons; [right; left|].
      destruct IH as [|]; [done | by left | right; by right].
Qed.

Lemma keyed_dedupStep m i : keyed m → keyed (dedupStep m i).
Proof.
  intros Hk. unfold dedupStep.
  repeat case_match; try done;
    intros k j [[= -> ->]|?]%elem_of_OMap_set; auto.
Qed.

Lemma keyed_dedup_fold cs : keyed (fold_left dedupStep cs []).
Proof.
  apply fold_left_invariant.
  - intros k i H. by apply elem_of_nil in H.
  - intros. by apply keyed_dedupStep.
Qed.

(** The survivor of a non-empty run of candidates for one key: it stands at a
    position before which every candidate scores strictly lower and after
    which none scores higher. *)
Lemma pick_fold_Some e cs :
  ∃ w, fold_left pick cs (Some e) = Some w ∧
       (w = e ∧ Forall (λ j, score j ≤ score e) cs
        ∨ ∃ pre post, cs = pre ++ w :: post
            ∧ score e < score w
            ∧ Forall (λ j, score j < score w) pre
            ∧ Forall (λ j, score j ≤ score w) post).
Proof.
  revert e. induction cs as [|c cs IH]; intros e; simpl.
  - exists e. split; [done|]. left. by split.
  - fold (score e) (score c). destruct (score e <? score c)%nat eqn:Hlt.
    + apply Nat.ltb_lt in Hlt.
      destruct (IH c) as (w & Hw & [[-> Hall]|(pre & post & -> & Hcw & Hpre & Hpost)]).
      * exists c. split; [done|]. right. exists [], cs. split_and!; auto.
      * exists w. split; [done|]. right. exists (c :: pre), post.
        split_and!; auto with lia.
    + apply Nat.ltb_ge in Hlt.
      destruct (IH e) as (w & Hw & [[-> Hall]|(pre & post & -> & Hcw & Hpre & Hpost)]).
      * exists e. split; [done|]. left. split; [done|]. by constructor.
      * exists w. split; [done|]. right. exists (c :: pre), post.
        split_and!; auto. constructor; [lia | done].
Qed.

Lemma pick_fold_None c cs :
  ∃ w pre post, fold_left pick (c :: cs) None = Some w
    ∧ c :: cs = pre ++ w :: post
    ∧ Forall (λ j, score j < score w) pre
    ∧ Forall (λ j, score j ≤ score w) post.
Proof.
  simpl. destruct (pick_fold_Some c cs)
    as (w & Hw & [[-> Hall]|(pre & post & -> & Hcw & Hpre & Hpost)]).
  - exists c, [], cs. by split_and!.
  - exists w, (c :: pre), post. split_and!; auto.
Qed.

(** A decomposition of a filtered list lifts to the list itself. *)
Lemma filter_split {A} (P : A → Prop) `{∀ a, Decision (P a)} (l pre' post' : list A) w :
  filter P l = pre' ++ w :: post' →
  ∃ pre post, l = pre ++ w :: post ∧ filter P pre = pre' ∧ filter P post = post'.
Proof.
  revert pre'. induction l as [|a l IH]; intros pre' Heq.
  - by destruct pre'.
  - rewrite filter_cons in Heq. destruct (decide (P a)) as [Ha|Ha].
    + destruct pre' as [|b pre']; simplify_eq/=.
      * exists [], l. by rewrite filter_nil.
      * destruct (IH pre') as (pre & post & -> & <- & <-); [done|].
        exists (b :: pre), post. by rewrite filter_cons, decide_True.
    + destruct (IH pre' Heq) as (pre & post & -> & <- & <-).
      exists (a :: pre), post. by rewrite filter_cons, decide_False.
Qed.

Lemma deduplicate_keys cs :
  pairKey <$> deduplicate cs = OMap.keys (fold_left dedupStep cs []).
Proof.
  unfold deduplicate, OMap.values, OMap.keys.
  pose proof (keyed_dedup_fold cs) as Hk.
  induction (fold_left dedupStep cs []) as [|[k i] m IH]; simpl; [done|].
  f_equal.
  - symmetry. apply Hk. left.
  - apply IH. intros k' j Hj. apply Hk. by right.
Qed.

Lemma deduplicate_NoDup cs : NoDup (pairKey <$> deduplicate cs).
Proof.
  rewrite deduplicate_keys. apply NoDup_dedup_fold. constructor.
Qed.

Lemma deduplicate_get cs w :
  w ∈ deduplicate cs ↔ OMap.get (pairKey w) (fold_left dedupStep cs []) = Some w.
Proof.
  unfold deduplicate. rewrite OMap_values_elem. split.
  - intros [k Hk]. pose proof (keyed_dedup_fold cs k w Hk) as ->.
    apply OMap_elem_get; [|done]. apply NoDup_dedup_fold. constructor.
  - intros H. exists (pairKey w). by apply OMap_get_Some_elem.
Qed.

(** The survivor for a pair is the earliest candidate of the highest score
    among the candidates for that pair. *)
Lemma deduplicate_survivor cs w :
  w ∈ deduplicate cs →
  ∃ pre post, cs = pre ++ w :: post
    ∧ Forall (λ j, pairKey j = pairKey w → score j < score w) pre
    ∧ Forall (λ j, pairKey j = pairKey w → score j ≤ score w) post.
Proof.
  rewrite deduplicate_get, get_dedup_fold. simpl. intros Hw.
  destruct (filter (λ i, pairKey i = pairKey w) cs) as [|c fs] eqn:Hf; [done|].
  destruct (pick_fold_None c fs) as (w' & pre' & post' & Hw' & Hsplit & Hpre & Hpost).
  rewrite Hw in Hw'. injection Hw' as <-. rewrite Hsplit in Hf.
  apply filter_split in Hf as (pre & post & -> & <- & <-).
  exists pre, post. rewrite Forall_forall in Hpre, Hpost.
  split_and!; [done|..]; apply Forall_forall; intros j Hj Hk;
    [apply Hpre | apply Hpost]; by apply list_elem_of_filter.
Qed.

Lemma deduplicate_subset cs w : w ∈ deduplicate cs → w ∈ cs.
Proof.
  intros (pre & post & -> & _)%deduplicate_survivor.
  apply elem_of_app. right. left.
Qed.

(** Every candidate's pair keeps a survivor. *)
Lemma deduplicate_covers cs c :
  c ∈ cs → ∃ w, w ∈ deduplicate cs ∧ pairKey w = pairKey c.
Proof.
  intros Hc.
  assert (c ∈ filter (λ i, pairKey i = pairKey c) cs) as Hin
    by by apply list_elem_of_filter.
  destruct (filter (λ i, pairKey i = pairKey c) cs) as [|d fs] eqn:Hf.
  { by apply elem_of_nil in Hin. }
  destruct (pick_fold_None d fs) as (w & pre' & post' & Hw & Hsplit & _).
  assert (w ∈ filter (λ i, pairKey i = pairKey c) cs) as Hwin.
  { rewrite Hf, Hsplit. apply elem_of_app. right. left. }
  apply list_elem_of_filter in Hwin as [Hkey _].
  exists w. split; [|done].
  apply deduplicate_get. rewrite Hkey, get_dedup_fold, Hf. exact Hw.
Qed.

(** With distinct keys, the entries for one key are a single entry. *)
Lemma filter_key_singleton {A K} `{EqDecision K} (f : A → K) (l : list A) (w : A) :
  NoDup (f <$> l) → w ∈ l → filter (λ a, f a = f w) l = [w].
Proof.
  induction l as [|a l IH]; intros Hnd Hw.
  - by apply elem_of_nil in Hw.
  - rewrite fmap_cons, NoDup_cons in Hnd. destruct Hnd as [Ha Hnd].
    rewrite filter_cons. apply elem_of_cons in Hw as [->|Hw].
    + rewrite decide_True by done. f_equal.
      apply elem_of_nil_inv. intros b [Heq Hb]%list_elem_of_filter. apply Ha.
      rewrite <- Heq. apply list_elem_of_fmap. by exists b.
    + rewrite decide_False; [by apply IH|].
      intros Heq. apply Ha. rewrite Heq. apply list_elem_of_fmap. by exists w.
Qed.

(** ** Strings: trimming leaves no white space at the ends *)

Lemma rev_app_length (s t : string) :
  String.length (String.rev_app s t) = String.length s + String.length t.
Proof.
  revert t. induction s as [|c s IH]; intros t; simpl; [done|].
  rewrite IH. simpl. lia.
Qed.

Lemma rev_rev_app (s t : string) :
  String.rev (String.rev_app s t) = String.rev_app t s.
Proof.
  revert t. induction s as [|c s IH]; intros t; simpl; [done|]. by rewrite IH.
Qed.

Lemma rev_involutive (s : string) : String.rev (String.rev s) = s.
Proof. unfold String.rev at 2. by rewrite rev_rev_app. Qed.

Lemma strip_prefix_length p s rest :
  JS.strip_prefix p s = Some rest →
  String.length s = String.length p + String.length rest.
Proof.
  revert s. induction p as [|a p IH]; intros [|b s]; simpl; try done.
  - by intros [= <-].
  - by intros [= <-].
  - destruct (Ascii.eqb a b); [|done]. intros H. by rewrite (IH s H).
Qed.

Lemma strip_any_length ws s rest :
  Forall (λ w, w ≠ EmptyString) ws →
  JS.strip_any ws s = Some rest → String.length rest < String.length s.
Proof.
  induction 1 as [|w ws Hw _ IH]; simpl; [done|].
  destruct (JS.strip_prefix w s) as [r|] eqn:Hp; [|done].
  intros [= <-]. apply strip_prefix_length in Hp. destruct w; [done|].
  simpl in Hp. lia.
Qed.

Lemma strip_all_done ws rounds s :
  Forall (λ w, w ≠ EmptyString) ws → String.length s ≤ rounds →
  JS.strip_any ws (JS.strip_all ws rounds s) = None.
Proof.
  intros Hws. revert s. induction rounds as [|rounds IH]; intros s Hlen; simpl.
  - destruct s; [|simpl in Hlen; lia]. clear Hlen.
    induction Hws as [|w ws Hw _ IHws]; simpl; [done|]. by destruct w.
  - destruct (JS.strip_any ws s) as [rest|] eqn:Hs; [|done].
    apply IH. apply strip_any_length in Hs; [lia | done].
Qed.

Lemma white_space_nonempty : Forall (λ w, w ≠ EmptyString) JS.white_space.
Proof. vm_compute. repeat constructor; discriminate. Qed.

(** The rounds of [trimStart] and [trimEnd] suffice: no white-space character
    is left at the start, nor at the end. *)
Lemma trimStart_done (s : string) :
  JS.strip_any JS.white_space (JS.trimStart s) = None.
Proof. apply strip_all_done; [apply white_space_nonempty | done]. Qed.

Lemma trimEnd_done (s : string) :
  JS.strip_any (String.rev <$> JS.white_space) (String.rev (JS.trimEnd s)) = None.
Proof.
  unfold JS.trimEnd. rewrite rev_involutive. apply strip_all_done.
  - vm_compute. repeat constructor; discriminate.
  - unfold String.rev. rewrite rev_app_length. simpl. lia.
Qed.

(** ** Residue lookup by name *)

Lemma findResidueStep_found toUpperCase q r l :
  fold_left (findResidueStep toUpperCase q) l (Some r) = Some r.
Proof. induction l as [|rp l IH]; simpl; done. Qed.

(** C8: for every structure and every query, whatever the host's
    [toUpperCase] and [trim] do on the text, [findResidueByName] returns the
    first residue, in traversal order, whose upper-cased name equals the
    upper-cased and then trimmed query, as a record of that residue's name,
    number, chain and atom count; it returns null ([None]) when no residue
    matches, and never throws. *)
Theorem findResidueByName_first_match (toUpperCase trim : string → string)
    (structure : NGL.Structure) (queryName : string) :
  let matches (rp : NGL.ResidueProxy) : Prop :=
    toUpperCase (NGL.rp_resname rp) = trim (toUpperCase queryName) in
  match findResidueByName toUpperCase trim structure queryName with
  | Some r =>
      ∃ pre rp post,
        NGL.residues structure = pre ++ rp :: post
        ∧ matches rp
        ∧ Forall (λ rp', ¬ matches rp') pre
        ∧ ResidueOption.resName r = NGL.rp_resname rp
        ∧ ResidueOption.resNo r = NGL.rp_resno rp
        ∧ ResidueOption.chain r = NGL.rp_chainname rp
        ∧ ResidueOption.atomCount r = NGL.rp_atomCount rp
  | None => Forall (λ rp, ¬ matches rp) (NGL.residues structure)
  end.
Proof.
  cbv zeta. unfold findResidueByName, NGL.eachResidue.
  induction (NGL.residues structure) as [|rp l IH]; simpl; [done|].
  case_bool_decide as Hrp.
  - rewrite findResidueStep_found.
    exists [], rp, l. by split_and!.
  - destruct (fold_left _ l None) as [r|].
    + destruct IH as (pre & rp' & post & -> & Hm & Hpre & Hfields).
      exists (rp :: pre), rp', post. split_and!; try done; try apply Hfields.
      by constructor.
    + by constructor.
Qed.

(** The worked query: [lig] followed by a no-break space finds the residue
    LIG, which stands second in the traversal, after ARG. *)
Lemma findResidueByName_first_match_witness :
  findResidueByName JS.toUpperCase JS.trim argStructure ("lig" +:+ nbsp) =
    Some {| ResidueOption.resName := "LIG"; ResidueOption.resNo := 1;
            ResidueOption.chain := "L"; ResidueOption.atomCount := 1 |}
  ∧ ∃ pre rp post,
      NGL.residues argStructure = pre ++ rp :: post
      ∧ JS.toUpperCase (NGL.rp_resname rp) = "LIG"
      ∧ Forall (λ rp', JS.toUpperCase (NGL.rp_resname rp') ≠ "LIG") pre
      ∧ NGL.rp_resname rp = "LIG" ∧ NGL.rp_resno rp = 1%Z
      ∧ NGL.rp_chainname rp = "L" ∧ NGL.rp_atomCount rp = 1%N.
Proof.
  assert (findResidueByName JS.toUpperCase JS.trim argStructure ("lig" +:+ nbsp) =
    Some {| ResidueOption.resName := "LIG"; ResidueOption.resNo := 1;
            ResidueOption.chain := "L"; ResidueOption.atomCount := 1 |}) as Hrun
    by (vm_compute; reflexivity).
  split; [exact Hrun|].
  pose proof (findResidueByName_first_match JS.toUpperCase JS.trim argStructure
                ("lig" +:+ nbsp)) as H.
  cbv zeta in H. rewrite Hrun in H.
  replace (JS.trim (JS.toUpperCase ("lig" +:+ nbsp))) with "LIG" in H
    by (vm_compute; reflexivity).
  destruct H as (pre & rp & post & Hl & Hm & Hpre & Hname & Hno & Hch & Hcount).
  exists pre, rp, post. simpl in Hname, Hno, Hch, Hcount. by split_and!.
Defined.

(** ** Zero-magnitude vectors *)

Definition zeroVector : Vector3 := {| x := 0%float; y := 0%float; z := 0%float |}.

Lemma mag_zeroVector : JS.strict_eq (mag zeroVector) 0 = true.
Proof. reflexivity. Qed.

(** C10: [angleBetween] is 0 degrees as soon as one of the two vectors has
    magnitude zero; [normalize] maps a vector of magnitude zero to the zero
    vector without dividing; hence the angle against a normalized degenerate
    normal is 0, which is a number and not NaN. *)
Theorem zero_magnitude_is_guarded (Math_acos : float → float) :
  (∀ v1 v2 : Vector3,
     JS.strict_eq (mag v1) 0 = true ∨ JS.strict_eq (mag v2) 0 = true →
     angleBetween Math_acos v1 v2 = 0%float)
  ∧ (∀ v : Vector3, JS.strict_eq (mag v) 0 = true → normalize v = zeroVector)
  ∧ (∀ v w : Vector3,
       JS.strict_eq (mag v) 0 = true →
       angleBetween Math_acos (normalize v) w = 0%float
       ∧ angleBetween Math_acos w (normalize v) = 0%float
       ∧ is_nan (angleBetween Math_acos (normalize v) w) = false).
Proof.
  assert (∀ v1 v2 : Vector3,
     JS.strict_eq (mag v1) 0 = true ∨ JS.strict_eq (mag v2) 0 = true →
     angleBetween Math_acos v1 v2 = 0%float) as Hangle.
  { intros v1 v2 Hz. unfold angleBetween.
    destruct Hz as [-> | ->]; [done | by rewrite orb_true_r]. }
  assert (∀ v : Vector3, JS.strict_eq (mag v) 0 = true → normalize v = zeroVector)
    as Hnorm.
  { intros v Hz. unfold normalize. by rewrite Hz. }
  split_and!; [done | done |].
  intros v w Hz. rewrite (Hnorm v Hz).
  rewrite !Hangle by (left + right; apply mag_zeroVector). done.
Qed.

Lemma zero_magnitude_is_guarded_witness :
  angleBetween (λ c, c) {| x := 1%float; y := 2%float; z := 3%float |} (normalize zeroVector) = 0%float.
Proof.
  apply (proj1 (zero_magnitude_is_guarded (λ c, c))).
  right. reflexivity.
Defined.

(** ** The empty-ligand outcome *)

Lemma extractAtoms_no_ligand l (lig : ResidueOption) acc :
  (∀ ap, ap ∈ l → isLigand lig ap = false) →
  (fold_left (extractStep lig) l acc).1 = acc.1.
Proof.
  revert acc. induction l as [|ap l IH]; intros [la pa] Hno; simpl; [done|].
  rewrite (Hno ap) by left.
  rewrite IH by (intros; apply Hno; by right).
  by destruct (negb _).
Qed.

Lemma isLigand_spec lig ap :
  isLigand lig ap = true ↔
  NGL.ap_chainname ap = ResidueOption.chain lig
  ∧ NGL.ap_resno ap = ResidueOption.resNo lig
  ∧ NGL.ap_resname ap = ResidueOption.resName lig.
Proof.
  unfold isLigand. rewrite !andb_true_iff, !bool_decide_eq_true. tauto.
Qed.

(** C7: when no atom of the structure matches the ligand selector (chain,
    residue number and residue name all equal), [analyzeInteractions] returns
    the empty interaction list with the zero vector as centre, and does not
    throw. *)
Theorem analyzeInteractions_no_ligand (Math_acos : float → float)
    (structure : NGL.Structure) (ligandResidue : ResidueOption) :
  (∀ ap, ap ∈ NGL.atoms structure →
     ¬ (NGL.ap_chainname ap = ResidueOption.chain ligandResidue
        ∧ NGL.ap_resno ap = ResidueOption.resNo ligandResidue
        ∧ NGL.ap_resname ap = ResidueOption.resName ligandResidue)) →
  analyzeInteractions Math_acos structure ligandResidue =
  Some {| interactions := []; ligandCenter := {| x := 0%float; y := 0%float; z := 0%float |} |}.
Proof.
  intros Hno. unfold analyzeInteractions.
  pose proof (extractAtoms_no_ligand (NGL.atoms structure) ligandResidue ([], [])) as H.
  unfold extractAtoms, NGL.eachAtom.
  destruct (fold_left _ _ _) as [la pa]. simpl in H. rewrite H; [done|].
  intros ap Hap. apply not_true_is_false. rewrite isLigand_spec. by apply Hno.
Qed.

(** ** Ring perception *)

Section RingFacts.
Variable a0 : AtomData.
Variable atoms : list AtomData.

(** Well-formed adjacency: one entry per atom, holding positions of atoms. *)
Definition adjOk (adj : list (list nat)) : Prop :=
  length adj = length atoms ∧ Forall (Forall (λ j, j < length atoms)) adj.

Lemma adjOk_alter adj i j :
  j < length atoms → adjOk adj → adjOk (alter (λ l, l ++ [j]) i adj).
Proof.
  intros Hj [Hlen Hall]. split; [by rewrite length_alter|].
  apply Forall_alter; [done|].
  intros l _ Hl. apply Forall_app. split; [done|]. by repeat constructor.
Qed.

Lemma buildAdj_ok : adjOk (buildAdj a0 atoms).
Proof.
  unfold buildAdj. apply fold_left_invariant.
  - split; [apply length_replicate|]. apply Forall_replicate. constructor.
  - intros adj i Hi Hadj. apply elem_of_seq in Hi.
    apply fold_left_invariant; [done|].
    intros adj' j Hj Hadj'. apply elem_of_seq in Hj.
    unfold bondStep. case_match; [|done].
    apply adjOk_alter; [lia|]. apply adjOk_alter; [lia | done].
Qed.

Lemma adjOk_neighbours adj current j :
  adjOk adj → j ∈ adj !!! current → j < length atoms.
Proof.
  intros [Hlen Hall] Hj. destruct (adj !! current) as [l|] eqn:Hl.
  - rewrite (list_lookup_total_correct _ _ _ Hl) in Hj.
    eapply Forall_lookup_1 in Hall; [|done].
    by eapply Forall_forall in Hall.
  - rewrite list_lookup_total_alt, Hl in Hj. simpl in Hj.
    by apply elem_of_nil in Hj.
Qed.

(** A ring path: five or six distinct positions of ligand atoms. *)
Definition ringPath (path : list nat) : Prop :=
  (length path = 5 ∨ length path = 6)
  ∧ Forall (λ j, j < length atoms) path
  ∧ NoDup path.

(** The search state records rings of ring paths, under distinct keys, all
    of them marked as visited. *)
Definition ringsOk (st : RingState) : Prop :=
  ∃ paths : list (list nat),
    rings st = (λ path : list nat, atomAt a0 atoms <$> path) <$> paths
    ∧ Forall ringPath paths
    ∧ NoDup (pathKey <$> paths)
    ∧ ∀ path, path ∈ paths → pathKey path ∈ visitedPaths st.

Lemma dfs_S adj fuel start current path st :
  dfs a0 atoms adj (S fuel) start current path st =
  if (6 <? length path) then st
  else if (5 <=? length path) && JS.includes_nat start (adj !!! current) then
    let key := pathKey path in
    if bool_decide (key ∈ visitedPaths st) then st
    else {| rings := rings st ++ [atomAt a0 atoms <$> path];
            visitedPaths := {[ key ]} ∪ visitedPaths st |}
  else
    fold_left
      (λ st neighbor,
         if JS.includes_nat neighbor path then st
         else dfs a0 atoms adj fuel start neighbor (path ++ [neighbor]) st)
      (adj !!! current) st.
Proof. reflexivity. Qed.

Lemma dfs_ringsOk adj fuel start current path st :
  adjOk adj →
  Forall (λ j, j < length atoms) path → NoDup path →
  ringsOk st → ringsOk (dfs a0 atoms adj fuel start current path st).
Proof.
  intros Hadj. revert current path st.
  induction fuel as [|fuel IH]; intros current path st Hrange Hnd Hst; [done|].
  rewrite dfs_S.
  destruct (6 <? length path) eqn:H6; [done|]. apply Nat.ltb_ge in H6.
  destruct (_ && _) eqn:Hclose.
  - apply andb_true_iff in Hclose as [H5%Nat.leb_le _]. cbv zeta.
    case_bool_decide as Hseen; [done|].
    destruct Hst as (paths & Hrings & Hpaths & Hkeys & Hvis).
    exists (paths ++ [path]). simpl. split_and!.
    + by rewrite Hrings, fmap_app.
    + apply Forall_app. split; [done|]. constructor; [|done].
      split_and!; [lia | done | done].
    + rewrite fmap_app. apply NoDup_app. split_and!; [done| |apply NoDup_singleton].
      intros k Hk ->%list_elem_of_singleton. apply Hseen.
      apply list_elem_of_fmap in Hk as (p & -> & Hp). by apply Hvis.
    + intros p [Hp| ->%list_elem_of_singleton]%elem_of_app.
      * apply elem_of_union. right. by apply Hvis.
      * apply elem_of_union. left. by apply elem_of_singleton.
  - apply fold_left_invariant; [done|].
    intros st' neighbor Hn Hst'. unfold JS.includes_nat.
    case_bool_decide as Hin; [done|].
    apply IH; [|apply NoDup_app|done].
    + apply Forall_app. split; [done|]. repeat constructor.
      by eapply adjOk_neighbours.
    + split_and!; [done| |apply NoDup_singleton].
      by intros j Hj ->%list_elem_of_singleton.
Qed.

Lemma searchFrom_ringsOk adj st i :
  adjOk adj → i < length atoms → ringsOk st → ringsOk (searchFrom a0 atoms adj st i).
Proof.
  intros Hadj Hi Hst. unfold searchFrom. case_match; [|done].
  apply dfs_ringsOk; [done| |apply NoDup_singleton|done].
  by repeat constructor.
Qed.

(** The search never needs more than [dfsFuel] levels: with more fuel the
    result is the same. *)
Lemma dfs_fuel_enough adj start fuel current path st :
  7 ≤ fuel + length path →
  dfs a0 atoms adj (S fuel) start current path st
  = dfs a0 atoms adj fuel start current path st.
Proof.
  revert current path st.
  induction fuel as [|fuel IH]; intros current path st Hlen.
  - rewrite dfs_S. simpl in Hlen.
    destruct (6 <? length path) eqn:H6; [done|].
    apply Nat.ltb_ge in H6. lia.
  - rewrite (dfs_S _ (S fuel)), (dfs_S _ fuel).
    repeat case_match; try done.
    generalize (adj !!! current). intros l. revert st.
    induction l as [|n l IHl]; intros st; simpl; [done|].
    rewrite IHl. f_equal. case_match; [done|].
    apply IH. rewrite length_app. simpl. lia.
Qed.
(** Seven levels are all the search uses from a path of one atom: any larger
    amount of fuel gives the same rings. *)
Corollary dfs_fuel_irrelevant adj start current i st extra :
  dfs a0 atoms adj (dfsFuel + extra) start current [i] st
  = dfs a0 atoms adj dfsFuel start current [i] st.
Proof.
  induction extra as [|extra IH]; [by rewrite Nat.add_0_r|].
  rewrite Nat.add_succ_r, dfs_fuel_enough; [done|]. unfold dfsFuel. simpl. lia.
Qed.
End RingFacts.

(** A permutation seen through a map that is injective on the elements at
    hand is a permutation of the elements themselves. *)
Lemma Permutation_fmap_inj_on {A B} (g : A → B) (l1 l2 : list A) :
  (∀ a b, a ∈ l1 → b ∈ l2 → g a = g b → a = b) →
  g <$> l1 ≡ₚ g <$> l2 → l1 ≡ₚ l2.
Proof.
  revert l2. induction l1 as [|a l1 IH]; intros l2 Hinj Hperm.
  - apply Permutation_nil_l in Hperm. symmetry in Hperm.
    by apply fmap_nil_inv in Hperm as ->.
  - assert (g a ∈ g <$> l2) as (b & Hab & Hb)%list_elem_of_fmap.
    { rewrite <- Hperm. left. }
    apply Hinj in Hab as <-; [|left|done].
    apply elem_of_Permutation in Hb as [l2' Hl2].
    rewrite Hl2. constructor. apply IH.
    + intros c d Hc Hd. apply Hinj; [by right|]. rewrite Hl2. by right.
    + rewrite Hl2, !fmap_cons in Hperm. by apply (inj (cons (g a))) in Hperm.
Qed.

Definition sortIndices (l : list N) : list N := merge_sort N.le l.

Lemma sortPath_Permutation p1 p2 : p1 ≡ₚ p2 → sortPath p1 = sortPath p2.
Proof.
  intros Hp. unfold sortPath.
  apply (Sorted_unique (≤)); try apply Sorted_merge_sort; try apply _.
  by rewrite !merge_sort_Permutation.
Qed.

(** The rings returned for a non-empty atom list are read off ring paths
    with pairwise distinct keys. *)
Lemma findLigandRings_paths (a0 : AtomData) (rest : list AtomData) :
  let atoms := a0 :: rest in
  ∃ paths : list (list nat),
    findLigandRings atoms = (λ path : list nat, atomAt a0 atoms <$> path) <$> paths
    ∧ Forall (ringPath atoms) paths
    ∧ NoDup (pathKey <$> paths).
Proof.
  intros atoms. subst atoms. unfold findLigandRings.
  set (atoms := a0 :: rest).
  assert (ringsOk a0 atoms
            (fold_left (searchFrom a0 atoms (buildAdj a0 atoms))
               (seq 0 (length atoms)) {| rings := []; visitedPaths := ∅ |}))
    as (paths & -> & Hpaths & Hkeys & _); [|by exists paths].
  apply fold_left_invariant.
  - exists []. split_and!; [done | constructor | constructor |].
    intros p Hp. by apply elem_of_nil in Hp.
  - intros st i Hi%elem_of_seq Hst.
    apply searchFrom_ringsOk; [apply buildAdj_ok | lia | done].
Qed.

Lemma atomAt_lookup (a0 : AtomData) (atoms : list AtomData) (i : nat) :
  i < length atoms → atoms !! i = Some (atomAt a0 atoms i).
Proof.
  intros Hi. unfold atomAt.
  destruct (nth_lookup_or_length atoms i a0); [done | lia].
Qed.

(** Ring atoms are ligand atoms, and a ring is never empty. *)
Lemma findLigandRings_atoms (atoms ring : list AtomData) :
  ring ∈ findLigandRings atoms →
  ring ⊆ atoms ∧ (length ring = 5 ∨ length ring = 6).
Proof.
  destruct atoms as [|a0 rest]; [by intros ?%elem_of_nil|].
  destruct (findLigandRings_paths a0 rest) as (paths & -> & Hpaths & _).
  intros (p & -> & Hp)%list_elem_of_fmap.
  rewrite Forall_forall in Hpaths. destruct (Hpaths p Hp) as (Hlen & Hrange & _).
  split; [|by rewrite length_fmap].
  intros a (i & -> & Hi)%list_elem_of_fmap.
  rewrite Forall_forall in Hrange.
  eapply list_elem_of_lookup_2, atomAt_lookup. by apply Hrange.
Qed.

(** Distinct values under a map: equal images mean equal elements. *)
Lemma NoDup_fmap_eq {A B} (f : A → B) (l : list A) (a b : A) :
  NoDup (f <$> l) → a ∈ l → b ∈ l → f a = f b → a = b.
Proof.
  induction l as [|c l IH]; [by intros _ ?%elem_of_nil|].
  rewrite fmap_cons, NoDup_cons. intros [Hc Hnd] Ha Hb Hab.
  apply elem_of_cons in Ha as [->|Ha], Hb as [->|Hb]; [done|..|by apply IH].
  - exfalso. apply Hc. rewrite Hab. by apply list_elem_of_fmap_2.
  - exfalso. apply Hc. rewrite <- Hab. by apply list_elem_of_fmap_2.
Qed.

(** C6: [findLigandRings] returns only rings of five or six atoms.  The rings
    are read off paths of distinct atom positions, no two of which have the
    same sorted position list; and when the atoms carry distinct indices, no
    two returned rings have the same sorted list of atom indices. *)
Theorem findLigandRings_five_or_six_distinct (atoms : list AtomData) :
  Forall (λ ring : list AtomData, length ring = 5 ∨ length ring = 6)
         (findLigandRings atoms)
  ∧ (∃ paths : list (list nat),
       Forall2 (Forall2 (λ (a : AtomData) (idx : nat), atoms !! idx = Some a))
               (findLigandRings atoms) paths
       ∧ Forall NoDup paths
       ∧ NoDup (sortPath <$> paths))
  ∧ (NoDup (index <$> atoms) →
     NoDup ((λ ring : list AtomData, sortIndices (index <$> ring))
              <$> findLigandRings atoms)).
Proof.
  destruct atoms as [|a0 rest].
  { split_and!; [constructor | exists []; split_and!; constructor | constructor]. }
  destruct (findLigandRings_paths a0 rest) as (paths & -> & Hpaths & Hkeys).
  set (atoms := a0 :: rest) in *.
  assert (NoDup (sortPath <$> paths)) as Hsorted.
  { unfold pathKey in Hkeys.
    rewrite (list_fmap_compose sortPath join) in Hkeys.
    by apply NoDup_fmap_1 in Hkeys. }
  split_and!.
  - apply Forall_fmap. eapply Forall_impl; [exact Hpaths|].
    intros p (Hlen & _). simpl. by rewrite length_fmap.
  - exists paths. split_and!; [|by eapply Forall_impl; [exact Hpaths|]; intros p (_&_&?)|done].
    apply Forall2_fmap_l, Forall_Forall2_diag.
    eapply Forall_impl; [exact Hpaths|]. intros p (_ & Hrange & _). cbv beta.
    apply Forall2_fmap_l, Forall_Forall2_diag.
    eapply Forall_impl; [exact Hrange|]. intros i Hi. by apply atomAt_lookup.
  - intros Hidx. rewrite <- list_fmap_compose.
    apply NoDup_fmap_2_strong; [|by apply NoDup_fmap_1 in Hsorted].
    intros p1 p2 Hp1 Hp2 Heq. cbv beta in Heq. unfold compose in Heq.
    apply (NoDup_fmap_eq sortPath paths); [done..|].
    apply sortPath_Permutation.
    rewrite Forall_forall in Hpaths.
    destruct (Hpaths p1 Hp1) as (_ & Hr1 & _), (Hpaths p2 Hp2) as (_ & Hr2 & _).
    rewrite Forall_forall in Hr1, Hr2.
    apply (Permutation_fmap_inj_on (λ i, index (atomAt a0 atoms i))).
    + intros i j Hi Hj Hij. cbv beta in Hij.
      apply (NoDup_lookup (index <$> atoms) i j (index (atomAt a0 atoms i)));
        [done|..]; rewrite list_lookup_fmap, (atomAt_lookup a0) by auto;
        unfold fmap, option_fmap, option_map; congruence.
    + rewrite !(list_fmap_compose (atomAt a0 atoms) index).
      unfold sortIndices in Heq.
      rewrite <- (merge_sort_Permutation N.le (index <$> (atomAt a0 atoms <$> p1))).
      rewrite Heq. apply merge_sort_Permutation.
Qed.

(** ** Where an interaction comes from *)

Definition centreOf (grp : list AtomData) : Point3D := getCenter (coords <$> grp).

Definition atomPairCutoff (t : InteractionType) : float :=
  match t with
  | HydrogenBond => THRESHOLDS.HBOND_DIST
  | HalogenBond => THRESHOLDS.HALOGEN_DIST
  | Hydrophobic => THRESHOLDS.HYDROPHOBIC_DIST
  | MetalCoordination => THRESHOLDS.METAL_DIST
  | _ => 0%float
  end.

Section Provenance.
Variable Math_acos : float → float.
Variables lig prot : list AtomData.

(** What the detection loops establish when they record an interaction of
    type [ty] with distance [d] between ligand atom [l] and protein atom
    [p]: the atoms come from the two atom sets, and [d] is the very value
    that was compared with the cut-off.
    - For the four atom-atom types, [d] is the distance between [l] and [p].
    - For a salt bridge, [d] is the distance between [l] and the centre of a
      group of protein atoms whose first atom is [p].
    - For a pi interaction, [d] is measured from the centre of a group of
      protein atoms whose first atom is [p], either to the centre of a
      ligand ring whose first atom is [l], or to [l] itself. *)
Definition acceptedAs (ty : InteractionType) (d : float) (l p : AtomData) : Prop :=
  l ∈ lig ∧ p ∈ prot ∧
  match ty with
  | HydrogenBond | HalogenBond | Hydrophobic | MetalCoordination =>
      d = distance l p ∧ (d <=? atomPairCutoff ty)%float = true
  | SaltBridge =>
      ∃ grp, grp ⊆ prot ∧ head grp = Some p
        ∧ d = distance l (centreOf grp)
        ∧ (d <? THRESHOLDS.SALT_BRIDGE_DIST)%float = true
  | PiStacking =>
      ∃ grp, grp ⊆ prot ∧ head grp = Some p
        ∧ ((∃ ring, ring ∈ findLigandRings lig ∧ head ring = Some l
              ∧ d = distance (centreOf grp) (centreOf ring)
              ∧ ((d <=? THRESHOLDS.PI_STACKING_DIST)%float = true
                 ∨ (d <? THRESHOLDS.PI_CATION_DIST)%float = true))
           ∨ (d = distance l (centreOf grp)
              ∧ (d <? THRESHOLDS.PI_CATION_DIST)%float = true))
  | Unknown => False
  end.

Definition accepted (i : Interaction) : Prop :=
  acceptedAs (Interaction.type i) (Interaction.distance i)
             (Interaction.ligandAtom i) (Interaction.proteinAtom i).

Definition allAccepted (st : Detection) : Prop := Forall accepted (found st).

Lemma push_accepted prefix ty d l p ang st :
  allAccepted st → acceptedAs ty d l p → allAccepted (push prefix ty d l p ang st).
Proof.
  intros Hst Hnew. unfold allAccepted, push. simpl.
  apply Forall_app. split; [done|]. constructor; [exact Hnew | constructor].
Qed.

Lemma head_elem_of {A} (l : list A) (a : A) : head l = Some a → a ∈ l.
Proof. destruct l; intros [= ->]. left. Qed.

Section Group.
(** A group of protein atoms (ring atoms or charged atoms of a residue)
    and a ligand ring. *)
Variable grp : list AtomData.
Hypothesis grp_prot : grp ⊆ prot.

Lemma piStackingStep_accepted pNormal ring st st' :
  ring ∈ findLigandRings lig →
  piStackingStep Math_acos (centreOf grp) pNormal grp st (ringData ring) = Some st' →
  allAccepted st → allAccepted st'.
Proof.
  intros Hring Hstep Hst. unfold piStackingStep in Hstep. simpl in Hstep.
  destruct (_ <=? _)%float eqn:Hd; [|by simplify_eq].
  destruct (_ || _); [|by simplify_eq].
  destruct (head ring) as [l|] eqn:Hl; [|done].
  destruct (head grp) as [p|] eqn:Hp; [|done].
  simpl in Hstep. injection Hstep as <-.
  apply push_accepted; [done|]. split_and!.
  - apply (findLigandRings_atoms lig ring); [done|]. by apply head_elem_of.
  - by apply grp_prot, head_elem_of.
  - exists grp. split_and!; [done..|]. left. exists ring. split_and!; auto.
Qed.

Lemma piCationStep_accepted st st' lAtom :
  lAtom ∈ lig →
  piCationStep (centreOf grp) grp st lAtom = Some st' →
  allAccepted st → allAccepted st'.
Proof.
  intros Hl Hstep Hst. unfold piCationStep in Hstep.
  destruct (_ && _) eqn:Hc; [|by simplify_eq].
  apply andb_true_iff in Hc as [_ Hd].
  destruct (head grp) as [p|] eqn:Hp; [|done].
  simpl in Hstep. injection Hstep as <-.
  apply push_accepted; [done|]. split_and!; [done|by apply grp_prot, head_elem_of|].
  exists grp. split_and!; [done..|]. right. by split.
Qed.

Lemma cationPiStep_accepted ring st st' :
  ring ∈ findLigandRings lig →
  cationPiStep (centreOf grp) grp st (ringData ring) = Some st' →
  allAccepted st → allAccepted st'.
Proof.
  intros Hring Hstep Hst. unfold cationPiStep in Hstep. simpl in Hstep.
  destruct (_ <? _)%float eqn:Hd; [|by simplify_eq].
  destruct (head ring) as [l|] eqn:Hl; [|done].
  destruct (head grp) as [p|] eqn:Hp; [|done].
  simpl in Hstep. injection Hstep as <-.
  apply push_accepted; [done|]. split_and!.
  - apply (findLigandRings_atoms lig ring); [done|]. by apply head_elem_of.
  - by apply grp_prot, head_elem_of.
  - exists grp. split_and!; [done..|]. left. exists ring. split_and!; auto.
Qed.

Lemma saltBridgePosStep_accepted st st' lAtom :
  lAtom ∈ lig →
  saltBridgePosStep (centreOf grp) grp st lAtom = Some st' →
  allAccepted st → allAccepted st'.
Proof.
  intros Hl Hstep Hst. unfold saltBridgePosStep in Hstep.
  destruct (JS.includes _ _); [|by simplify_eq].
  destruct (_ <? _)%float eqn:Hd; [|by simplify_eq].
  destruct (head grp) as [p|] eqn:Hp; [|done].
  simpl in Hstep. injection Hstep as <-.
  apply push_accepted; [done|]. split_and!; [done|by apply grp_prot, head_elem_of|].
  by exists grp.
Qed.

Lemma saltBridgeNegStep_accepted st st' lAtom :
  lAtom ∈ lig →
  saltBridgeNegStep (centreOf grp) grp st lAtom = Some st' →
  allAccepted st → allAccepted st'.
Proof.
  intros Hl Hstep Hst. unfold saltBridgeNegStep in Hstep.
  destruct (isAmine _); [|by simplify_eq].
  destruct (_ <? _)%float eqn:Hd; [|by simplify_eq].
  destruct (head grp) as [p|] eqn:Hp; [|done].
  simpl in Hstep. injection Hstep as <-.
  apply push_accepted; [done|]. split_and!; [done|by apply grp_prot, head_elem_of|].
  by exists grp.
Qed.
End Group.

Lemma filter_subseteq_trans {A} (P : A → Prop) `{∀ a, Decision (P a)}
    (l k : list A) : l ⊆ k → filter P l ⊆ k.
Proof. intros Hl a [_ Ha]%list_elem_of_filter. by apply Hl. Qed.

Lemma ringData_elem lRing :
  lRing ∈ ringData <$> findLigandRings lig →
  ∃ ring, lRing = ringData ring ∧ ring ∈ findLigandRings lig.
Proof. by intros (ring & -> & ?)%list_elem_of_fmap; exists ring. Qed.

Section Residue.
Variable resAtoms : list AtomData.
Hypothesis resAtoms_prot : resAtoms ⊆ prot.
Let ligandRingData := ringData <$> findLigandRings lig.

Lemma aromaticBlock_accepted resName st st' :
  aromaticBlock Math_acos lig ligandRingData resName resAtoms st = Some st' →
  allAccepted st → allAccepted st'.
Proof.
  unfold aromaticBlock. intros Hrun Hst.
  destruct (JS.get _ _) as [aromDef| |]; [|done|by simplify_eq].
  destruct (3 <=? _); [|by simplify_eq].
  set (ringAtoms := filter _ resAtoms) in *.
  assert (ringAtoms ⊆ prot) as Hsub by by apply filter_subseteq_trans.
  destruct (forEachM _ ligandRingData st) as [st1|] eqn:H1; [|done].
  simpl in Hrun.
  eapply (forEachM_invariant allAccepted); [| |exact Hrun].
  - eapply (forEachM_invariant allAccepted); [exact Hst| |exact H1].
    intros s lRing s' (ring & -> & Hring)%ringData_elem Hs Hstep.
    by eapply (piStackingStep_accepted ringAtoms).
  - intros s lAtom s' Hl Hs Hstep.
    by eapply (piCationStep_accepted ringAtoms).
Qed.

Lemma positiveBlock_accepted resName st st' :
  positiveBlock lig ligandRingData resName resAtoms st = Some st' →
  allAccepted st → allAccepted st'.
Proof.
  unfold positiveBlock. intros Hrun Hst.
  destruct (JS.get _ _) as [posDef| |]; [|done|by simplify_eq].
  destruct (0 <? _); [|by simplify_eq].
  set (posAtoms := filter _ resAtoms) in *.
  assert (posAtoms ⊆ prot) as Hsub by by apply filter_subseteq_trans.
  destruct (forEachM _ ligandRingData st) as [st1|] eqn:H1; [|done].
  simpl in Hrun.
  eapply (forEachM_invariant allAccepted); [| |exact Hrun].
  - eapply (forEachM_invariant allAccepted); [exact Hst| |exact H1].
    intros s lRing s' (ring & -> & Hring)%ringData_elem Hs Hstep.
    by eapply (cationPiStep_accepted posAtoms).
  - intros s lAtom s' Hl Hs Hstep.
    by eapply (saltBridgePosStep_accepted posAtoms).
Qed.

Lemma negativeBlock_accepted resName st st' :
  negativeBlock lig resName resAtoms st = Some st' →
  allAccepted st → allAccepted st'.
Proof.
  unfold negativeBlock. intros Hrun Hst.
  destruct (JS.get _ _) as [negDef| |]; [|done|by simplify_eq].
  destruct (0 <? _); [|by simplify_eq].
  set (negAtoms := filter _ resAtoms) in *.
  assert (negAtoms ⊆ prot) as Hsub by by apply filter_subseteq_trans.
  eapply (forEachM_invariant allAccepted); [exact Hst| |exact Hrun].
  intros s lAtom s' Hl Hs Hstep.
  by eapply (saltBridgeNegStep_accepted negAtoms).
Qed.

Lemma residueStep_accepted st st' :
  residueStep Math_acos lig ligandRingData st resAtoms = Some st' →
  allAccepted st → allAccepted st'.
Proof.
  unfold residueStep. intros Hrun Hst.
  destruct (head resAtoms) as [first|]; [|done]. simpl in Hrun.
  destruct (aromaticBlock _ _ _ _ _ _) as [st1|] eqn:H1; [|done].
  simpl in Hrun.
  destruct (positiveBlock _ _ _ _ _) as [st2|] eqn:H2; [|done].
  simpl in Hrun.
  eauto using aromaticBlock_accepted, positiveBlock_accepted,
    negativeBlock_accepted.
Qed.
End Residue.

(** Atom-atom tests. *)
Lemma atomPairStep_accepted lAtom pAtom st :
  lAtom ∈ lig → pAtom ∈ prot →
  allAccepted st → allAccepted (atomPairStep lAtom st pAtom).
Proof.
  intros Hl Hp Hst. unfold atomPairStep.
  destruct (_ <? _)%float; [done|].
  unfold metalTest, hydrophobicTest, halogenBondTest, hydrogenBondTest.
  repeat match goal with
  | |- allAccepted (if ?c then _ else _) => destruct c eqn:?
  | |- allAccepted (push _ _ _ _ _ _ _) => apply push_accepted
  | |- acceptedAs _ _ _ _ => by split_and!
  end; done.
Qed.

Lemma atomPairs_accepted st :
  allAccepted st → allAccepted (atomPairs lig prot st).
Proof.
  intros Hst. unfold atomPairs.
  apply fold_left_invariant; [done|]. intros s lAtom Hl Hs.
  apply fold_left_invariant; [done|]. intros s' pAtom Hp Hs'.
  by apply atomPairStep_accepted.
Qed.

(** Residue groups hold protein atoms. *)
Lemma elem_of_OMap_values_set {V} k (v : V) m x :
  x ∈ OMap.values (OMap.set k v m) → x = v ∨ x ∈ OMap.values m.
Proof.
  rewrite !OMap_values_elem. intros [k' [[= -> ->]|?]%elem_of_OMap_set]; eauto.
Qed.

Lemma groupStep_subseteq groups a :
  a ∈ prot → Forall (λ grp, grp ⊆ prot) (OMap.values groups) →
  Forall (λ grp, grp ⊆ prot) (OMap.values (groupStep groups a)).
Proof.
  intros Ha Hg. rewrite Forall_forall in Hg. apply Forall_forall.
  unfold groupStep. destruct (OMap.get _ _) as [grp|] eqn:Hget;
    intros x [->|Hx]%elem_of_OMap_values_set; auto.
  - intros b [Hb| ->%list_elem_of_singleton]%elem_of_app; [|done].
    revert b Hb. apply Hg. apply OMap_values_elem. eexists.
    by apply OMap_get_Some_elem.
  - by intros b ->%list_elem_of_singleton.
Qed.

Lemma groups_subseteq :
  Forall (λ grp, grp ⊆ prot) (OMap.values (fold_left groupStep prot [])).
Proof.
  apply (fold_left_invariant
           (λ groups, Forall (λ grp, grp ⊆ prot) (OMap.values groups))).
  - constructor.
  - intros. by apply groupStep_subseteq.
Qed.

Lemma detectInteractions_accepted cs :
  detectInteractions Math_acos lig prot = Some cs → Forall accepted cs.
Proof.
  unfold detectInteractions. intros Hrun.
  destruct (forEachM _ _ _) as [st|] eqn:Hres; [|done].
  simpl in Hrun. injection Hrun as <-.
  apply atomPairs_accepted.
  eapply (forEachM_invariant allAccepted); [| |exact Hres];
    [apply Forall_nil_2|].
  intros s resAtoms s' Hin Hs Hstep.
  eapply residueStep_accepted; [|done..].
  pose proof groups_subseteq as Hg. rewrite Forall_forall in Hg. by apply Hg.
Qed.
End Provenance.

(** ** Atom extraction partitions the structure *)

Definition isProteinAtom (ligandResidue : ResidueOption) (ap : NGL.AtomProxy) : bool :=
  negb (isLigand ligandResidue ap) && negb (NGL.ap_isHetero ap).

Lemma extractStep_fold lig l la pa :
  fold_left (extractStep lig) l (la, pa) =
  (la ++ (parseNGLAtom <$> filter (isLigand lig) l),
   pa ++ (parseNGLAtom <$> filter (isProteinAtom lig) l)).
Proof.
  revert la pa. induction l as [|ap l IH]; intros la pa.
  { simpl. by rewrite !app_nil_r. }
  cbn [fold_left].
  destruct (isLigand lig ap) eqn:Hl; [|destruct (NGL.ap_isHetero ap) eqn:Hh].
  - replace (extractStep lig (la, pa) ap) with (la ++ [parseNGLAtom ap], pa)
      by (unfold extractStep; by rewrite Hl).
    rewrite IH, filter_cons_True, filter_cons_False.
    + by rewrite fmap_cons, <- (assoc_L (++) la).
    + unfold isProteinAtom. rewrite Hl. simpl. tauto.
    + rewrite Hl. simpl. tauto.
  - replace (extractStep lig (la, pa) ap) with (la, pa)
      by (unfold extractStep; by rewrite Hl, Hh).
    rewrite IH, !filter_cons_False; [done|..].
    + unfold isProteinAtom. rewrite Hl, Hh. simpl. tauto.
    + rewrite Hl. simpl. tauto.
  - replace (extractStep lig (la, pa) ap) with (la, pa ++ [parseNGLAtom ap])
      by (unfold extractStep; by rewrite Hl, Hh).
    rewrite IH, filter_cons_False, filter_cons_True.
    + by rewrite fmap_cons, <- (assoc_L (++) pa).
    + unfold isProteinAtom. rewrite Hl, Hh. simpl. tauto.
    + rewrite Hl. simpl. tauto.
Qed.

Lemma extractAtoms_spec structure lig :
  extractAtoms structure lig =
  (parseNGLAtom <$> filter (isLigand lig) (NGL.atoms structure),
   parseNGLAtom <$> filter (isProteinAtom lig) (NGL.atoms structure)).
Proof. unfold extractAtoms, NGL.eachAtom. by rewrite extractStep_fold. Qed.

(** With distinct atom indices in the structure, no ligand atom shares its
    index with a protein atom. *)
Lemma extractAtoms_disjoint structure lig la pa a b :
  NoDup (NGL.ap_index <$> NGL.atoms structure) →
  extractAtoms structure lig = (la, pa) →
  a ∈ la → b ∈ pa → index a ≠ index b.
Proof.
  rewrite extractAtoms_spec. intros Hnd [= <- <-].
  intros (ap1 & -> & [Hl1 Hin1]%list_elem_of_filter)%list_elem_of_fmap.
  intros (ap2 & -> & [Hl2 Hin2]%list_elem_of_filter)%list_elem_of_fmap.
  simpl. intros Heq.
  assert (ap1 = ap2) as -> by by eapply NoDup_fmap_eq.
  unfold isProteinAtom in Hl2. destruct (isLigand lig ap2); done.
Qed.

Lemma coarseFilter_subseteq centre pa : coarseFilter centre pa ⊆ pa.
Proof. intros a [_ Ha]%list_elem_of_filter. done. Qed.

(** Every interaction of the result was recorded by one of the detection
    loops, from the extracted ligand atoms and the protein atoms that passed
    the coarse filter. *)
Lemma analyzeInteractions_accepted Math_acos structure lig r la pa :
  extractAtoms structure lig = (la, pa) →
  analyzeInteractions Math_acos structure lig = Some r →
  Forall (accepted la (coarseFilter (centreOf la) pa)) (interactions r)
  ∧ NoDup (pairKey <$> interactions r).
Proof.
  intros Hex. unfold analyzeInteractions. rewrite Hex.
  destruct (length la =? 0).
  { intros [= <-]. split; constructor. }
  fold (centreOf la).
  destruct (detectInteractions _ _ _) as [cs|] eqn:Hcs; [|done].
  simpl. intros [= <-]. simpl. split; [|apply deduplicate_NoDup].
  apply detectInteractions_accepted in Hcs.
  rewrite Forall_forall in Hcs. apply Forall_forall.
  intros i Hi%deduplicate_subset. by apply Hcs.
Qed.

(** Without any assumption on the structure, two entries of the result at
    different positions differ in their ligand atom index or in their protein
    atom index. *)
Lemma analyzeInteractions_one_per_ordered_pair Math_acos structure lig r m n i j :
  analyzeInteractions Math_acos structure lig = Some r →
  interactions r !! m = Some i → interactions r !! n = Some j → m ≠ n →
  ¬ (index (Interaction.ligandAtom i) = index (Interaction.ligandAtom j)
     ∧ index (Interaction.proteinAtom i) = index (Interaction.proteinAtom j)).
Proof.
  intros Hrun Hm Hn Hmn Hsame%pairKey_inj.
  destruct (extractAtoms structure lig) as [la pa] eqn:Hex.
  destruct (analyzeInteractions_accepted _ _ _ _ _ _ Hex Hrun) as [_ Hnd].
  apply Hmn. eapply (NoDup_lookup _ m n (pairKey i)); [exact Hnd|..].
  - by rewrite list_lookup_fmap, Hm.
  - rewrite list_lookup_fmap, Hn. simpl. by rewrite Hsame.
Qed.

(** Two interactions are recorded for the same unordered pair of atom
    indices. *)
Definition samePair (i j : Interaction) : Prop :=
  let li := index (Interaction.ligandAtom i) in
  let pi := index (Interaction.proteinAtom i) in
  let lj := index (Interaction.ligandAtom j) in
  let pj := index (Interaction.proteinAtom j) in
  (li = lj ∧ pi = pj) ∨ (li = pj ∧ pi = lj).

(** C2: in the list returned by [analyzeInteractions], two entries at
    different positions never stand for the same unordered pair (ligand atom
    index, protein atom index).  Atom indices are unique within the structure,
    as the structure provider guarantees. *)
Theorem analyzeInteractions_one_per_pair (Math_acos : float → float)
    (structure : NGL.Structure) (ligandResidue : ResidueOption)
    (r : AnalysisResult) (m n : nat) (i j : Interaction) :
  NoDup (NGL.ap_index <$> NGL.atoms structure) →
  analyzeInteractions Math_acos structure ligandResidue = Some r →
  interactions r !! m = Some i →
  interactions r !! n = Some j →
  m ≠ n →
  ¬ samePair i j.
Proof.
  intros Hidx Hrun Hm Hn Hmn.
  destruct (extractAtoms structure ligandResidue) as [la pa] eqn:Hex.
  destruct (analyzeInteractions_accepted _ _ _ _ _ _ Hex Hrun) as [Hacc Hnd].
  rewrite Forall_forall in Hacc.
  pose proof (Hacc i (list_elem_of_lookup_2 _ _ _ Hm)) as (Hli & Hpi & _).
  pose proof (Hacc j (list_elem_of_lookup_2 _ _ _ Hn)) as (Hlj & Hpj & _).
  intros [[Hl Hp]|[Hl Hp]].
  - by apply (analyzeInteractions_one_per_ordered_pair
                 Math_acos structure ligandResidue r m n i j).
  - eapply (extractAtoms_disjoint _ _ _ _ _ _ Hidx Hex Hli); [|exact Hl].
    by eapply coarseFilter_subseteq.
Qed.

(** ** The analysis returns

    The only way for the analysis to throw is a protein residue whose name is
    a member of [Object.prototype]: the three table reads then yield a value
    that has no [includes].  For every other structure the analysis returns a
    result. *)

Lemma forEachM_is_Some {A S} (f : S → A → option S) (l : list A) (s : S) :
  (∀ s a, a ∈ l → is_Some (f s a)) → is_Some (forEachM f l s).
Proof.
  revert s. induction l as [|a l IH]; intros s Hf; simpl; [by eexists|].
  destruct (Hf s a) as [s' ->]; [left|]. simpl.
  apply IH. intros s0 b Hb. apply Hf. by right.
Qed.

Lemma JS_get_not_Inherited {A} (table : list (string * A)) (key : string) :
  key ∉ JS.Object_prototype_keys → JS.get table key ≠ JS.Inherited.
Proof.
  intros Hkey. unfold JS.get.
  destruct (list_find _ table) as [[? [? ?]]|]; [done|].
  unfold JS.includes. by rewrite bool_decide_eq_false_2.
Qed.

Lemma head_is_Some {A} (l : list A) : 0 < length l → is_Some (head l).
Proof. destruct l; simpl; [lia | by eexists]. Qed.

Section Returns.
Variable Math_acos : float → float.
Variable lig : list AtomData.
Let ligandRingData := ringData <$> findLigandRings lig.

Lemma ligandRingData_head lRing :
  lRing ∈ ligandRingData → is_Some (head (LigandRing.atoms lRing)).
Proof.
  intros (ring & -> & Hring)%list_elem_of_fmap. simpl.
  apply findLigandRings_atoms in Hring as [_ Hlen].
  apply head_is_Some. lia.
Qed.

(** Each of the five tests returns once the group of protein atoms is not
    empty. *)
Ltac step_returns :=
  repeat match goal with
  | |- is_Some (if ?c then _ else _) => destruct c
  | |- is_Some (Some _) => by eexists
  | H : is_Some ?o |- context [?o] => destruct H as [? ->]; simpl
  end.

Lemma piStackingStep_returns pCenter pNormal grp st lRing :
  is_Some (head grp) → lRing ∈ ligandRingData →
  is_Some (piStackingStep Math_acos pCenter pNormal grp st lRing).
Proof.
  intros Hg Hl%ligandRingData_head. unfold piStackingStep. step_returns.
Qed.

Lemma piCationStep_returns pCenter grp st lAtom :
  is_Some (head grp) → is_Some (piCationStep pCenter grp st lAtom).
Proof. intros Hg. unfold piCationStep. step_returns. Qed.

Lemma cationPiStep_returns pCenter grp st lRing :
  is_Some (head grp) → lRing ∈ ligandRingData →
  is_Some (cationPiStep pCenter grp st lRing).
Proof.
  intros Hg Hl%ligandRingData_head. unfold cationPiStep. step_returns.
Qed.

Lemma saltBridgePosStep_returns pCenter grp st lAtom :
  is_Some (head grp) → is_Some (saltBridgePosStep pCenter grp st lAtom).
Proof. intros Hg. unfold saltBridgePosStep. step_returns. Qed.

Lemma saltBridgeNegStep_returns pCenter grp st lAtom :
  is_Some (head grp) → is_Some (saltBridgeNegStep pCenter grp st lAtom).
Proof. intros Hg. unfold saltBridgeNegStep. step_returns. Qed.

Lemma residueStep_returns st resAtoms first :
  head resAtoms = Some first →
  resName first ∉ JS.Object_prototype_keys →
  is_Some (residueStep Math_acos lig ligandRingData st resAtoms).
Proof.
  intros Hfirst Hname. unfold residueStep. rewrite Hfirst. simpl.
  assert (∀ st, is_Some (aromaticBlock Math_acos lig ligandRingData
                           (resName first) resAtoms st)) as Harom.
  { intros s. unfold aromaticBlock.
    pose proof (JS_get_not_Inherited ATOM_PROPS.AROMATIC_PLANES _ Hname).
    destruct (JS.get _ _) as [aromDef| |]; [|done|by eexists].
    destruct (3 <=? _) eqn:Hlen; [|by eexists]. apply Nat.leb_le in Hlen.
    set (ringAtoms := filter _ resAtoms) in *.
    assert (is_Some (head ringAtoms)) as Hhead by (apply head_is_Some; lia).
    destruct (forEachM_is_Some
                (piStackingStep Math_acos (getCenter (coords <$> ringAtoms))
                   (getPlaneNormal (coords <$> ringAtoms)) ringAtoms)
                ligandRingData s) as [s1 ->].
    { intros. by apply piStackingStep_returns. }
    simpl. apply forEachM_is_Some.
    intros. by apply piCationStep_returns. }
  assert (∀ st, is_Some (positiveBlock lig ligandRingData
                           (resName first) resAtoms st)) as Hpos.
  { intros s. unfold positiveBlock.
    pose proof (JS_get_not_Inherited ATOM_PROPS.POS_CHARGE_ATOMS _ Hname).
    destruct (JS.get _ _) as [posDef| |]; [|done|by eexists].
    destruct (0 <? _) eqn:Hlen; [|by eexists]. apply Nat.ltb_lt in Hlen.
    set (posAtoms := filter _ resAtoms) in *.
    assert (is_Some (head posAtoms)) as Hhead by (by apply head_is_Some).
    destruct (forEachM_is_Some
                (cationPiStep (getCenter (coords <$> posAtoms)) posAtoms)
                ligandRingData s) as [s1 ->].
    { intros. by apply cationPiStep_returns. }
    simpl. apply forEachM_is_Some.
    intros. by apply saltBridgePosStep_returns. }
  assert (∀ st, is_Some (negativeBlock lig (resName first) resAtoms st)) as Hneg.
  { intros s. unfold negativeBlock.
    pose proof (JS_get_not_Inherited ATOM_PROPS.NEG_CHARGE_ATOMS _ Hname).
    destruct (JS.get _ _) as [negDef| |]; [|done|by eexists].
    destruct (0 <? _) eqn:Hlen; [|by eexists]. apply Nat.ltb_lt in Hlen.
    set (negAtoms := filter _ resAtoms) in *.
    apply forEachM_is_Some.
    intros. apply saltBridgeNegStep_returns. by apply head_is_Some. }
  destruct (Harom st) as [s1 ->]. simpl.
  destruct (Hpos s1) as [s2 ->]. simpl.
  apply Hneg.
Qed.
End Returns.

(** Residue groups are never empty and hold atoms of the grouped list. *)
Lemma groups_heads (prot : list AtomData) (grp : list AtomData) :
  grp ∈ OMap.values (fold_left groupStep prot []) →
  ∃ first, head grp = Some first ∧ first ∈ prot.
Proof.
  intros Hgrp.
  assert (Forall (λ g : list AtomData, 0 < length g)
            (OMap.values (fold_left groupStep prot []))) as Hne.
  { apply (fold_left_invariant
             (λ groups, Forall (λ g : list AtomData, 0 < length g) (OMap.values groups))).
    - constructor.
    - intros groups a _ Hg. rewrite Forall_forall in Hg. apply Forall_forall.
      unfold groupStep. destruct (OMap.get _ _) as [g|];
        intros x [->|Hx]%elem_of_OMap_values_set; auto;
        rewrite ?length_app; simpl; lia. }
  rewrite Forall_forall in Hne. specialize (Hne grp Hgrp).
  destruct (head_is_Some grp Hne) as [first Hfirst].
  exists first. split; [done|].
  pose proof (groups_subseteq prot) as Hsub. rewrite Forall_forall in Hsub.
  by apply (Hsub grp Hgrp), head_elem_of.
Qed.

(** The analysis returns a result for every structure in which no protein
    atom belongs to a residue named like a member of [Object.prototype]. *)
Theorem analyzeInteractions_returns (Math_acos : float → float)
    (structure : NGL.Structure) (ligandResidue : ResidueOption) :
  (∀ ap, ap ∈ NGL.atoms structure →
         NGL.ap_resname ap ∉ JS.Object_prototype_keys) →
  is_Some (analyzeInteractions Math_acos structure ligandResidue).
Proof.
  intros Hnames. unfold analyzeInteractions.
  destruct (extractAtoms structure ligandResidue) as [la pa] eqn:Hex.
  destruct (length la =? 0); [by eexists|].
  assert (is_Some (detectInteractions Math_acos la
                     (coarseFilter (getCenter (coords <$> la)) pa))) as [cs ->];
    [|by eexists].
  unfold detectInteractions.
  set (prot := coarseFilter _ pa).
  destruct (forEachM_is_Some
              (residueStep Math_acos la (ringData <$> findLigandRings la))
              (OMap.values (fold_left groupStep prot []))
              {| found := []; idCounter := 0 |}) as [st ->]; [|by eexists].
  intros s grp (first & Hfirst & Hin)%groups_heads.
  eapply residueStep_returns; [exact Hfirst|].
  apply coarseFilter_subseteq in Hin.
  rewrite extractAtoms_spec in Hex. injection Hex as _ <-.
  apply list_elem_of_fmap in Hin as (ap & -> & [_ Hap]%list_elem_of_filter).
  by apply Hnames.
Qed.

(** ** Candidates and survivors *)

(** The raw [interactions] array as it stands when deduplication starts. *)
Definition candidates (Math_acos : float → float) (structure : NGL.Structure)
    (ligandResidue : ResidueOption) : option (list Interaction) :=
  let '(ligandAtoms, proteinAtoms) := extractAtoms structure ligandResidue in
  if length ligandAtoms =? 0 then Some []
  else detectInteractions Math_acos ligandAtoms
         (coarseFilter (centreOf ligandAtoms) proteinAtoms).

Lemma analyzeInteractions_deduplicate Math_acos structure lig r :
  analyzeInteractions Math_acos structure lig = Some r →
  ∃ cs, candidates Math_acos structure lig = Some cs
        ∧ interactions r = deduplicate cs.
Proof.
  unfold analyzeInteractions, candidates.
  destruct (extractAtoms structure lig) as [la pa].
  destruct (length la =? 0).
  { intros [= <-]. by exists []. }
  fold (centreOf la).
  destruct (detectInteractions _ _ _) as [cs|]; [|done].
  simpl. intros [= <-]. by exists cs.
Qed.

(** Two interactions join the same ligand atom index with the same protein
    atom index. *)
Definition samePairOrdered (i j : Interaction) : Prop :=
  index (Interaction.ligandAtom i) = index (Interaction.ligandAtom j)
  ∧ index (Interaction.proteinAtom i) = index (Interaction.proteinAtom j).

Global Instance samePairOrdered_dec i j : Decision (samePairOrdered i j).
Proof. unfold samePairOrdered. apply _. Defined.

Lemma filter_samePairOrdered (c : Interaction) (l : list Interaction) :
  filter (λ i, samePairOrdered i c) l = filter (λ i, pairKey i = pairKey c) l.
Proof.
  apply list_filter_iff. intros i. symmetry. apply pairKey_inj.
Qed.

(** The ranking used by deduplication. *)
Lemma typeScore_order :
  typeScore SaltBridge > typeScore PiStacking
  ∧ typeScore PiStacking > typeScore HydrogenBond
  ∧ typeScore HydrogenBond > typeScore Hydrophobic
  ∧ typeScore Hydrophobic = typeScore HalogenBond
  ∧ typeScore HalogenBond = typeScore MetalCoordination
  ∧ typeScore MetalCoordination = typeScore Unknown.
Proof. simpl. lia. Qed.

Lemma typeScore_SaltBridge t : 4 ≤ typeScore t → t = SaltBridge.
Proof. destruct t; simpl; (done || lia). Qed.

(** C3: for every candidate, the result keeps exactly one interaction for
    that candidate's pair of atom indices; it is one of the candidates for
    the pair and no candidate for the pair ranks higher, under
    SaltBridge > PiStacking > HydrogenBond > all others (equal).  In
    particular, with a SaltBridge candidate for the pair the survivor is a
    SaltBridge, whatever HydrogenBond candidates the pair has. *)
Theorem deduplication_keeps_highest_priority (Math_acos : float → float)
    (structure : NGL.Structure) (ligandResidue : ResidueOption)
    (r : AnalysisResult) (cs : list Interaction) (c : Interaction) :
  analyzeInteractions Math_acos structure ligandResidue = Some r →
  candidates Math_acos structure ligandResidue = Some cs →
  c ∈ cs →
  ∃ w,
    filter (λ i, samePairOrdered i c) (interactions r) = [w]
    ∧ w ∈ cs
    ∧ (∀ c', c' ∈ cs → samePairOrdered c' c →
         typeScore (Interaction.type c') ≤ typeScore (Interaction.type w))
    ∧ (typeScore SaltBridge > typeScore PiStacking
       ∧ typeScore PiStacking > typeScore HydrogenBond
       ∧ typeScore HydrogenBond > typeScore Hydrophobic
       ∧ typeScore Hydrophobic = typeScore HalogenBond
       ∧ typeScore HalogenBond = typeScore MetalCoordination)
    ∧ (∀ sb, sb ∈ cs → samePairOrdered sb c →
         Interaction.type sb = SaltBridge →
         Interaction.type w = SaltBridge).
Proof.
  intros Hrun Hcs Hc.
  destruct (analyzeInteractions_deduplicate _ _ _ _ Hrun) as (cs' & Hcs' & ->).
  rewrite Hcs in Hcs'. injection Hcs' as <-.
  destruct (deduplicate_covers cs c Hc) as (w & Hw & Hkey).
  destruct (deduplicate_survivor cs w Hw) as (pre & post & Hsplit & Hpre & Hpost).
  assert (∀ c', c' ∈ cs → samePairOrdered c' c →
            typeScore (Interaction.type c') ≤ typeScore (Interaction.type w)) as Hmax.
  { intros c' Hc' Hsame%pairKey_inj. rewrite <- Hkey in Hsame.
    rewrite Forall_forall in Hpre, Hpost. rewrite Hsplit in Hc'.
    apply elem_of_app in Hc' as [Hc'|[->|Hc']%elem_of_cons].
    - specialize (Hpre c' Hc' Hsame). unfold score in Hpre. lia.
    - done.
    - apply (Hpost c' Hc' Hsame). }
  exists w. split; [|split; [|split; [|split]]].
  - rewrite filter_samePairOrdered, <- Hkey.
    apply (filter_key_singleton pairKey); [apply deduplicate_NoDup | done].
  - by apply deduplicate_subset.
  - done.
  - pose proof typeScore_order. tauto.
  - intros sb Hsb Hsame Hty. apply typeScore_SaltBridge.
    specialize (Hmax sb Hsb Hsame). by rewrite Hty in Hmax.
Qed.

(** ** Degenerate plane normals in the pi-stacking test *)

Lemma angleBetween_degenerate Math_acos (v1 v2 : Vector3) :
  JS.strict_eq (mag v1) 0 = true ∨ JS.strict_eq (mag v2) 0 = true →
  angleBetween Math_acos v1 v2 = 0%float.
Proof.
  intros Hz. unfold angleBetween.
  destruct Hz as [-> | ->]; [done | by rewrite orb_true_r].
Qed.

(** C4 (as the code has it): for a protein ring and a ligand ring whose
    centres are within the pi-stacking distance, if either plane normal has
    magnitude zero (in particular, if it is the zero vector that
    [getPlaneNormal] yields for collinear points), the angle is 0, the
    parallel test [angle < 30] holds, and the PiStacking interaction is
    recorded with angle 0 between the two representative atoms. *)
Theorem degenerate_normal_counts_as_parallel (Math_acos : float → float)
    (pCenter : Point3D) (pNormal : Vector3) (ringAtoms : list AtomData)
    (st : Detection) (lRing : LigandRing.t) (lAtom pAtom : AtomData) :
  (distance pCenter (LigandRing.center lRing) <=? THRESHOLDS.PI_STACKING_DIST)%float = true →
  JS.strict_eq (mag pNormal) 0 = true
    ∨ JS.strict_eq (mag (LigandRing.normal lRing)) 0 = true →
  head (LigandRing.atoms lRing) = Some lAtom →
  head ringAtoms = Some pAtom →
  angleBetween Math_acos pNormal (LigandRing.normal lRing) = 0%float
  ∧ piStackingStep Math_acos pCenter pNormal ringAtoms st lRing =
    Some (push "pi" PiStacking (distance pCenter (LigandRing.center lRing))
               lAtom pAtom (Some 0%float) st).
Proof.
  intros Hd Hz Hl Hp.
  pose proof (angleBetween_degenerate Math_acos _ _ Hz) as Hangle.
  split; [done|].
  unfold piStackingStep. rewrite Hd, Hangle, Hl, Hp. reflexivity.
Qed.

(** ** The worked inputs, evaluated *)

(** None of the worked inputs reaches [Math.acos]: the results hold for
    every host. *)
Section Examples.
Variable Math_acos : float → float.

Example hexagon_one_ring :
  map (map index) (findLigandRings (parseNGLAtom <$> hexagon))
  = [[0; 1; 2; 3; 4; 5]%N].
Proof. vm_compute. reflexivity. Qed.

Example argStructure_candidates :
  candidates Math_acos argStructure LIG1 = Some [arg_sb0; arg_hb1; arg_hb2].
Proof. vm_compute. reflexivity. Qed.

Example argStructure_result :
  analyzeInteractions Math_acos argStructure LIG1 =
  Some {| interactions := [arg_sb0; arg_hb2];
          ligandCenter := {| x := 1; y := 0; z := 3 |} |}.
Proof. vm_compute. reflexivity. Qed.

Example collinearPhe_result :
  interactions <$> analyzeInteractions Math_acos collinearPheStructure LIG1
  = Some [phe_pi0].
Proof. vm_compute. reflexivity. Qed.

Example longLigand_result :
  analyzeInteractions Math_acos longLigandStructure LIG1 =
  Some {| interactions := []; ligandCenter := {| x := 20; y := 0; z := 0 |} |}.
Proof. vm_compute. reflexivity. Qed.

Example oddName_throws :
  analyzeInteractions Math_acos oddNameStructure LIG1 = None.
Proof. vm_compute. reflexivity. Qed.

Example longLigand_unfiltered_result :
  analyzeInteractions_unfiltered Math_acos longLigandStructure LIG1 =
  Some {| interactions := [long_hb0];
          ligandCenter := {| x := 20; y := 0; z := 0 |} |}.
Proof. vm_compute. reflexivity. Qed.
End Examples.

Example findResidueByName_trims_query :
  findResidueByName JS.toUpperCase JS.trim argStructure "  lig " =
  Some {| ResidueOption.resName := "LIG"; ResidueOption.resNo := 1;
          ResidueOption.chain := "L"; ResidueOption.atomCount := 1 |}
  ∧ findResidueByName JS.toUpperCase JS.trim argStructure ("lig" +:+ nbsp) =
    Some {| ResidueOption.resName := "LIG"; ResidueOption.resNo := 1;
            ResidueOption.chain := "L"; ResidueOption.atomCount := 1 |}
  ∧ findResidueByName JS.toUpperCase JS.trim argStructure "HOH" = None.
Proof. split_and!; vm_compute; reflexivity. Qed.

(** ** The coarse filter against a ligand that reaches far from its centre *)

(** C1: the coarse filter measures from the ligand centre, not from the
    ligand atoms.  For the long ligand, the backbone nitrogen lies 3 from the
    ligand oxygen, within the hydrogen-bond distance, and more than 18 from
    the ligand centre: the analysis returns no interaction, and the same
    analysis without the filter returns the hydrogen bond. *)
Theorem coarse_filter_drops_hydrogen_bond (Math_acos : float → float) :
  let centre := centreOf (parseNGLAtom <$> [long_O1; long_C2]) in
  (18.0 <=? distance (parseNGLAtom gly_N) centre)%float = true
  ∧ (distance (parseNGLAtom long_O1) (parseNGLAtom gly_N)
       <=? THRESHOLDS.HBOND_DIST)%float = true
  ∧ interactions <$> analyzeInteractions Math_acos longLigandStructure LIG1
    = Some []
  ∧ interactions <$> analyzeInteractions_unfiltered Math_acos longLigandStructure LIG1
    = Some [long_hb0].
Proof. cbv zeta. split_and!; vm_compute; reflexivity. Qed.

(** ** Counterexamples *)

(** The three ring atoms of the phenylalanine are collinear, so the plane
    normal is the zero vector; the two ring centres are within the
    pi-stacking distance; and the analysis returns a PiStacking interaction
    for the ring pair. *)
Lemma degenerate_normal_counterexample :
  let ringAtoms := parseNGLAtom <$> [phe_CG; phe_CD1; phe_CD2] in
  let ring := parseNGLAtom <$> hexagon in
  getPlaneNormal (coords <$> ringAtoms) = zeroVector
  ∧ (distance (centreOf ringAtoms) (centreOf ring)
       <=? THRESHOLDS.PI_STACKING_DIST)%float = true
  ∧ ¬ (∀ (Math_acos : float → float) (r : AnalysisResult),
         analyzeInteractions Math_acos collinearPheStructure LIG1 = Some r →
         ∀ i, i ∈ interactions r → Interaction.type i ≠ PiStacking).
Proof.
  cbv zeta. split_and!; [vm_compute; reflexivity..|].
  intros H.
  destruct (analyzeInteractions (λ _, nan) collinearPheStructure LIG1)
    as [r|] eqn:Hr; [|by vm_compute in Hr].
  pose proof (collinearPhe_result (λ _, nan)) as Hres.
  rewrite Hr in Hres. simpl in Hres. injection Hres as Hres.
  apply (H _ r Hr phe_pi0); [|done].
  rewrite Hres. left.
Qed.

(** The salt bridge of the arginine example stores the distance 3 from the
    ligand oxygen to the centre of the two nitrogens, while the stored atoms
    NH1 and O1 are [sqrt 10] apart. *)
Lemma stored_distance_counterexample :
  ¬ (∀ (Math_acos : float → float) (r : AnalysisResult) (i : Interaction),
       analyzeInteractions Math_acos argStructure LIG1 = Some r →
       i ∈ interactions r →
       withinTolerance (Interaction.distance i)
         (distance (Interaction.ligandAtom i) (Interaction.proteinAtom i)) = true).
Proof.
  intros H.
  specialize (H (λ _, nan) _ arg_sb0 (argStructure_result _)).
  assert (withinTolerance (Interaction.distance arg_sb0)
            (distance (Interaction.ligandAtom arg_sb0)
                      (Interaction.proteinAtom arg_sb0)) = false) as Hfar
    by (vm_compute; reflexivity).
  rewrite H in Hfar; [done|]. simpl. left.
Qed.

(** ** Witnesses: the theorems at the worked inputs *)

Lemma analyzeInteractions_no_ligand_witness :
  analyzeInteractions (λ _, nan) apoStructure LIG1 =
  Some {| interactions := []; ligandCenter := {| x := 0; y := 0; z := 0 |} |}.
Proof.
  apply (analyzeInteractions_no_ligand (λ _, nan) apoStructure LIG1).
  intros ap Hap%list_elem_of_singleton. subst ap. simpl.
  intros (Hchain & _). discriminate Hchain.
Defined.

Lemma analyzeInteractions_one_per_pair_witness :
  NoDup (NGL.ap_index <$> NGL.atoms argStructure)
  ∧ [arg_sb0; arg_hb2] !! 0 = Some arg_sb0
  ∧ [arg_sb0; arg_hb2] !! 1 = Some arg_hb2
  ∧ ¬ samePair arg_sb0 arg_hb2.
Proof.
  assert (NoDup (NGL.ap_index <$> NGL.atoms argStructure)) as Hnd
    by (apply (bool_decide_unpack _); vm_compute; exact I).
  split_and!; [exact Hnd | reflexivity | reflexivity |].
  apply (analyzeInteractions_one_per_pair (λ _, nan) argStructure LIG1
           {| interactions := [arg_sb0; arg_hb2];
              ligandCenter := {| x := 1; y := 0; z := 3 |} |} 0 1);
    [exact Hnd | vm_compute; reflexivity | reflexivity | reflexivity | lia].
Defined.

Lemma deduplication_keeps_highest_priority_witness :
  arg_hb1 ∈ [arg_sb0; arg_hb1; arg_hb2]
  ∧ ∃ w, filter (λ i, samePairOrdered i arg_hb1) [arg_sb0; arg_hb2] = [w]
         ∧ Interaction.type w = SaltBridge.
Proof.
  assert (arg_hb1 ∈ [arg_sb0; arg_hb1; arg_hb2]) as Hin by (right; left).
  split; [exact Hin|].
  destruct (deduplication_keeps_highest_priority (λ _, nan) argStructure LIG1
              {| interactions := [arg_sb0; arg_hb2];
                 ligandCenter := {| x := 1; y := 0; z := 3 |} |}
              [arg_sb0; arg_hb1; arg_hb2] arg_hb1)
    as (w & Hw & _ & _ & _ & Hsb);
    [vm_compute; reflexivity | vm_compute; reflexivity | exact Hin |].
  exists w. split; [exact Hw|].
  apply (Hsb arg_sb0); [left | split; reflexivity | reflexivity].
Defined.

Lemma findLigandRings_five_or_six_distinct_witness :
  NoDup (index <$> (parseNGLAtom <$> hexagon))
  ∧ NoDup ((λ ring : list AtomData, sortIndices (index <$> ring))
             <$> findLigandRings (parseNGLAtom <$> hexagon)).
Proof.
  assert (NoDup (index <$> (parseNGLAtom <$> hexagon))) as Hnd
    by (apply (bool_decide_unpack _); vm_compute; exact I).
  split; [exact Hnd|].
  by apply (findLigandRings_five_or_six_distinct (parseNGLAtom <$> hexagon)).
Defined.

Lemma degenerate_normal_counts_as_parallel_witness :
  let ringAtoms := parseNGLAtom <$> [phe_CG; phe_CD1; phe_CD2] in
  let ring := parseNGLAtom <$> hexagon in
  let start := {| found := []; idCounter := 0 |} in
  piStackingStep (λ _, nan) (centreOf ringAtoms)
    (getPlaneNormal (coords <$> ringAtoms)) ringAtoms start (ringData ring)
  = Some {| found := [phe_pi0]; idCounter := 1 |}.
Proof.
  cbv zeta.
  destruct (degenerate_normal_counts_as_parallel (λ _, nan)
              (centreOf (parseNGLAtom <$> [phe_CG; phe_CD1; phe_CD2]))
              (getPlaneNormal (coords <$> (parseNGLAtom <$> [phe_CG; phe_CD1; phe_CD2])))
              (parseNGLAtom <$> [phe_CG; phe_CD1; phe_CD2])
              {| found := []; idCounter := 0 |}
              (ringData (parseNGLAtom <$> hexagon))
              (parseNGLAtom hex_C1) (parseNGLAtom phe_CG)) as [_ Hstep];
    [vm_compute; reflexivity | left; vm_compute; reflexivity
    | reflexivity | reflexivity |].
  rewrite Hstep. vm_compute. reflexivity.
Defined.

(** * Further properties of the code *)

(** ** Keys built with a separator *)

(** [charFree c s]: the character [c] does not occur in [s]. *)
Fixpoint charFree (c : ascii) (s : string) : Prop :=
  match s with
  | EmptyString => True
  | String d s' => d ≠ c ∧ charFree c s'
  end.

Lemma charFree_app_sep c s t : ¬ charFree c (s +:+ String c t).
Proof.
  induction s as [|d s IH]; rewrite ?app_empty_l, ?app_String_l; simpl.
  - by intros [? _].
  - intros [_ ?]. by apply IH.
Qed.

(** A key [s +:+ c +:+ t] whose second part is free of the separator
    determines both parts. *)
Lemma sep_split_r c s1 s2 t1 t2 :
  charFree c t1 → charFree c t2 →
  s1 +:+ String c t1 = s2 +:+ String c t2 → s1 = s2 ∧ t1 = t2.
Proof.
  intros Ht1 Ht2. revert s2.
  induction s1 as [|d s1 IH]; intros [|e s2];
    rewrite ?app_empty_l, ?app_String_l; intros Heq.
  - by injection Heq as ->.
  - injection Heq as _ ->. by apply charFree_app_sep in Ht1.
  - injection Heq as _ <-. by apply charFree_app_sep in Ht2.
  - injection Heq as -> Heq. by destruct (IH s2 Heq) as [-> ->].
Qed.

Lemma all_digits_charFree c s : ¬ is_digit c → all_digits s → charFree c s.
Proof.
  intros Hc. induction s as [|d s IH]; simpl; [done|].
  intros [Hd Hs]. split; [by intros -> | by apply IH].
Qed.

Lemma pretty_N_charFree c (n : N) : ¬ is_digit c → charFree c (pretty n).
Proof. intros Hc. apply all_digits_charFree; [done | apply pretty_N_digits]. Qed.

Lemma pretty_Z_colon_free (z : Z) : charFree ":" (pretty z).
Proof.
  assert (¬ is_digit ":") as Hc by (intros [n Hn]; discriminate Hn).
  destruct z as [|p|p]; unfold pretty, pretty_Z.
  - by split.
  - by apply (pretty_N_charFree ":" (Npos p)).
  - rewrite app_String_l, app_empty_l. split; [done|].
    by apply (pretty_N_charFree ":" (Npos p)).
Qed.

(** [chain:resNo] keys identify the chain and the residue number. *)
Lemma chain_resNo_key_inj (c1 c2 : string) (n1 n2 : Z) :
  c1 +:+ ":" +:+ pretty n1 = c2 +:+ ":" +:+ pretty n2 ↔ c1 = c2 ∧ n1 = n2.
Proof.
  split; [|by intros [-> ->]].
  intros Heq. change (":" +:+ pretty n1) with (String ":" (pretty n1)) in Heq.
  change (":" +:+ pretty n2) with (String ":" (pretty n2)) in Heq.
  apply sep_split_r in Heq as [-> Hn]; try apply pretty_Z_colon_free.
  split; [done | by apply (inj pretty)].
Qed.

(** ** Sorting with a comparator *)

Section ArraySort.
Context {A : Type} (compare : A → A → Z).

Lemma sortInsert_Permutation a l : sortInsert compare a l ≡ₚ a :: l.
Proof.
  induction l as [|b l IH]; simpl; [done|].
  case_match; [|done]. rewrite IH. apply Permutation_swap.
Qed.

Lemma arraySort_Permutation l : arraySort compare l ≡ₚ l.
Proof.
  induction l as [|a l IH]; simpl; [done|].
  by rewrite sortInsert_Permutation, IH.
Qed.

(** A consistent comparator: of two elements one does not compare greater
    than the other, and "does not compare greater" is transitive. *)
Hypothesis compare_total : ∀ a b, (0 < compare a b → compare b a ≤ 0)%Z.
Hypothesis compare_trans :
  ∀ a b c, (compare a b ≤ 0 → compare b c ≤ 0 → compare a c ≤ 0)%Z.

Let notGreater (a b : A) : Prop := (compare a b ≤ 0)%Z.

Lemma sortInsert_sorted a l :
  StronglySorted notGreater l → StronglySorted notGreater (sortInsert compare a l).
Proof.
  induction 1 as [|b l Hl IH Hb]; simpl; [by repeat constructor|].
  destruct (0 <? compare a b)%Z eqn:Hab.
  - apply Z.ltb_lt in Hab. constructor; [done|].
    rewrite sortInsert_Permutation. constructor; [|done].
    by apply compare_total.
  - apply Z.ltb_ge in Hab. constructor; [by constructor|].
    constructor; [done|]. eapply Forall_impl; [exact Hb|].
    intros c Hc. by eapply compare_trans.
Qed.

Lemma arraySort_sorted l : StronglySorted notGreater (arraySort compare l).
Proof.
  induction l as [|a l IH]; simpl; [constructor | by apply sortInsert_sorted].
Qed.

(** Stability: the elements of a class whose members never compare greater
    than one another keep their order. *)
Lemma arraySort_stable (P : A → Prop) `{∀ a, Decision (P a)} l :
  (∀ a b, P a → P b → (compare a b ≤ 0)%Z) →
  filter P (arraySort compare l) = filter P l.
Proof.
  intros HP.
  assert (∀ a k, filter P (sortInsert compare a k) = filter P (a :: k)) as Hins.
  { intros a k. induction k as [|b k IH]; simpl; [done|].
    destruct (0 <? compare a b)%Z eqn:Hab; [|done].
    apply Z.ltb_lt in Hab. rewrite !filter_cons in *.
    destruct (decide (P a)) as [Ha|Ha], (decide (P b)) as [Hb|Hb];
      rewrite IH; try done.
    specialize (HP a b Ha Hb). lia. }
  induction l as [|a l IH]; simpl; [done|].
  by rewrite Hins, !filter_cons, IH.
Qed.
End ArraySort.

(** ** Candidate enumeration *)

(** A residue is listed when its upper-cased name is a common ligand name, or
    when it is hetero and its upper-cased name is not on the ignore list. *)
Definition qualifies (rp : NGL.ResidueProxy) : bool :=
  let resNameUpper := JS.toUpperCase (NGL.rp_resname rp) in
  JS.includes resNameUpper COMMON_LIGANDS
  || (NGL.rp_isHetero rp && negb (JS.includes resNameUpper IGNORED_RESIDUES)).

Definition sameChainResNo (a b : NGL.ResidueProxy) : Prop :=
  NGL.rp_chainname a = NGL.rp_chainname b ∧ NGL.rp_resno a = NGL.rp_resno b.

Definition optionKey (r : ResidueOption) : string :=
  ResidueOption.chain r +:+ ":" +:+ pretty (ResidueOption.resNo r).

Lemma candidateKey_sameChainResNo a b :
  candidateKey a = candidateKey b ↔ sameChainResNo a b.
Proof. apply chain_resNo_key_inj. Qed.

Lemma candidateStep_qualifies m rp :
  candidateStep m rp =
  if qualifies rp then
    match OMap.get (candidateKey rp) m with
    | Some _ => m
    | None => OMap.set (candidateKey rp) (toResidueOption rp) m
    end
  else m.
Proof. reflexivity. Qed.

Lemma get_candidateStep k m rp :
  OMap.get k (candidateStep m rp) =
  match OMap.get k m with
  | Some v => Some v
  | None =>
      if decide (qualifies rp ∧ candidateKey rp = k)
      then Some (toResidueOption rp) else None
  end.
Proof.
  rewrite candidateStep_qualifies.
  destruct (qualifies rp) eqn:Hq.
  - destruct (OMap.get (candidateKey rp) m) as [v|] eqn:Hv.
    + destruct (OMap.get k m) eqn:Hk; [done|].
      rewrite decide_False; [done|]. intros [_ Heq]. congruence.
    + rewrite OMap_get_set. destruct (decide (k = candidateKey rp)) as [->|Hne].
      * rewrite Hv. by rewrite decide_True.
      * destruct (OMap.get k m); [done|].
        rewrite decide_False; [done|]. intros [_ Heq]. congruence.
  - destruct (OMap.get k m); [done|]. rewrite decide_False; [done|]. by intros [[] _].
Qed.

Lemma get_candidates_fold k l m :
  OMap.get k (fold_left candidateStep l m) =
  match OMap.get k m with
  | Some v => Some v
  | None =>
      toResidueOption <$> head (filter (λ rp, qualifies rp ∧ candidateKey rp = k) l)
  end.
Proof.
  revert m. induction l as [|rp l IH]; intros m; simpl.
  - by destruct (OMap.get k m).
  - rewrite IH, get_candidateStep, filter_cons.
    destruct (OMap.get k m); [done|]. by case_decide.
Qed.

Lemma candidates_wf l :
  let m := fold_left candidateStep l [] in
  NoDup (OMap.keys m) ∧ ∀ k r, (k, r) ∈ m → k = optionKey r.
Proof.
  apply (fold_left_invariant
           (λ m, NoDup (OMap.keys m) ∧ ∀ k r, (k, r) ∈ m → k = optionKey r)).
  - split; [constructor|]. intros k r H. by apply elem_of_nil in H.
  - intros m rp _ [Hnd Hk]. rewrite candidateStep_qualifies.
    repeat case_match; try done. split; [by apply OMap_NoDup_set|].
    intros k r [[= -> ->]|?]%elem_of_OMap_set; [done | by apply Hk].
Qed.

Lemma head_filter_Some {A} (P : A → Prop) `{∀ a, Decision (P a)} (l : list A) (a : A) :
  head (filter P l) = Some a ↔
  ∃ pre post, l = pre ++ a :: post ∧ P a ∧ Forall (λ b, ¬ P b) pre.
Proof.
  induction l as [|b l IH].
  - split; [done|]. intros (pre & post & Heq & _). by destruct pre.
  - rewrite filter_cons. destruct (decide (P b)) as [Hb|Hb]; simpl.
    + split.
      * intros [= ->]. exists [], l. by split_and!.
      * intros (pre & post & Heq & Ha & Hpre).
        destruct pre as [|c pre]; simplify_eq/=; [done|].
        by apply Forall_cons in Hpre as [? _].
    + rewrite IH. split.
      * intros (pre & post & -> & Ha & Hpre). exists (b :: pre), post.
        split_and!; [done | done | by constructor].
      * intros (pre & post & Heq & Ha & Hpre).
        destruct pre as [|c pre]; simplify_eq/=; [done|].
        apply Forall_cons in Hpre as [_ Hpre]. by exists pre, post.
Qed.

Lemma elem_of_getLigandCandidates structure r :
  r ∈ getLigandCandidates structure ↔
  OMap.get (optionKey r) (fold_left candidateStep (NGL.residues structure) [])
  = Some r.
Proof.
  unfold getLigandCandidates, NGL.eachResidue.
  rewrite arraySort_Permutation, OMap_values_elem.
  destruct (candidates_wf (NGL.residues structure)) as [Hnd Hkey]. split.
  - intros [k Hk]. rewrite <- (Hkey k r Hk). by apply OMap_elem_get.
  - intros Hget. eexists. by apply OMap_get_Some_elem.
Qed.

(** The first qualifying residue of a chain and residue number is listed. *)
Lemma first_qualifying_is_listed structure pre rp post :
  NGL.residues structure = pre ++ rp :: post →
  qualifies rp = true →
  Forall (λ rp', qualifies rp' = true → ¬ sameChainResNo rp' rp) pre →
  toResidueOption rp ∈ getLigandCandidates structure.
Proof.
  intros Hl Hq Hpre.
  rewrite elem_of_getLigandCandidates, get_candidates_fold. simpl.
  assert (head (filter (λ rp', qualifies rp'
                          ∧ candidateKey rp' = optionKey (toResidueOption rp))
                  (NGL.residues structure)) = Some rp) as ->; [|done].
  apply head_filter_Some. exists pre, post.
  split; [done|]. split; [split; [by apply Is_true_true | done]|].
  eapply Forall_impl; [exact Hpre|]. intros rp' Hno [Hq'%Is_true_true Hk].
  apply (Hno Hq'). by apply candidateKey_sameChainResNo.
Qed.

(** X1: [getLigandCandidates] lists exactly the qualifying residues that are the
    first qualifying residue of their chain and residue number, in traversal
    order: a later residue with the same chain and number is dropped, whatever
    its name. *)
Theorem getLigandCandidates_first_of_each_residue (structure : NGL.Structure)
    (r : ResidueOption) :
  r ∈ getLigandCandidates structure ↔
  ∃ pre rp post,
    NGL.residues structure = pre ++ rp :: post
    ∧ r = toResidueOption rp
    ∧ qualifies rp = true
    ∧ Forall (λ rp', qualifies rp' = true → ¬ sameChainResNo rp' rp) pre.
Proof.
  split.
  - rewrite elem_of_getLigandCandidates, get_candidates_fold. simpl.
    destruct (head _) as [rp|] eqn:Hhead; [|done]. simpl. intros [= <-].
    apply head_filter_Some in Hhead as (pre & post & Hl & [Hq _] & Hpre).
    exists pre, rp, post. split_and!; [done | done | by apply Is_true_true |].
    eapply Forall_impl; [exact Hpre|]. intros rp' Hno Hq' Hsame. apply Hno.
    split; [by apply Is_true_true|]. by apply candidateKey_sameChainResNo.
  - intros (pre & rp & post & Hl & -> & Hq & Hpre).
    by eapply first_qualifying_is_listed.
Qed.

(** The map that collects the candidates never holds two entries of one
    chain and residue number. *)
Lemma candidate_map_unique (l : list NGL.ResidueProxy) :
  NoDup ((λ r, (ResidueOption.chain r, ResidueOption.resNo r))
           <$> OMap.values (fold_left candidateStep l [])).
Proof.
  destruct (candidates_wf l) as [Hnd Hkey].
  set (m := fold_left candidateStep l []) in *.
  assert (OMap.keys m = optionKey <$> OMap.values m) as Hkeys.
  { unfold OMap.keys, OMap.values. clear Hnd.
    induction m as [|[k r] m IH]; simpl; [done|]. f_equal.
    - apply Hkey. left.
    - apply IH. intros k' r' H. apply Hkey. by right. }
  rewrite Hkeys in Hnd.
  change optionKey with ((λ cn : string * Z, cn.1 +:+ ":" +:+ pretty cn.2)
    ∘ (λ r, (ResidueOption.chain r, ResidueOption.resNo r))) in Hnd.
  rewrite list_fmap_compose in Hnd. by apply NoDup_fmap_1 in Hnd.
Qed.

(** X2: No two candidates share chain and residue number. *)
Theorem getLigandCandidates_unique (structure : NGL.Structure) :
  NoDup ((λ r, (ResidueOption.chain r, ResidueOption.resNo r))
           <$> getLigandCandidates structure).
Proof.
  unfold getLigandCandidates, NGL.eachResidue.
  rewrite arraySort_Permutation. apply candidate_map_unique.
Qed.

(** The order of the list: common ligand names first, and within each of the
    two classes by descending atom count. *)
Definition candidateOrder (a b : ResidueOption) : Prop :=
  (isCommonName (ResidueOption.resName b) → isCommonName (ResidueOption.resName a))
  ∧ (isCommonName (ResidueOption.resName a) = isCommonName (ResidueOption.resName b) →
     (ResidueOption.atomCount b ≤ ResidueOption.atomCount a)%N).

Lemma compareCandidates_order a b :
  (compareCandidates a b ≤ 0)%Z ↔ candidateOrder a b.
Proof.
  unfold compareCandidates, candidateOrder.
  destruct (isCommonName (ResidueOption.resName a)),
    (isCommonName (ResidueOption.resName b)); simpl; (split; [intros; split|intros [H1 H2]]);
    try done; try lia; try (specialize (H2 eq_refl); lia).
Qed.

(** The comparator is consistent: total and transitive. *)
Lemma compareCandidates_total a b :
  (0 < compareCandidates a b → compareCandidates b a ≤ 0)%Z.
Proof.
  unfold compareCandidates.
  destruct (isCommonName (ResidueOption.resName a)),
    (isCommonName (ResidueOption.resName b)); simpl; lia.
Qed.

Lemma compareCandidates_trans a b c :
  (compareCandidates a b ≤ 0)%Z → (compareCandidates b c ≤ 0)%Z →
  (compareCandidates a c ≤ 0)%Z.
Proof.
  unfold compareCandidates.
  destruct (isCommonName (ResidueOption.resName a)),
    (isCommonName (ResidueOption.resName b)),
    (isCommonName (ResidueOption.resName c)); simpl; lia.
Qed.

Lemma StronglySorted_candidateOrder (l : list ResidueOption) :
  StronglySorted (λ a b, (compareCandidates a b ≤ 0)%Z) l →
  StronglySorted candidateOrder l.
Proof.
  induction 1 as [|a l Hl IH Ha]; constructor; [done|].
  eapply Forall_impl; [exact Ha|]. intros b. apply compareCandidates_order.
Qed.

(** X3: the list returned by [getLigandCandidates] is sorted by
    [candidateOrder]: every entry precedes all the later ones. *)
Theorem getLigandCandidates_sorted (structure : NGL.Structure) :
  StronglySorted candidateOrder (getLigandCandidates structure).
Proof.
  unfold getLigandCandidates.
  apply StronglySorted_candidateOrder, arraySort_sorted.
  - intros a b. apply compareCandidates_total.
  - intros a b c. apply compareCandidates_trans.
Qed.

(** ** The ligand list and the manual search *)

Definition sameResidue (a b : ResidueOption) : Prop :=
  ResidueOption.chain a = ResidueOption.chain b
  ∧ ResidueOption.resNo a = ResidueOption.resNo b.

Definition keysUnique (l : list ResidueOption) : Prop :=
  NoDup ((λ r, (ResidueOption.chain r, ResidueOption.resNo r)) <$> l).

(** The selected ligand has an entry of its chain and residue number in the
    list. *)
Definition selectionListed (st : LigandState) : Prop :=
  ∀ sel, selectedLigand st = Some sel →
         ∃ c, c ∈ ligandCandidates st ∧ sameResidue c sel.

Lemma addFound_exists found prev :
  existsb (λ l, bool_decide (ResidueOption.chain l = ResidueOption.chain found)
                && bool_decide (ResidueOption.resNo l = ResidueOption.resNo found))
          prev = true
  ↔ ∃ c, c ∈ prev ∧ sameResidue c found.
Proof.
  rewrite existsb_exists. split.
  - intros (c & Hc%list_elem_of_In & Hb). exists c. split; [done|].
    apply andb_true_iff in Hb as [?%bool_decide_eq_true ?%bool_decide_eq_true].
    by split.
  - intros (c & Hc & Hch & Hno). exists c. split; [by apply list_elem_of_In|].
    apply andb_true_iff. by rewrite !bool_decide_eq_true.
Qed.

Lemma addFound_listed found prev :
  ∃ c, c ∈ addFound found prev ∧ sameResidue c found.
Proof.
  unfold addFound. destruct (existsb _ prev) eqn:Hex.
  - by apply addFound_exists.
  - exists found. split; [left | done].
Qed.

Lemma addFound_keysUnique found prev :
  keysUnique prev → keysUnique (addFound found prev).
Proof.
  intros Hnd. unfold addFound. destruct (existsb _ prev) eqn:Hex; [done|].
  unfold keysUnique. rewrite fmap_cons. constructor; [|done].
  intros (c & [= Hch Hno] & Hc)%list_elem_of_fmap.
  apply not_true_iff_false in Hex. apply Hex, addFound_exists.
  exists c. by split.
Qed.

(** X4: [handleStructureLoaded] selects the candidate that comes first in the
    order (a common ligand name if there is one, the largest atom count in
    its class); it leaves the selection empty only when no residue of the
    structure qualifies. *)
Theorem handleStructureLoaded_selects_first (structure : NGL.Structure) :
  let st := handleStructureLoaded structure None in
  keysUnique (ligandCandidates st)
  ∧ match selectedLigand st with
    | Some sel =>
        sel ∈ ligandCandidates st
        ∧ ∀ c, c ∈ ligandCandidates st → candidateOrder sel c
    | None => Forall (λ rp, qualifies rp = false) (NGL.residues structure)
    end.
Proof.
  simpl. split.
  { unfold keysUnique, getLigandCandidates, NGL.eachResidue.
    rewrite arraySort_Permutation. apply candidate_map_unique. }
  assert (StronglySorted candidateOrder (getLigandCandidates structure))
    as Hsorted.
  { apply StronglySorted_candidateOrder, arraySort_sorted;
      [intros a b; apply compareCandidates_total
      |intros a b c; apply compareCandidates_trans]. }
  destruct (getLigandCandidates structure) as [|first cs] eqn:Hcs; simpl.
  - apply Forall_forall. intros rp Hrp. apply not_true_is_false. intros Hq.
    assert (is_Some (head (filter (λ rp, qualifies rp = true) (NGL.residues structure))))
      as [rp0 Hhead].
    { destruct (filter _ _) as [|x l] eqn:Hf; [|by eexists].
      assert (rp ∈ filter (λ rp, qualifies rp = true) (NGL.residues structure)) as Hin
        by by apply list_elem_of_filter.
      rewrite Hf in Hin. by apply elem_of_nil in Hin. }
    apply head_filter_Some in Hhead as (pre & post & Hl & Hq0 & Hpre).
    assert (toResidueOption rp0 ∈ getLigandCandidates structure) as Hin.
    { eapply first_qualifying_is_listed; [done..|].
      eapply Forall_impl; [exact Hpre|]. by intros rp' Hno Hq'. }
    rewrite Hcs in Hin. by apply elem_of_nil in Hin.
  - split; [left|]. intros c [->|Hc]%elem_of_cons; [by split|].
    apply StronglySorted_inv in Hsorted as [_ Hall].
    rewrite Forall_forall in Hall. by apply Hall.
Qed.

(** X5: [handleManualSearch] keeps the ligand list free of two entries for one
    chain and residue number and keeps the selected ligand listed.  When the
    residue is found it becomes the selection, and the list grows by at most
    that one entry at its front; otherwise the state is unchanged and an
    alert is raised, unless the structure or the query is missing. *)
Theorem handleManualSearch_keeps_list_consistent (toUpperCase trim : string → string)
    (structure : option NGL.Structure)
    (manualSearchQuery : string) (st st' : LigandState) (alert : option string) :
  keysUnique (ligandCandidates st) →
  selectionListed st →
  handleManualSearch toUpperCase trim structure manualSearchQuery st = (st', alert) →
  keysUnique (ligandCandidates st')
  ∧ selectionListed st'
  ∧ match structure with
    | Some s =>
        if decide (manualSearchQuery = "") then st' = st ∧ alert = None
        else
          match findResidueByName toUpperCase trim s manualSearchQuery with
          | Some found =>
              selectedLigand st' = Some found ∧ alert = None
              ∧ (ligandCandidates st' = ligandCandidates st
                 ∨ ligandCandidates st' = found :: ligandCandidates st)
          | None => st' = st ∧ is_Some alert
          end
    | None => st' = st ∧ alert = None
    end.
Proof.
  intros Hnd Hsel. unfold handleManualSearch.
  destruct structure as [s|]; [|by intros [= <- <-]].
  case_bool_decide as Hq.
  { rewrite decide_True by done. by intros [= <- <-]. }
  rewrite decide_False by done.
  destruct (findResidueByName toUpperCase trim s manualSearchQuery) as [found|];
    [|by intros [= <- <-]; split_and!; try done; eexists].
  intros [= <- <-]. simpl. split_and!; try done.
  - by apply addFound_keysUnique.
  - intros sel [= <-]. apply addFound_listed.
  - unfold addFound. destruct (existsb _ _); [by left | by right].
Qed.

(** ** How each interaction is recorded *)

(** The record that [push] appends when the counter stands at [n]. *)
Definition recordOf (prefix : string) (n : N) (ty : InteractionType) (d : float)
    (l p : AtomData) (ang : option float) : Interaction :=
  {| Interaction.id := prefix +:+ "-" +:+ pretty n;
     Interaction.type := ty;
     Interaction.distance := d;
     Interaction.ligandAtom := l;
     Interaction.proteinAtom := p;
     Interaction.angle := ang |}.

(** The atoms of a residue whose names are listed in a table entry. *)
Definition namedAtoms (def : list string) (resAtoms : list AtomData) : list AtomData :=
  filter (λ a, JS.includes (name a) def) resAtoms.

(** The angle test of pi-stacking: near parallel, or T-shaped. *)
Definition stackingAngle (a : float) : bool :=
  ((a <? THRESHOLDS.PI_STACKING_ANGLE_PARALLEL)
   || (180 - THRESHOLDS.PI_STACKING_ANGLE_PARALLEL <? a)
   || ((THRESHOLDS.PI_STACKING_ANGLE_TSHAPED <? a) && (a <? 120)))%float.

(** The element tests of the four atom-atom types. *)
Definition hydrogenBondElements (l p : AtomData) : bool :=
  (JS.includes (element l) ATOM_PROPS.DONORS
   && JS.includes (element p) ATOM_PROPS.ACCEPTORS)
  || (JS.includes (element l) ATOM_PROPS.ACCEPTORS
      && JS.includes (element p) ATOM_PROPS.DONORS).

Definition halogenBondElements (l p : AtomData) : bool :=
  JS.includes (JS.toUpperCase (element l)) ATOM_PROPS.HALOGENS
  && JS.includes (element p) ATOM_PROPS.ACCEPTORS.

Definition hydrophobicElements (l p : AtomData) : bool :=
  bool_decide (element l = "C") && bool_decide (element p = "C").

Definition metalElements (l p : AtomData) : bool :=
  JS.includes (JS.toUpperCase (element l)) ATOM_PROPS.METALS
  || JS.includes (JS.toUpperCase (element p)) ATOM_PROPS.METALS.

Section Recorded.
Variable Math_acos : float → float.
Variables lig prot : list AtomData.

(** The residues the detection loop visits. *)
Definition residueGroups : list (list AtomData) :=
  OMap.values (fold_left groupStep prot []).

(** [Recorded n i]: interaction [i] is what one of the nine places that
    record an interaction appends when the counter stands at [n], with the
    tests that guard that place. *)
Inductive Recorded (n : N) : Interaction → Prop :=
| Rec_piStacking resAtoms first aromDef ring l p :
    resAtoms ∈ residueGroups → head resAtoms = Some first →
    JS.get ATOM_PROPS.AROMATIC_PLANES (resName first) = JS.Own aromDef →
    3 ≤ length (namedAtoms aromDef resAtoms) →
    ring ∈ findLigandRings lig → head ring = Some l →
    head (namedAtoms aromDef resAtoms) = Some p →
    (distance (centreOf (namedAtoms aromDef resAtoms)) (centreOf ring)
       <=? THRESHOLDS.PI_STACKING_DIST)%float = true →
    stackingAngle
      (angleBetween Math_acos
         (getPlaneNormal (coords <$> namedAtoms aromDef resAtoms))
         (getPlaneNormal (coords <$> ring))) = true →
    Recorded n
      (recordOf "pi" n PiStacking
         (distance (centreOf (namedAtoms aromDef resAtoms)) (centreOf ring)) l p
         (Some (angleBetween Math_acos
                  (getPlaneNormal (coords <$> namedAtoms aromDef resAtoms))
                  (getPlaneNormal (coords <$> ring)))))
| Rec_piCation resAtoms first aromDef l p :
    resAtoms ∈ residueGroups → head resAtoms = Some first →
    JS.get ATOM_PROPS.AROMATIC_PLANES (resName first) = JS.Own aromDef →
    3 ≤ length (namedAtoms aromDef resAtoms) →
    l ∈ lig → isAmine l = true →
    head (namedAtoms aromDef resAtoms) = Some p →
    (distance l (centreOf (namedAtoms aromDef resAtoms))
       <? THRESHOLDS.PI_CATION_DIST)%float = true →
    Recorded n
      (recordOf "pic" n PiStacking
         (distance l (centreOf (namedAtoms aromDef resAtoms))) l p None)
| Rec_cationPi resAtoms first posDef ring l p :
    resAtoms ∈ residueGroups → head resAtoms = Some first →
    JS.get ATOM_PROPS.POS_CHARGE_ATOMS (resName first) = JS.Own posDef →
    ring ∈ findLigandRings lig → head ring = Some l →
    head (namedAtoms posDef resAtoms) = Some p →
    (distance (centreOf (namedAtoms posDef resAtoms)) (centreOf ring)
       <? THRESHOLDS.PI_CATION_DIST)%float = true →
    Recorded n
      (recordOf "pic" n PiStacking
         (distance (centreOf (namedAtoms posDef resAtoms)) (centreOf ring)) l p None)
| Rec_saltBridgePos resAtoms first posDef l p :
    resAtoms ∈ residueGroups → head resAtoms = Some first →
    JS.get ATOM_PROPS.POS_CHARGE_ATOMS (resName first) = JS.Own posDef →
    l ∈ lig → JS.includes (element l) ["O"; "S"; "P"] = true →
    head (namedAtoms posDef resAtoms) = Some p →
    (distance l (centreOf (namedAtoms posDef resAtoms))
       <? THRESHOLDS.SALT_BRIDGE_DIST)%float = true →
    Recorded n
      (recordOf "sb" n SaltBridge
         (distance l (centreOf (namedAtoms posDef resAtoms))) l p None)
| Rec_saltBridgeNeg resAtoms first negDef l p :
    resAtoms ∈ residueGroups → head resAtoms = Some first →
    JS.get ATOM_PROPS.NEG_CHARGE_ATOMS (resName first) = JS.Own negDef →
    l ∈ lig → isAmine l = true →
    head (namedAtoms negDef resAtoms) = Some p →
    (distance l (centreOf (namedAtoms negDef resAtoms))
       <? THRESHOLDS.SALT_BRIDGE_DIST)%float = true →
    Recorded n
      (recordOf "sb" n SaltBridge
         (distance l (centreOf (namedAtoms negDef resAtoms))) l p None)
| Rec_hydrogenBond l p :
    l ∈ lig → p ∈ prot → hydrogenBondElements l p = true →
    (distance l p <=? THRESHOLDS.HBOND_DIST)%float = true →
    Recorded n (recordOf "hb" n HydrogenBond (distance l p) l p None)
| Rec_halogenBond l p :
    l ∈ lig → p ∈ prot → halogenBondElements l p = true →
    (distance l p <=? THRESHOLDS.HALOGEN_DIST)%float = true →
    Recorded n (recordOf "xb" n HalogenBond (distance l p) l p None)
| Rec_hydrophobic l p :
    l ∈ lig → p ∈ prot → hydrophobicElements l p = true →
    (distance l p <=? THRESHOLDS.HYDROPHOBIC_DIST)%float = true →
    Recorded n (recordOf "hp" n Hydrophobic (distance l p) l p None)
| Rec_metal l p :
    l ∈ lig → p ∈ prot → metalElements l p = true →
    (distance l p <=? THRESHOLDS.METAL_DIST)%float = true →
    Recorded n (recordOf "mt" n MetalCoordination (distance l p) l p None).

(** The counter is the number of interactions recorded so far, and the
    interaction at position [k] was recorded when the counter stood at [k]. *)
Definition recordedState (st : Detection) : Prop :=
  idCounter st = N.of_nat (length (found st))
  ∧ ∀ k i, found st !! k = Some i → Recorded (N.of_nat k) i.

Lemma push_recorded prefix ty d l p ang st :
  recordedState st →
  Recorded (idCounter st) (recordOf prefix (idCounter st) ty d l p ang) →
  recordedState (push prefix ty d l p ang st).
Proof.
  intros [Hn Hall] Hnew. split.
  - simpl. rewrite length_app. simpl. lia.
  - intros k i. simpl. intros Hk.
    apply lookup_app_Some in Hk as [Hk|[Hlen Hk]]; [by apply Hall|].
    apply list_lookup_singleton_Some in Hk as [Hk <-].
    replace (N.of_nat k) with (idCounter st) by lia. exact Hnew.
Qed.

Let ligandRingData := ringData <$> findLigandRings lig.

Section Residue.
Variables (resAtoms : list AtomData) (first : AtomData).
Hypothesis resAtoms_group : resAtoms ∈ residueGroups.
Hypothesis resAtoms_head : head resAtoms = Some first.

Lemma aromaticBlock_recorded st st' :
  aromaticBlock Math_acos lig ligandRingData (resName first) resAtoms st = Some st' →
  recordedState st → recordedState st'.
Proof.
  unfold aromaticBlock. intros Hrun Hst.
  destruct (JS.get _ _) as [aromDef| |] eqn:Hdef; [|done|by simplify_eq].
  fold (namedAtoms aromDef resAtoms) in Hrun.
  destruct (3 <=? _) eqn:Hlen; [|by simplify_eq]. apply Nat.leb_le in Hlen.
  destruct (forEachM _ ligandRingData st) as [st1|] eqn:H1; [|done].
  simpl in Hrun.
  eapply (forEachM_invariant recordedState); [| |exact Hrun].
  - eapply (forEachM_invariant recordedState); [exact Hst| |exact H1].
    intros s lRing s' (ring & -> & Hring)%list_elem_of_fmap Hs.
    unfold piStackingStep. simpl LigandRing.center. simpl LigandRing.normal.
    simpl LigandRing.atoms.
    destruct (_ <=? _)%float eqn:Hd; [|by intros [= <-]].
    destruct (_ || _) eqn:Hang; [|by intros [= <-]].
    destruct (head ring) as [l|] eqn:Hl; [|done].
    destruct (head (namedAtoms aromDef resAtoms)) as [p|] eqn:Hp; [|done].
    simpl. intros [= <-]. apply push_recorded; [done|].
    by eapply Rec_piStacking.
  - intros s lAtom s' Hl Hs. unfold piCationStep.
    destruct (_ && _) eqn:Hc; [|by intros [= <-]].
    apply andb_true_iff in Hc as [Ham Hd].
    destruct (head (namedAtoms aromDef resAtoms)) as [p|] eqn:Hp; [|done].
    simpl. intros [= <-]. apply push_recorded; [done|].
    by eapply Rec_piCation.
Qed.

Lemma positiveBlock_recorded st st' :
  positiveBlock lig ligandRingData (resName first) resAtoms st = Some st' →
  recordedState st → recordedState st'.
Proof.
  unfold positiveBlock. intros Hrun Hst.
  destruct (JS.get _ _) as [posDef| |] eqn:Hdef; [|done|by simplify_eq].
  fold (namedAtoms posDef resAtoms) in Hrun.
  destruct (0 <? _) eqn:Hlen; [|by simplify_eq].
  destruct (forEachM _ ligandRingData st) as [st1|] eqn:H1; [|done].
  simpl in Hrun.
  eapply (forEachM_invariant recordedState); [| |exact Hrun].
  - eapply (forEachM_invariant recordedState); [exact Hst| |exact H1].
    intros s lRing s' (ring & -> & Hring)%list_elem_of_fmap Hs.
    unfold cationPiStep. simpl LigandRing.center. simpl LigandRing.atoms.
    destruct (_ <? _)%float eqn:Hd; [|by intros [= <-]].
    destruct (head ring) as [l|] eqn:Hl; [|done].
    destruct (head (namedAtoms posDef resAtoms)) as [p|] eqn:Hp; [|done].
    simpl. intros [= <-]. apply push_recorded; [done|].
    by eapply Rec_cationPi.
  - intros s lAtom s' Hl Hs. unfold saltBridgePosStep.
    destruct (JS.includes _ _) eqn:Hel; [|by intros [= <-]].
    destruct (_ <? _)%float eqn:Hd; [|by intros [= <-]].
    destruct (head (namedAtoms posDef resAtoms)) as [p|] eqn:Hp; [|done].
    simpl. intros [= <-]. apply push_recorded; [done|].
    by eapply Rec_saltBridgePos.
Qed.

Lemma negativeBlock_recorded st st' :
  negativeBlock lig (resName first) resAtoms st = Some st' →
  recordedState st → recordedState st'.
Proof.
  unfold negativeBlock. intros Hrun Hst.
  destruct (JS.get _ _) as [negDef| |] eqn:Hdef; [|done|by simplify_eq].
  fold (namedAtoms negDef resAtoms) in Hrun.
  destruct (0 <? _) eqn:Hlen; [|by simplify_eq].
  eapply (forEachM_invariant recordedState); [exact Hst| |exact Hrun].
  intros s lAtom s' Hl Hs. unfold saltBridgeNegStep.
  destruct (isAmine lAtom) eqn:Ham; [|by intros [= <-]].
  destruct (_ <? _)%float eqn:Hd; [|by intros [= <-]].
  destruct (head (namedAtoms negDef resAtoms)) as [p|] eqn:Hp; [|done].
  simpl. intros [= <-]. apply push_recorded; [done|].
  by eapply Rec_saltBridgeNeg.
Qed.
End Residue.

Lemma residueStep_recorded resAtoms st st' :
  resAtoms ∈ residueGroups →
  residueStep Math_acos lig ligandRingData st resAtoms = Some st' →
  recordedState st → recordedState st'.
Proof.
  intros Hgrp. unfold residueStep.
  destruct (head resAtoms) as [first|] eqn:Hfirst; [|done]. simpl.
  destruct (aromaticBlock _ _ _ _ _ _) as [st1|] eqn:H1; [|done]. simpl.
  destruct (positiveBlock _ _ _ _ _) as [st2|] eqn:H2; [|done]. simpl.
  intros H3 Hst.
  eapply negativeBlock_recorded; [done..|].
  eapply positiveBlock_recorded; [done..|].
  by eapply aromaticBlock_recorded.
Qed.

Lemma atomPairStep_recorded lAtom pAtom st :
  lAtom ∈ lig → pAtom ∈ prot →
  recordedState st → recordedState (atomPairStep lAtom st pAtom).
Proof.
  intros Hl Hp Hst. unfold atomPairStep.
  destruct (_ <? _)%float; [done|].
  assert (recordedState (hydrogenBondTest lAtom pAtom (distance lAtom pAtom) st)) as H1.
  { unfold hydrogenBondTest. destruct (_ <=? _)%float eqn:Hd; [|done].
    destruct (_ || _) eqn:Hel; [|done].
    apply push_recorded; [done|]. by apply Rec_hydrogenBond. }
  assert (recordedState (halogenBondTest lAtom pAtom (distance lAtom pAtom)
            (hydrogenBondTest lAtom pAtom (distance lAtom pAtom) st))) as H2.
  { unfold halogenBondTest at 1. destruct (_ && _) eqn:Hel; [|done].
    destruct (_ <=? _)%float eqn:Hd; [|done].
    apply push_recorded; [done|]. by apply Rec_halogenBond. }
  assert (recordedState (hydrophobicTest lAtom pAtom (distance lAtom pAtom)
            (halogenBondTest lAtom pAtom (distance lAtom pAtom)
            (hydrogenBondTest lAtom pAtom (distance lAtom pAtom) st)))) as H3.
  { unfold hydrophobicTest at 1. destruct (_ && _) eqn:Hel; [|done].
    destruct (_ <=? _)%float eqn:Hd; [|done].
    apply push_recorded; [done|]. by apply Rec_hydrophobic. }
  unfold metalTest at 1. destruct (_ || _) eqn:Hel; [|done].
  destruct (_ <=? _)%float eqn:Hd; [|done].
  apply push_recorded; [done|]. by apply Rec_metal.
Qed.

Lemma detectInteractions_recorded cs k i :
  detectInteractions Math_acos lig prot = Some cs →
  cs !! k = Some i → Recorded (N.of_nat k) i.
Proof.
  unfold detectInteractions. intros Hrun.
  destruct (forEachM _ _ _) as [st|] eqn:Hres; [|done].
  simpl in Hrun. injection Hrun as <-.
  assert (recordedState (atomPairs lig prot st)) as [_ Hall]; [|by apply Hall].
  unfold atomPairs.
  apply fold_left_invariant.
  - eapply (forEachM_invariant recordedState); [| |exact Hres].
    + split; [done|]. intros ? ? H. simpl in H. by rewrite lookup_nil in H.
    + intros s resAtoms s' Hin Hs Hstep. by eapply residueStep_recorded.
  - intros s lAtom Hl Hs. apply fold_left_invariant; [done|].
    intros s' pAtom Hp Hs'. by apply atomPairStep_recorded.
Qed.
End Recorded.

(** ** What the result of an analysis guarantees *)

Lemma analyzeInteractions_candidates Math_acos structure lig r la pa i :
  extractAtoms structure lig = (la, pa) →
  analyzeInteractions Math_acos structure lig = Some r →
  i ∈ interactions r →
  ∃ cs k, candidates Math_acos structure lig = Some cs
          ∧ cs !! k = Some i
          ∧ Recorded Math_acos la (coarseFilter (centreOf la) pa) (N.of_nat k) i.
Proof.
  intros Hex Hrun Hi.
  destruct (analyzeInteractions_deduplicate _ _ _ _ Hrun) as (cs & Hcs & Hr).
  rewrite Hr in Hi. apply deduplicate_subset, list_elem_of_lookup in Hi as [k Hk].
  exists cs, k. split_and!; [done..|].
  unfold candidates in Hcs. rewrite Hex in Hcs.
  destruct (length la =? 0).
  - injection Hcs as <-. by rewrite lookup_nil in Hk.
  - by eapply detectInteractions_recorded.
Qed.

(** The id prefixes that go with each type. *)
Definition idPrefixes (t : InteractionType) : list string :=
  match t with
  | PiStacking => ["pi"; "pic"]
  | SaltBridge => ["sb"]
  | HydrogenBond => ["hb"]
  | HalogenBond => ["xb"]
  | Hydrophobic => ["hp"]
  | MetalCoordination => ["mt"]
  | Unknown => []
  end.

Lemma Recorded_id Math_acos lig prot n i :
  Recorded Math_acos lig prot n i →
  ∃ prefix, Interaction.id i = prefix +:+ "-" +:+ pretty n
            ∧ prefix ∈ idPrefixes (Interaction.type i).
Proof.
  destruct 1; eexists; (split; [reflexivity|]); simpl;
    repeat (first [left | right; left | right]); done.
Qed.

Lemma id_counter_inj (p1 p2 : string) (n1 n2 : N) :
  p1 +:+ "-" +:+ pretty n1 = p2 +:+ "-" +:+ pretty n2 → p1 = p2 ∧ n1 = n2.
Proof.
  intros Heq.
  change ("-" +:+ pretty n1) with (String "-" (pretty n1)) in Heq.
  change ("-" +:+ pretty n2) with (String "-" (pretty n2)) in Heq.
  assert (¬ is_digit "-") as Hd by (intros [n Hn]; discriminate Hn).
  apply sep_split_r in Heq as [-> Hn]; try by apply pretty_N_charFree.
  split; [done | by apply (inj pretty)].
Qed.

(** X6: Every id of the result is [prefix-k], where [k] is the position of the
    interaction among the candidates in detection order and the prefix goes
    with its type; no two interactions of the result have the same id. *)
Theorem interaction_ids_are_unique (Math_acos : float → float)
    (structure : NGL.Structure) (ligandResidue : ResidueOption) (r : AnalysisResult) :
  analyzeInteractions Math_acos structure ligandResidue = Some r →
  NoDup (Interaction.id <$> interactions r)
  ∧ ∀ i, i ∈ interactions r →
      ∃ cs k prefix,
        candidates Math_acos structure ligandResidue = Some cs
        ∧ cs !! k = Some i
        ∧ Interaction.id i = prefix +:+ "-" +:+ pretty (N.of_nat k)
        ∧ prefix ∈ idPrefixes (Interaction.type i).
Proof.
  intros Hrun.
  destruct (extractAtoms structure ligandResidue) as [la pa] eqn:Hex.
  assert (∀ i, i ∈ interactions r →
      ∃ cs k prefix,
        candidates Math_acos structure ligandResidue = Some cs
        ∧ cs !! k = Some i
        ∧ Interaction.id i = prefix +:+ "-" +:+ pretty (N.of_nat k)
        ∧ prefix ∈ idPrefixes (Interaction.type i)) as Hids.
  { intros i Hi.
    destruct (analyzeInteractions_candidates _ _ _ _ _ _ _ Hex Hrun Hi)
      as (cs & k & Hcs & Hk & Hrec).
    destruct (Recorded_id _ _ _ _ _ Hrec) as (prefix & Hid & Hp).
    by exists cs, k, prefix. }
  split; [|done].
  apply NoDup_fmap_2_strong.
  - intros i j Hi Hj Hij.
    destruct (Hids i Hi) as (cs & k & p & Hcs & Hk & Hid & _).
    destruct (Hids j Hj) as (cs' & k' & p' & Hcs' & Hk' & Hid' & _).
    rewrite Hcs in Hcs'. injection Hcs' as <-.
    rewrite Hid, Hid' in Hij. apply id_counter_inj in Hij as [_ Hkk].
    assert (k = k') as <- by lia. congruence.
  - destruct (analyzeInteractions_deduplicate _ _ _ _ Hrun) as (cs & _ & ->).
    eapply NoDup_fmap_1, deduplicate_NoDup.
Qed.


(** X8: The returned centre is the centroid of the atoms that match the
    selector, in traversal order, and the protein atom of every interaction
    lies less than 18 from it. *)
Theorem protein_atoms_lie_within_the_coarse_radius (Math_acos : float → float)
    (structure : NGL.Structure) (ligandResidue : ResidueOption)
    (r : AnalysisResult) :
  analyzeInteractions Math_acos structure ligandResidue = Some r →
  ligandCenter r =
    getCenter (coords <$> (parseNGLAtom <$>
       filter (isLigand ligandResidue) (NGL.atoms structure)))
  ∧ ∀ i, i ∈ interactions r →
      (distance (Interaction.proteinAtom i) (ligandCenter r) <? 18.0)%float = true.
Proof.
  intros Hrun.
  destruct (extractAtoms structure ligandResidue) as [la pa] eqn:Hex.
  assert (ligandCenter r = centreOf la) as Hc.
  { unfold analyzeInteractions in Hrun. rewrite Hex in Hrun.
    destruct (length la =? 0) eqn:Hlen.
    - injection Hrun as <-. apply Nat.eqb_eq, nil_length_inv in Hlen. by subst.
    - destruct (detectInteractions _ _ _); [|done]. by injection Hrun as <-. }
  split.
  - rewrite Hc. rewrite extractAtoms_spec in Hex. by injection Hex as <- _.
  - intros i Hi.
    destruct (analyzeInteractions_accepted _ _ _ _ _ _ Hex Hrun) as [Hacc _].
    rewrite Forall_forall in Hacc. destruct (Hacc i Hi) as (_ & Hp & _).
    rewrite Hc. apply list_elem_of_filter in Hp as [Hd _].
    by apply Is_true_true.
Qed.

(** The structure with the hetero atoms outside the ligand taken away. *)
Definition withoutOtherHetero (ligandResidue : ResidueOption)
    (structure : NGL.Structure) : NGL.Structure :=
  {| NGL.atoms :=
       filter (λ ap, isLigand ligandResidue ap || negb (NGL.ap_isHetero ap))
              (NGL.atoms structure);
     NGL.residues := NGL.residues structure |}.

(** X9: Hetero atoms outside the ligand have no influence on the analysis:
    taking them out of the structure leaves the result unchanged. *)
Theorem other_hetero_atoms_are_ignored (Math_acos : float → float)
    (structure : NGL.Structure) (ligandResidue : ResidueOption) :
  analyzeInteractions Math_acos (withoutOtherHetero ligandResidue structure)
    ligandResidue
  = analyzeInteractions Math_acos structure ligandResidue.
Proof.
  unfold analyzeInteractions.
  assert (extractAtoms (withoutOtherHetero ligandResidue structure) ligandResidue
          = extractAtoms structure ligandResidue) as ->; [|done].
  rewrite !extractAtoms_spec. simpl.
  rewrite !list_filter_filter. f_equal; f_equal; apply list_filter_iff; intros ap;
    unfold isProteinAtom; destruct (isLigand ligandResidue ap),
      (NGL.ap_isHetero ap); simpl; tauto.
Qed.

(** ** The rule behind each type *)

(** The atom names a charge or ring table lists, over all its residues. *)
Definition tableNames (table : list (string * list string)) : list string :=
  concat (snd <$> table).

Lemma get_Own_tableNames table key def nm :
  JS.get table key = JS.Own def → nm ∈ def → nm ∈ tableNames table.
Proof.
  unfold JS.get. intros Hget Hnm.
  destruct (list_find _ table) as [[k [k' v]]|] eqn:Hfind.
  - injection Hget as ->. apply list_find_Some in Hfind as (Hk & _ & _).
    apply list_elem_of_In, in_concat. exists def.
    split; [|by apply list_elem_of_In]. apply list_elem_of_In.
    apply list_elem_of_fmap. exists (k', def). split; [done|].
    by eapply list_elem_of_lookup_2.
  - by destruct (JS.includes key JS.Object_prototype_keys).
Qed.

Lemma head_namedAtoms def resAtoms p :
  head (namedAtoms def resAtoms) = Some p → name p ∈ def ∧ p ∈ resAtoms.
Proof.
  intros Hp. apply head_Some_elem_of in Hp.
  apply list_elem_of_filter in Hp as [Hn Hp]. split; [|done].
  by apply bool_decide_unpack in Hn.
Qed.

(** What the code has tested before it records an interaction of a type. *)
Definition obeysRule (i : Interaction) : Prop :=
  let l := Interaction.ligandAtom i in
  let p := Interaction.proteinAtom i in
  let d := Interaction.distance i in
  match Interaction.type i, Interaction.angle i with
  | PiStacking, Some a =>
      stackingAngle a = true
      ∧ (d <=? THRESHOLDS.PI_STACKING_DIST)%float = true
      ∧ name p ∈ tableNames ATOM_PROPS.AROMATIC_PLANES
  | PiStacking, None =>
      (d <? THRESHOLDS.PI_CATION_DIST)%float = true
      ∧ ((isAmine l = true ∧ name p ∈ tableNames ATOM_PROPS.AROMATIC_PLANES)
         ∨ name p ∈ tableNames ATOM_PROPS.POS_CHARGE_ATOMS)
  | SaltBridge, None =>
      (d <? THRESHOLDS.SALT_BRIDGE_DIST)%float = true
      ∧ ((JS.includes (element l) ["O"; "S"; "P"] = true
          ∧ name p ∈ tableNames ATOM_PROPS.POS_CHARGE_ATOMS)
         ∨ (isAmine l = true ∧ name p ∈ tableNames ATOM_PROPS.NEG_CHARGE_ATOMS))
  | HydrogenBond, None =>
      hydrogenBondElements l p = true ∧ d = distance l p
      ∧ (d <=? THRESHOLDS.HBOND_DIST)%float = true
  | HalogenBond, None =>
      halogenBondElements l p = true ∧ d = distance l p
      ∧ (d <=? THRESHOLDS.HALOGEN_DIST)%float = true
  | Hydrophobic, None =>
      hydrophobicElements l p = true ∧ d = distance l p
      ∧ (d <=? THRESHOLDS.HYDROPHOBIC_DIST)%float = true
  | MetalCoordination, None =>
      metalElements l p = true ∧ d = distance l p
      ∧ (d <=? THRESHOLDS.METAL_DIST)%float = true
  | _, _ => False
  end.

Lemma Recorded_obeysRule Math_acos lig prot n i :
  Recorded Math_acos lig prot n i → obeysRule i.
Proof.
  destruct 1; unfold obeysRule; simpl;
    repeat match goal with
    | H : head (namedAtoms _ _) = Some _ |- _ =>
        apply head_namedAtoms in H as [? _]
    end;
    eauto 8 using get_Own_tableNames.
Qed.

(** X10: Every interaction of the result has one of the six known types and
    passed the tests of that type: the element (or atom-name) rule and the
    distance cutoff; an angle is reported on ring-to-ring stacking only, and
    it is near parallel or T-shaped. *)
Theorem interactions_obey_the_rule_of_their_type (Math_acos : float → float)
    (structure : NGL.Structure) (ligandResidue : ResidueOption)
    (r : AnalysisResult) (i : Interaction) :
  analyzeInteractions Math_acos structure ligandResidue = Some r →
  i ∈ interactions r →
  obeysRule i.
Proof.
  intros Hrun Hi.
  destruct (extractAtoms structure ligandResidue) as [la pa] eqn:Hex.
  destruct (analyzeInteractions_candidates _ _ _ _ _ _ _ Hex Hrun Hi)
    as (cs & k & _ & _ & Hrec).
  by eapply Recorded_obeysRule.
Qed.

(** ** Nothing within a cutoff is lost by the atom-atom pass *)

(** Order facts of binary64 comparison, from the specification of the
    primitive operations. *)
Lemma SFcompare_le_lt a b c :
  SpecFloat.SFleb a b = true → SpecFloat.SFleb b c = true →
  SpecFloat.SFltb c a = false.
Proof.
  unfold SpecFloat.SFleb, SpecFloat.SFltb.
  destruct a as [[]|[]| |[] ma ea], b as [[]|[]| |[] mb eb],
           c as [[]|[]| |[] mc ec]; simpl;
    try reflexivity; try discriminate;
    repeat match goal with
    | |- context [Z.compare ?x ?y] => destruct (Z.compare_spec x y); simpl
    | |- context [Pos.compare_cont Eq ?x ?y] =>
        change (Pos.compare_cont Eq x y) with (Pos.compare x y);
        destruct (Pos.compare_spec x y); simpl
    end; intros; try reflexivity; try discriminate; try lia.
Qed.

Lemma leb_trans_not_ltb (d c m : float) :
  (d <=? c)%float = true → (c <=? m)%float = true → (m <? d)%float = false.
Proof.
  rewrite !FloatAxioms.leb_spec, FloatAxioms.ltb_spec. apply SFcompare_le_lt.
Qed.

(** The test of an atom-atom type on a pair: elements and distance. *)
Definition atomPairRule (ty : InteractionType) (l p : AtomData) : bool :=
  match ty with
  | HydrogenBond => hydrogenBondElements l p
  | HalogenBond => halogenBondElements l p
  | Hydrophobic => hydrophobicElements l p
  | MetalCoordination => metalElements l p
  | _ => false
  end
  && (distance l p <=? atomPairCutoff ty)%float.

(** The list holds an interaction of type [ty] for the atoms [l] and [p]. *)
Definition reports (ty : InteractionType) (l p : AtomData)
    (cs : list Interaction) : Prop :=
  ∃ c, c ∈ cs ∧ Interaction.type c = ty
       ∧ Interaction.ligandAtom c = l ∧ Interaction.proteinAtom c = p.

Lemma reports_push ty l p prefix d ang st :
  reports ty l p (found (push prefix ty d l p ang st)).
Proof.
  eexists. split; [simpl; apply elem_of_app; right; left|]. done.
Qed.

Lemma reports_push_mono ty l p prefix ty' d l' p' ang st :
  reports ty l p (found st) →
  reports ty l p (found (push prefix ty' d l' p' ang st)).
Proof.
  intros (c & Hc & H). exists c. split; [|done].
  simpl. apply elem_of_app. by left.
Qed.

Lemma atomPairStep_mono ty l p l' p' st :
  reports ty l p (found st) → reports ty l p (found (atomPairStep l' st p')).
Proof.
  intros H. unfold atomPairStep, metalTest, hydrophobicTest, halogenBondTest,
    hydrogenBondTest. cbv zeta.
  repeat (case_match; try done); repeat apply reports_push_mono; done.
Qed.

Lemma atomPairStep_reports ty l p st :
  atomPairRule ty l p = true → reports ty l p (found (atomPairStep l st p)).
Proof.
  unfold atomPairRule. intros [Hel Hd]%andb_true_iff.
  assert ((JS.Math_max THRESHOLDS.HBOND_DIST THRESHOLDS.HYDROPHOBIC_DIST
             <? distance l p)%float = false) as Hfar.
  { apply (leb_trans_not_ltb _ _ _ Hd). by destruct ty; vm_compute. }
  unfold atomPairStep. cbv zeta. rewrite Hfar.
  unfold metalTest, hydrophobicTest, halogenBondTest, hydrogenBondTest.
  cbv zeta.
  destruct ty; try discriminate Hel; simpl in Hd;
    unfold hydrogenBondElements, halogenBondElements, hydrophobicElements,
      metalElements in Hel;
    rewrite Hel, Hd;
    repeat (case_match; try done);
    repeat first [apply reports_push | apply reports_push_mono].
Qed.

Lemma fold_left_reaches {A S} (Q : S → Prop) (f : S → A → S) (l : list A)
    (s : S) (a : A) :
  a ∈ l → (∀ s, Q (f s a)) → (∀ s b, Q s → Q (f s b)) → Q (fold_left f l s).
Proof.
  intros Ha Hhit Hmono. revert s.
  induction l as [|b l IH]; intros s; [by apply elem_of_nil in Ha|].
  simpl. apply elem_of_cons in Ha as [<-|Ha]; [|by apply IH].
  apply fold_left_invariant; [apply Hhit | intros; by apply Hmono].
Qed.

Lemma atomPairs_reports ty lig prot l p st :
  l ∈ lig → p ∈ prot → atomPairRule ty l p = true →
  reports ty l p (found (atomPairs lig prot st)).
Proof.
  intros Hl Hp Hrule. unfold atomPairs.
  apply (fold_left_reaches (λ st, reports ty l p (found st)) _ lig st l Hl).
  - intros s.
    apply (fold_left_reaches (λ st, reports ty l p (found st)) _ prot s p Hp).
    + intros s'. by apply atomPairStep_reports.
    + intros s' b. apply atomPairStep_mono.
  - intros s b Hs. apply fold_left_invariant; [done|].
    intros s' a _. apply atomPairStep_mono.
Qed.

Lemma detectInteractions_reports Math_acos ty lig prot l p cs :
  detectInteractions Math_acos lig prot = Some cs →
  l ∈ lig → p ∈ prot → atomPairRule ty l p = true →
  reports ty l p cs.
Proof.
  unfold detectInteractions. intros Hrun Hl Hp Hrule.
  destruct (forEachM _ _ _) as [st|]; [|done].
  simpl in Hrun. injection Hrun as <-. by apply atomPairs_reports.
Qed.

Lemma deduplicate_at_least cs c :
  c ∈ cs →
  ∃ w, w ∈ deduplicate cs ∧ pairKey w = pairKey c ∧ score c ≤ score w.
Proof.
  intros Hc. destruct (deduplicate_covers cs c Hc) as (w & Hw & Hkey).
  exists w. split_and!; [done..|].
  destruct (deduplicate_survivor cs w Hw) as (pre & post & -> & Hpre & Hpost).
  rewrite Forall_forall in Hpre, Hpost.
  apply elem_of_app in Hc as [Hc|Hc].
  - specialize (Hpre c Hc (eq_sym Hkey)). lia.
  - apply elem_of_cons in Hc as [->|Hc]; [done|]. by apply Hpost.
Qed.

(** X11: An atom pair that passes the test of hydrogen bond, halogen bond,
    hydrophobic contact or metal coordination, with the protein atom inside
    the coarse radius, is never lost: the result holds an interaction for
    that pair of atom indices whose type ranks at least as high as that type
    (with unique atom indices: that type, or one that ranks higher). *)
Theorem atom_pairs_within_cutoff_are_reported (Math_acos : float → float)
    (structure : NGL.Structure) (ligandResidue : ResidueOption)
    (r : AnalysisResult) (ligandAtoms proteinAtoms : list AtomData)
    (ty : InteractionType) (l p : AtomData) :
  analyzeInteractions Math_acos structure ligandResidue = Some r →
  extractAtoms structure ligandResidue = (ligandAtoms, proteinAtoms) →
  l ∈ ligandAtoms → p ∈ proteinAtoms →
  (distance p (getCenter (coords <$> ligandAtoms)) <? 18.0)%float = true →
  atomPairRule ty l p = true →
  ∃ w, w ∈ interactions r
       ∧ index (Interaction.ligandAtom w) = index l
       ∧ index (Interaction.proteinAtom w) = index p
       ∧ typeScore ty ≤ typeScore (Interaction.type w).
Proof.
  intros Hrun Hex Hl Hp Hnear Hrule.
  destruct (analyzeInteractions_deduplicate _ _ _ _ Hrun) as (cs & Hcs & ->).
  unfold candidates in Hcs. rewrite Hex in Hcs.
  destruct (length ligandAtoms =? 0) eqn:Hlen.
  { apply Nat.eqb_eq, nil_length_inv in Hlen. subst.
    by apply elem_of_nil in Hl. }
  assert (p ∈ coarseFilter (centreOf ligandAtoms) proteinAtoms) as Hp'.
  { apply list_elem_of_filter. split; [|done]. by apply Is_true_true. }
  destruct (detectInteractions_reports _ ty _ _ l p cs Hcs Hl Hp' Hrule)
    as (c & Hc & Hty & Hcl & Hcp).
  destruct (deduplicate_at_least cs c Hc) as (w & Hw & Hkey & Hscore).
  apply pairKey_inj in Hkey as [Hkl Hkp].
  exists w. unfold score in Hscore. rewrite Hty in Hscore.
  split_and!; [done|congruence|congruence|done].
Qed.

(** ** Residue grouping *)

Definition sameChainAndNumber (a b : AtomData) : Prop :=
  chain b = chain a ∧ resNo b = resNo a.

Global Instance sameChainAndNumber_dec a b : Decision (sameChainAndNumber a b).
Proof. unfold sameChainAndNumber. apply _. Defined.

Lemma residueKey_inj a b : residueKey b = residueKey a ↔ sameChainAndNumber a b.
Proof. unfold residueKey, sameChainAndNumber. apply chain_resNo_key_inj. Qed.

Lemma get_groupStep k m a :
  OMap.get k (groupStep m a) =
  if decide (k = residueKey a) then Some (default [] (OMap.get k m) ++ [a])
  else OMap.get k m.
Proof.
  unfold groupStep.
  destruct (OMap.get (residueKey a) m) as [g|] eqn:Hg;
    rewrite OMap_get_set; case_decide; subst; by rewrite ?Hg.
Qed.

Lemma get_groups_fold k l m :
  OMap.get k (fold_left groupStep l m) =
  match filter (λ a, residueKey a = k) l with
  | [] => OMap.get k m
  | fs => Some (default [] (OMap.get k m) ++ fs)
  end.
Proof.
  revert m. induction l as [|a l IH]; intros m; [done|].
  simpl. rewrite IH, get_groupStep, filter_cons.
  destruct (decide (residueKey a = k)) as [<-|Hne].
  - rewrite decide_True by done. simpl.
    destruct (filter _ l); [done|]. simpl. by rewrite <- (assoc_L (++)).
  - rewrite decide_False by done. done.
Qed.

Lemma groups_NoDup_keys l : NoDup (OMap.keys (fold_left groupStep l [])).
Proof.
  apply (fold_left_invariant (λ m, NoDup (OMap.keys m))); [constructor|].
  intros m a _ Hnd. unfold groupStep.
  destruct (OMap.get _ m); by apply OMap_NoDup_set.
Qed.

Lemma groups_entry prot k g :
  (k, g) ∈ fold_left groupStep prot [] →
  g = filter (λ a, residueKey a = k) prot ∧ g ≠ [].
Proof.
  intros Hin. apply OMap_elem_get in Hin; [|apply groups_NoDup_keys].
  rewrite get_groups_fold in Hin. simpl in Hin.
  destruct (filter _ prot); [done|]. by injection Hin as <-.
Qed.

(** X13: The residues the detection loop visits are the classes of the protein
    atoms under "same chain and same residue number" (the residue name plays
    no part): every group is non-empty and holds, in traversal order, exactly
    the atoms that share chain and number with its first atom; every atom is
    in a group; and atoms of two different groups never share chain and
    number. *)
Theorem residue_groups_are_chain_and_number_classes (prot : list AtomData) :
  let groups := residueGroups prot in
  (∀ g, g ∈ groups →
     ∃ first, head g = Some first ∧ g = filter (sameChainAndNumber first) prot)
  ∧ (∀ a, a ∈ prot → filter (sameChainAndNumber a) prot ∈ groups)
  ∧ (∀ i j g h a b, groups !! i = Some g → groups !! j = Some h → i ≠ j →
       a ∈ g → b ∈ h → ¬ sameChainAndNumber a b).
Proof.
  cbv zeta. unfold residueGroups. split; [|split].
  - intros g [k Hk]%OMap_values_elem.
    apply groups_entry in Hk as [Hg Hne].
    destruct g as [|first g']; [done|]. exists first. split; [done|].
    assert (first ∈ filter (λ a, residueKey a = k) prot) as Hf
      by (rewrite <- Hg; left).
    apply list_elem_of_filter in Hf as [<- _]. rewrite Hg.
    apply list_filter_iff. intros b. apply residueKey_inj.
  - intros a Ha. apply OMap_values_elem. exists (residueKey a).
    apply OMap_get_Some_elem. rewrite get_groups_fold. simpl.
    assert (filter (sameChainAndNumber a) prot
            = filter (λ b, residueKey b = residueKey a) prot) as ->.
    { apply list_filter_iff. intros b. symmetry. apply residueKey_inj. }
    destruct (filter _ prot) as [|c fs] eqn:Hf; [|done].
    assert (a ∈ filter (λ b, residueKey b = residueKey a) prot) as Hin
      by by apply list_elem_of_filter.
    rewrite Hf in Hin. by apply elem_of_nil in Hin.
  - intros i j g h a b Hi Hj Hij Ha Hb Hsame.
    unfold OMap.values in Hi, Hj.
    apply list_lookup_fmap_Some in Hi as ([k1 g1] & Hg1 & Hi).
    apply list_lookup_fmap_Some in Hj as ([k2 h1] & Hh1 & Hj).
    simpl in Hg1, Hh1. subst g1 h1.
    pose proof (groups_NoDup_keys prot) as Hnd.
    assert (k1 = k2) as Hk.
    { apply list_elem_of_lookup_2 in Hi as Hi', Hj as Hj'.
      apply groups_entry in Hi' as [-> _], Hj' as [-> _].
      apply list_elem_of_filter in Ha as [<- _], Hb as [<- _].
      symmetry. by apply residueKey_inj. }
    apply Hij. eapply NoDup_lookup; [exact Hnd| |];
      unfold OMap.keys; rewrite list_lookup_fmap.
    + by rewrite Hi.
    + rewrite Hj. simpl. by rewrite Hk.
Qed.

(** ** Rings are closed chains of bonded atoms *)

(** The bond test of ring perception, in either order of the two atoms. *)
Definition bonded (a b : AtomData) : Prop :=
  (distance a b <? 1.65)%float = true ∨ (distance b a <? 1.65)%float = true.

Lemma bonded_sym a b : bonded a b → bonded b a.
Proof. unfold bonded. tauto. Qed.

(** A ring as a closed chain: neighbours in the list are bonded, the last
    atom is bonded to the first, and the first is a carbon or a nitrogen. *)
Definition closedChain (ring : list AtomData) : Prop :=
  (∀ k a b, ring !! k = Some a → ring !! S k = Some b → bonded a b)
  ∧ ∃ first final, head ring = Some first ∧ last ring = Some final
       ∧ bonded final first ∧ element first ∈ ["C"; "N"].

Lemma replicate_nil_total (n i : nat) : replicate n (@nil nat) !!! i = [].
Proof.
  rewrite list_lookup_total_alt.
  destruct (replicate n [] !! i) as [l|] eqn:Hl; [|done].
  by apply lookup_replicate in Hl as [-> _].
Qed.

Section RingChains.
Variable a0 : AtomData.
Variable atoms : list AtomData.

Definition adjSound (adj : list (list nat)) : Prop :=
  ∀ i j, j ∈ adj !!! i → bonded (atomAt a0 atoms i) (atomAt a0 atoms j).

Lemma adjSound_alter adj i j :
  bonded (atomAt a0 atoms i) (atomAt a0 atoms j) →
  adjSound adj → adjSound (alter (λ l, l ++ [j]) i adj).
Proof.
  intros Hb Hadj k m. rewrite list_lookup_total_alter.
  case_decide as Hk; [|apply Hadj]. destruct Hk as [<- _].
  intros [Hm| ->%list_elem_of_singleton]%elem_of_app; [by apply Hadj | done].
Qed.

Lemma buildAdj_sound : adjSound (buildAdj a0 atoms).
Proof.
  unfold buildAdj. apply fold_left_invariant.
  - intros i j. rewrite replicate_nil_total. by intros ?%elem_of_nil.
  - intros adj i _ Hadj. apply fold_left_invariant; [done|].
    intros adj' j _ Hadj'. unfold bondStep.
    destruct (_ <? _)%float eqn:Hd; [|done].
    apply adjSound_alter; [by right|]. apply adjSound_alter; [by left | done].
Qed.
End RingChains.

Section RingSearch.
Variable a0 : AtomData.
Variable atoms : list AtomData.
Variable adj : list (list nat).

(** Consecutive positions of the path are neighbours in [adj]. *)
Definition linked (path : list nat) : Prop :=
  ∀ k u v, path !! k = Some u → path !! S k = Some v → v ∈ adj !!! u.

(** Every ring found so far reads off a linked path that starts at a carbon
    or nitrogen and whose end is a neighbour of its start. *)
Definition chainsOk (st : RingState) : Prop :=
  Forall (λ ring, ∃ path start final,
            ring = atomAt a0 atoms <$> path
            ∧ linked path
            ∧ head path = Some start ∧ last path = Some final
            ∧ start ∈ adj !!! final
            ∧ element (atomAt a0 atoms start) ∈ ["C"; "N"])
         (rings st).

Lemma linked_snoc path current neighbor :
  linked path → last path = Some current → neighbor ∈ adj !!! current →
  linked (path ++ [neighbor]).
Proof.
  intros Hpath Hlast Hn k u v Hu Hv.
  destruct (decide (S k < length path)) as [Hk|Hk].
  - rewrite lookup_app_l in Hu by lia. rewrite lookup_app_l in Hv by lia.
    by eapply Hpath.
  - assert (S k = length path) as Hlen.
    { apply lookup_lt_Some in Hv. rewrite length_app in Hv. simpl in Hv. lia. }
    rewrite lookup_app_l in Hu by lia.
    rewrite lookup_app_r in Hv by lia.
    rewrite Hlen, Nat.sub_diag in Hv. injection Hv as <-.
    rewrite last_lookup in Hlast.
    replace (pred (length path)) with k in Hlast by lia.
    rewrite Hu in Hlast. by injection Hlast as ->.
Qed.

Lemma dfs_chainsOk fuel start current path st :
  linked path → head path = Some start → last path = Some current →
  element (atomAt a0 atoms start) ∈ ["C"; "N"] →
  chainsOk st → chainsOk (dfs a0 atoms adj fuel start current path st).
Proof.
  intros Hlink Hhead Hlast Hel. revert current path st Hlink Hhead Hlast.
  induction fuel as [|fuel IH]; intros current path st Hlink Hhead Hlast Hst;
    [done|].
  rewrite dfs_S.
  destruct (6 <? length path) eqn:H6; [done|].
  destruct (_ && _) eqn:Hclose.
  - apply andb_true_iff in Hclose as [_ Hnb]. cbv zeta.
    case_bool_decide; [done|].
    unfold chainsOk. simpl. apply Forall_app. split; [done|].
    constructor; [|constructor].
    exists path, start, current. split_and!; try done.
    by apply bool_decide_eq_true in Hnb.
  - apply fold_left_invariant; [done|].
    intros st' neighbor Hn Hst'. case_match; [done|].
    apply IH; [by eapply linked_snoc| |apply last_snoc|done].
    destruct path; [done|]. done.
Qed.

Lemma searchFrom_chainsOk st i :
  chainsOk st → chainsOk (searchFrom a0 atoms adj st i).
Proof.
  intros Hst. unfold searchFrom.
  destruct (JS.includes _ _) eqn:Hel; [|done].
  apply dfs_chainsOk; [|done|done| |done].
  - intros k u v Hu Hv. by destruct k.
  - by apply bool_decide_eq_true in Hel.
Qed.
End RingSearch.

(** X14: Every ring that ring perception returns is a closed chain of bonded
    ligand atoms: each atom is within the bond length of the next, the last
    within the bond length of the first, and the first is a carbon or a
    nitrogen. *)
Theorem findLigandRings_closed_chains (atoms ring : list AtomData) :
  ring ∈ findLigandRings atoms → closedChain ring.
Proof.
  destruct atoms as [|a0 rest]; [by intros ?%elem_of_nil|].
  unfold findLigandRings. set (atoms := a0 :: rest).
  set (adj := buildAdj a0 atoms). intros Hring.
  assert (chainsOk a0 atoms adj
            (fold_left (searchFrom a0 atoms adj) (seq 0 (length atoms))
               {| rings := []; visitedPaths := ∅ |})) as Hall.
  { apply fold_left_invariant; [constructor|].
    intros st i _. apply searchFrom_chainsOk. }
  unfold chainsOk in Hall. rewrite Forall_forall in Hall.
  destruct (Hall ring Hring)
    as (path & start & final & -> & Hlink & Hhead & Hlast & Hnb & Hel).
  pose proof (buildAdj_sound a0 atoms) as Hsound. fold adj in Hsound.
  split.
  - intros k a b Ha Hb.
    apply list_lookup_fmap_Some in Ha as (u & -> & Hu).
    apply list_lookup_fmap_Some in Hb as (v & -> & Hv).
    apply Hsound. by eapply Hlink.
  - exists (atomAt a0 atoms start), (atomAt a0 atoms final).
    split_and!; [|  |by apply Hsound|done].
    + destruct path as [|u path]; [done|]. simpl in Hhead.
      injection Hhead as ->. done.
    + rewrite fmap_last, Hlast. done.
Qed.

(** ** The order and the fixed points of deduplication *)

(** The ordered pair of atom indices an interaction stands for, and the map
    key the code builds from it. *)
Definition pairOf (i : Interaction) : N * N :=
  (index (Interaction.ligandAtom i), index (Interaction.proteinAtom i)).

Definition keyOf (p : N * N) : string := pretty p.1 +:+ "-" +:+ pretty p.2.

Global Instance keyOf_inj : Inj (=) (=) keyOf.
Proof.
  intros [a b] [c d] H. unfold keyOf in H. simpl in H.
  apply dash_split in H as [H1 H2]; try apply pretty_N_digits.
  f_equal; by apply (inj pretty).
Qed.

Lemma pairKey_keyOf (cs : list Interaction) :
  pairKey <$> cs = keyOf <$> (pairOf <$> cs).
Proof. by rewrite <- list_fmap_compose. Qed.

(** The elements of a list in the order of their first occurrence. *)
Definition addFirst {A} `{EqDecision A} (acc : list A) (k : A) : list A :=
  if decide (k ∈ acc) then acc else acc ++ [k].

Definition firstOccurrences {A} `{EqDecision A} (l : list A) : list A :=
  fold_left addFirst l [].

Lemma fold_addFirst_fmap {A B} `{EqDecision A, EqDecision B} (g : A → B)
    `{!Inj (=) (=) g} (l acc : list A) :
  g <$> fold_left addFirst l acc = fold_left addFirst (g <$> l) (g <$> acc).
Proof.
  revert acc. induction l as [|k l IH]; intros acc; [done|].
  simpl. rewrite IH. f_equal. unfold addFirst.
  destruct (decide (k ∈ acc)) as [Hk|Hk].
  - rewrite decide_True; [done|]. by apply list_elem_of_fmap_2.
  - rewrite decide_False; [by rewrite fmap_app|].
    by intros ?%(list_elem_of_fmap_inj_2 g).
Qed.

Lemma keys_dedupStep m i :
  OMap.keys (dedupStep m i) = addFirst (OMap.keys m) (pairKey i).
Proof.
  unfold dedupStep, addFirst. cbv zeta.
  destruct (OMap.get (pairKey i) m) as [e|] eqn:Hget.
  - rewrite decide_True.
    + case_match; [by eapply OMap_keys_set_Some | done].
    + destruct (decide (pairKey i ∈ OMap.keys m)) as [|Hn]; [done|].
      apply OMap_get_None in Hn. congruence.
  - rewrite decide_False by by apply OMap_get_None.
    by apply OMap_keys_set_None.
Qed.

Lemma keys_dedup_fold cs m :
  OMap.keys (fold_left dedupStep cs m)
  = fold_left addFirst (pairKey <$> cs) (OMap.keys m).
Proof.
  revert m. induction cs as [|c cs IH]; intros m; [done|].
  simpl. by rewrite IH, keys_dedupStep.
Qed.

(** X16: The result lists the pairs in the order in which each pair was first
    detected: a candidate that replaces an earlier one of lower rank takes
    over its place in the list. *)
Theorem deduplicate_keeps_first_detection_order (cs : list Interaction) :
  pairOf <$> deduplicate cs = firstOccurrences (pairOf <$> cs).
Proof.
  apply (inj (fmap keyOf)).
  rewrite <- pairKey_keyOf, deduplicate_keys, keys_dedup_fold, pairKey_keyOf.
  unfold firstOccurrences. rewrite (fold_addFirst_fmap keyOf). done.
Qed.

Lemma OMap_set_fresh {V} k (v : V) m :
  OMap.get k m = None → OMap.set k v m = m ++ [(k, v)].
Proof.
  induction m as [|[k0 v0] m IH]; simpl; [done|].
  case_decide; [done|]. intros Hget. by rewrite IH.
Qed.

Lemma dedup_fold_distinct l m :
  NoDup (pairKey <$> l) → (∀ i, i ∈ l → pairKey i ∉ OMap.keys m) →
  fold_left dedupStep l m = m ++ ((λ i, (pairKey i, i)) <$> l).
Proof.
  revert m. induction l as [|i l IH]; intros m Hnd Hfresh.
  { by rewrite app_nil_r. }
  rewrite fmap_cons in Hnd. apply NoDup_cons in Hnd as [Hi Hnd].
  assert (OMap.get (pairKey i) m = None) as Hget
    by (apply OMap_get_None, Hfresh; left).
  simpl. unfold dedupStep at 2. cbv zeta. rewrite Hget.
  rewrite (OMap_set_fresh _ _ _ Hget), IH, <- (assoc_L (++)); [done..|].
  intros j Hj. unfold OMap.keys. rewrite fmap_app. simpl.
  intros [Hin|Heq%list_elem_of_singleton]%elem_of_app.
  - apply (Hfresh j); [by right | done].
  - apply Hi. rewrite <- Heq. by apply list_elem_of_fmap_2.
Qed.

(** X17: A list in which no two interactions stand for the same ordered pair of
    atom indices passes through deduplication unchanged. *)
Theorem deduplicate_leaves_distinct_pairs_alone (cs : list Interaction) :
  NoDup (pairOf <$> cs) → deduplicate cs = cs.
Proof.
  intros Hnd. unfold deduplicate.
  rewrite dedup_fold_distinct.
  - unfold OMap.values. simpl. rewrite <- list_fmap_compose.
    apply list_fmap_id.
  - rewrite pairKey_keyOf. by apply (NoDup_fmap_2 keyOf).
  - intros i _. apply not_elem_of_nil.
Qed.

(** ** The argument of [Math.acos] *)

Ltac sf_cases :=
  repeat match goal with
  | |- context [Z.compare ?x ?y] => destruct (Z.compare_spec x y); simpl
  | |- context [Pos.compare_cont Eq ?x ?y] =>
      change (Pos.compare_cont Eq x y) with (Pos.compare x y);
      destruct (Pos.compare_spec x y); simpl
  end; intros; try reflexivity; try discriminate; try lia.

Lemma SF_lt_le a b : SpecFloat.SFltb a b = true → SpecFloat.SFleb a b = true.
Proof.
  unfold SpecFloat.SFleb, SpecFloat.SFltb.
  destruct a as [[]|[]| |[] ma ea], b as [[]|[]| |[] mb eb]; simpl;
    try reflexivity; try discriminate; sf_cases.
Qed.

Lemma SF_not_lt_le a b :
  SpecFloat.SFeqb a a = true → SpecFloat.SFeqb b b = true →
  SpecFloat.SFltb a b = false → SpecFloat.SFleb b a = true.
Proof.
  unfold SpecFloat.SFleb, SpecFloat.SFltb, SpecFloat.SFeqb.
  destruct a as [[]|[]| |[] ma ea], b as [[]|[]| |[] mb eb]; simpl;
    try reflexivity; try discriminate; sf_cases.
Qed.

Lemma ltb_leb (a b : float) : (a <? b)%float = true → (a <=? b)%float = true.
Proof. rewrite FloatAxioms.ltb_spec, FloatAxioms.leb_spec. apply SF_lt_le. Qed.

Lemma not_ltb_leb (a b : float) :
  is_nan a = false → is_nan b = false →
  (a <? b)%float = false → (b <=? a)%float = true.
Proof.
  unfold is_nan. rewrite !negb_false_iff.
  rewrite !FloatAxioms.eqb_spec, FloatAxioms.ltb_spec, FloatAxioms.leb_spec.
  apply SF_not_lt_le.
Qed.

(** A number [Math.acos] is defined on, or NaN. *)
Definition acosDomain (c : float) : Prop :=
  is_nan c = true ∨ ((-1 <=? c)%float = true ∧ (c <=? 1)%float = true).

(** The clamp both angle functions apply to the cosine. *)
Definition clampCos (q : float) : float :=
  JS.Math_max (-1) (JS.Math_min 1 q).

Lemma Math_min_one (q : float) :
  is_nan (JS.Math_min 1 q) = true
  ∨ (is_nan (JS.Math_min 1 q) = false ∧ (JS.Math_min 1 q <=? 1)%float = true).
Proof.
  unfold JS.Math_min.
  destruct (is_nan q) eqn:Hq.
  { left. replace (is_nan 1 || true) with true by by destruct (is_nan 1). done. }
  right. replace (is_nan 1) with false by done. simpl.
  destruct (1 <? q)%float eqn:H1; [done|].
  destruct (q <? 1)%float eqn:H2; [split; [done | by apply ltb_leb]|].
  replace (get_sign 1) with false by done.
  split; [done|]. by apply not_ltb_leb.
Qed.

Lemma clampCos_domain (q : float) : acosDomain (clampCos q).
Proof.
  unfold clampCos. destruct (Math_min_one q) as [Hn|[Hn Hle]].
  { left. unfold JS.Math_max. rewrite Hn.
    by replace (is_nan (-1) || true) with true by by destruct (is_nan (-1)). }
  generalize dependent (JS.Math_min 1 q). intros m Hn Hle.
  unfold JS.Math_max. rewrite Hn.
  replace (is_nan (-1)) with false by done. simpl.
  destruct (-1 <? m)%float eqn:H1; [right; split; [by apply ltb_leb | done]|].
  destruct (m <? -1)%float eqn:H2; [by right|].
  replace (get_sign (-1)) with true by done.
  right. split; [|done]. by apply not_ltb_leb.
Qed.

(** X18: Both angle functions hand [Math.acos] a clamped cosine: whatever the
    vectors, they either return 0 without calling it (a zero-length vector),
    or call it on a number between -1 and 1, or on NaN. *)
Theorem angles_call_acos_within_its_domain :
  (∀ v1 v2 : Vector3,
     (∀ Math_acos, angleBetween Math_acos v1 v2 = 0%float)
     ∨ ∃ c, acosDomain c
          ∧ ∀ Math_acos,
              angleBetween Math_acos v1 v2
              = ((Math_acos c * 180) / JS.Math_PI)%float)
  ∧ (∀ a b c : Vector3,
     (∀ Math_acos, angleDeg Math_acos a b c = 0%float)
     ∨ ∃ q, acosDomain q
          ∧ ∀ Math_acos,
              angleDeg Math_acos a b c
              = ((Math_acos q * 180) / JS.Math_PI)%float).
Proof.
  split.
  - intros v1 v2. unfold angleBetween. cbv zeta.
    destruct (_ || _); [by left|]. right.
    eexists. split; [apply clampCos_domain|]. intros Math_acos. reflexivity.
  - intros a b c. unfold angleDeg. cbv zeta.
    destruct (_ || _); [by left|]. right.
    eexists. split; [apply clampCos_domain|]. intros Math_acos. reflexivity.
Qed.

(** ** Small ligands *)

Lemma NoDup_below_length (n : nat) (path : list nat) :
  NoDup path → Forall (λ j, j < n) path → length path ≤ n.
Proof.
  intros Hnd Hlt. rewrite <- (length_seq n 0).
  apply submseteq_length, NoDup_submseteq; [done|].
  intros j Hj. rewrite Forall_forall in Hlt. apply elem_of_seq.
  specialize (Hlt j Hj). lia.
Qed.

(** X15: A ligand of fewer than five atoms has no ring. *)
Theorem findLigandRings_needs_five_atoms (atoms : list AtomData) :
  length atoms < 5 → findLigandRings atoms = [].
Proof.
  intros Hlen. destruct atoms as [|a0 rest]; [done|].
  destruct (findLigandRings_paths a0 rest) as (paths & -> & Hpaths & _).
  destruct paths as [|path paths]; [done|].
  apply Forall_cons in Hpaths as [(Hsize & Hrange & Hnd) _].
  pose proof (NoDup_below_length _ _ Hnd Hrange). lia.
Qed.

(** ** When the analysis throws *)

(** The first atom of the group carries a residue name that is a member of
    [Object.prototype]. *)
Definition namedLikePrototypeMember (resAtoms : list AtomData) : bool :=
  match head resAtoms with
  | Some first => JS.includes (resName first) JS.Object_prototype_keys
  | None => false
  end.

Lemma forEachM_None {A S} (f : S → A → option S) (l : list A) (s : S) (a : A) :
  a ∈ l → (∀ s, f s a = None) → forEachM f l s = None.
Proof.
  intros Ha Hf. revert s. induction l as [|b l IH]; intros s.
  { by apply elem_of_nil in Ha. }
  simpl. apply elem_of_cons in Ha as [<-|Ha]; [by rewrite Hf|].
  destruct (f s b); [by apply IH | done].
Qed.

Lemma aromatic_planes_Inherited (key : string) :
  key ∈ JS.Object_prototype_keys →
  JS.get ATOM_PROPS.AROMATIC_PLANES key = JS.Inherited.
Proof.
  intros Hkey. unfold JS.Object_prototype_keys in Hkey.
  repeat (apply elem_of_cons in Hkey as [->|Hkey]); try by vm_compute.
  by apply elem_of_nil in Hkey.
Qed.

Lemma residueStep_throws Math_acos lig ringData st resAtoms :
  namedLikePrototypeMember resAtoms = true →
  residueStep Math_acos lig ringData st resAtoms = None.
Proof.
  unfold namedLikePrototypeMember, residueStep.
  destruct (head resAtoms) as [first|]; [|done]. simpl.
  intros Hname%bool_decide_eq_true. unfold aromaticBlock.
  by rewrite aromatic_planes_Inherited.
Qed.

(** X19: The analysis throws exactly when the ligand has atoms and one of the
    residues the detection loop visits starts with an atom whose residue
    name is a member of [Object.prototype] (such as [constructor]); in every
    other case it returns a result. *)
Theorem analyzeInteractions_throws_exactly_on_prototype_names
    (Math_acos : float → float) (structure : NGL.Structure)
    (ligandResidue : ResidueOption) (ligandAtoms proteinAtoms : list AtomData) :
  extractAtoms structure ligandResidue = (ligandAtoms, proteinAtoms) →
  analyzeInteractions Math_acos structure ligandResidue = None
  ↔ ligandAtoms ≠ []
    ∧ Exists (λ g, namedLikePrototypeMember g = true)
        (residueGroups
           (coarseFilter (getCenter (coords <$> ligandAtoms)) proteinAtoms)).
Proof.
  intros Hex. unfold analyzeInteractions. rewrite Hex.
  set (prot := coarseFilter _ proteinAtoms).
  destruct ligandAtoms as [|l0 la']; [by split; [|intros [? _]]|].
  set (la := l0 :: la') in *.
  replace (length la =? 0) with false by done.
  unfold detectInteractions. fold (residueGroups prot).
  split.
  - intros Hnone. split; [done|].
    destruct (decide (Exists (λ g, namedLikePrototypeMember g = true)
                        (residueGroups prot))) as [|Hno]; [done|].
    apply not_Exists_Forall in Hno; [|intros g; apply _].
    rewrite Forall_forall in Hno.
    destruct (forEachM_is_Some
                (residueStep Math_acos la (ringData <$> findLigandRings la))
                (residueGroups prot) {| found := []; idCounter := 0 |})
      as [st Hst].
    { intros s g Hg. destruct (groups_heads _ _ Hg) as (first & Hfirst & _).
      eapply residueStep_returns; [exact Hfirst|].
      specialize (Hno g Hg). simpl in Hno.
      unfold namedLikePrototypeMember in Hno. rewrite Hfirst in Hno.
      intros Hin. apply Hno. by apply bool_decide_eq_true. }
    rewrite Hst in Hnone. done.
  - intros [_ (g & Hg & Hbad)%Exists_exists].
    rewrite (forEachM_None _ _ _ g Hg); [done|].
    intros s. by apply residueStep_throws.
Qed.

(** ** The further properties at the worked inputs *)

Lemma handleManualSearch_keeps_list_consistent_witness :
  let st := handleStructureLoaded argStructure None in
  let st' := (handleManualSearch JS.toUpperCase JS.trim (Some argStructure) "arg" st).1 in
  keysUnique (ligandCandidates st) ∧ selectionListed st
  ∧ keysUnique (ligandCandidates st') ∧ selectionListed st'.
Proof.
  cbv zeta.
  assert (keysUnique (ligandCandidates (handleStructureLoaded argStructure None)))
    as Hk by (apply (bool_decide_unpack _); vm_compute; exact I).
  assert (selectionListed (handleStructureLoaded argStructure None)) as Hs.
  { intros sel Hsel. vm_compute in Hsel. injection Hsel as <-.
    exists (toResidueOption (mkResidue "LIG" 1 "L" 1 true)).
    split; [|split; reflexivity].
    replace (ligandCandidates (handleStructureLoaded argStructure None))
      with [toResidueOption (mkResidue "LIG" 1 "L" 1 true)]
      by (vm_compute; reflexivity).
    left. }
  split; [exact Hk|]. split; [exact Hs|].
  destruct (handleManualSearch_keeps_list_consistent JS.toUpperCase JS.trim
              (Some argStructure) "arg"
              (handleStructureLoaded argStructure None)
              (handleManualSearch JS.toUpperCase JS.trim (Some argStructure) "arg"
                 (handleStructureLoaded argStructure None)).1
              (handleManualSearch JS.toUpperCase JS.trim (Some argStructure) "arg"
                 (handleStructureLoaded argStructure None)).2
              Hk Hs) as (Hk' & Hs' & _); [vm_compute; reflexivity|].
  by split.
Defined.

Lemma interaction_ids_are_unique_witness :
  NoDup (Interaction.id <$> [arg_sb0; arg_hb2]).
Proof.
  destruct (interaction_ids_are_unique (λ _, nan) argStructure LIG1
              {| interactions := [arg_sb0; arg_hb2];
                 ligandCenter := {| x := 1; y := 0; z := 3 |} |}) as [Hnd _];
    [vm_compute; reflexivity | exact Hnd].
Defined.


Lemma protein_atoms_lie_within_the_coarse_radius_witness :
  (distance (Interaction.proteinAtom arg_hb2) {| x := 1; y := 0; z := 3 |}
     <? 18.0)%float = true.
Proof.
  destruct (protein_atoms_lie_within_the_coarse_radius (λ _, nan) argStructure
              LIG1
              {| interactions := [arg_sb0; arg_hb2];
                 ligandCenter := {| x := 1; y := 0; z := 3 |} |})
    as [_ Hnear]; [vm_compute; reflexivity|].
  apply (Hnear arg_hb2). right. left.
Defined.

Lemma interactions_obey_the_rule_of_their_type_witness :
  obeysRule arg_sb0 ∧ obeysRule arg_hb2.
Proof.
  split;
    apply (interactions_obey_the_rule_of_their_type (λ _, nan) argStructure LIG1
             {| interactions := [arg_sb0; arg_hb2];
                ligandCenter := {| x := 1; y := 0; z := 3 |} |});
    [vm_compute; reflexivity | left | vm_compute; reflexivity | right; left].
Defined.

Lemma atom_pairs_within_cutoff_are_reported_witness :
  atomPairRule HydrogenBond (parseNGLAtom lig_O1) (parseNGLAtom arg_NH1) = true
  ∧ ∃ w, w ∈ [arg_sb0; arg_hb2]
       ∧ index (Interaction.ligandAtom w) = 2%N
       ∧ index (Interaction.proteinAtom w) = 0%N
       ∧ typeScore HydrogenBond ≤ typeScore (Interaction.type w).
Proof.
  assert (atomPairRule HydrogenBond (parseNGLAtom lig_O1) (parseNGLAtom arg_NH1)
          = true) as Hrule by (vm_compute; reflexivity).
  split; [exact Hrule|].
  apply (atom_pairs_within_cutoff_are_reported (λ _, nan) argStructure LIG1
           {| interactions := [arg_sb0; arg_hb2];
              ligandCenter := {| x := 1; y := 0; z := 3 |} |}
           [parseNGLAtom lig_O1] [parseNGLAtom arg_NH1; parseNGLAtom arg_NH2]
           HydrogenBond (parseNGLAtom lig_O1) (parseNGLAtom arg_NH1));
    [vm_compute; reflexivity | vm_compute; reflexivity | left | left
    | vm_compute; reflexivity | exact Hrule].
Defined.

Lemma findLigandRings_closed_chains_witness :
  closedChain (parseNGLAtom <$> hexagon).
Proof.
  apply (findLigandRings_closed_chains (parseNGLAtom <$> hexagon)).
  replace (findLigandRings (parseNGLAtom <$> hexagon))
    with [parseNGLAtom <$> hexagon] by (vm_compute; reflexivity).
  left.
Defined.

Lemma deduplicate_leaves_distinct_pairs_alone_witness :
  NoDup (pairOf <$> [arg_sb0; arg_hb2])
  ∧ deduplicate [arg_sb0; arg_hb2] = [arg_sb0; arg_hb2].
Proof.
  assert (NoDup (pairOf <$> [arg_sb0; arg_hb2])) as Hnd
    by (apply (bool_decide_unpack _); vm_compute; exact I).
  split; [exact Hnd|].
  by apply (deduplicate_leaves_distinct_pairs_alone [arg_sb0; arg_hb2]).
Defined.

Lemma findLigandRings_needs_five_atoms_witness :
  findLigandRings (parseNGLAtom <$> [hex_C1; hex_C2; hex_C3; hex_C4]) = [].
Proof.
  apply (findLigandRings_needs_five_atoms
           (parseNGLAtom <$> [hex_C1; hex_C2; hex_C3; hex_C4])).
  simpl. lia.
Defined.

Lemma analyzeInteractions_throws_exactly_on_prototype_names_witness :
  Exists (λ g, namedLikePrototypeMember g = true)
    (residueGroups
       (coarseFilter (getCenter (coords <$> [parseNGLAtom lig_O1]))
          [parseNGLAtom odd_CA])).
Proof.
  apply (analyzeInteractions_throws_exactly_on_prototype_names (λ _, nan)
           oddNameStructure LIG1 [parseNGLAtom lig_O1] [parseNGLAtom odd_CA]);
    vm_compute; reflexivity.
Defined.

(** ** Nothing that passes a test is lost *)

Section Complete.
Variable Math_acos : float → float.
Variable lig : list AtomData.
Variables (ty : InteractionType) (l p : AtomData).

Let ligandRingData := ringData <$> findLigandRings lig.

Ltac step_mono :=
  let Hrun := fresh "Hrun" in
  intros Hrun ?; cbv zeta in Hrun;
  repeat (case_match; simplify_option_eq);
  repeat apply reports_push_mono; done.

Lemma piStackingStep_mono c nrm rs st lr st' :
  piStackingStep Math_acos c nrm rs st lr = Some st' →
  reports ty l p (found st) → reports ty l p (found st').
Proof. unfold piStackingStep. step_mono. Qed.

Lemma piCationStep_mono c rs st a st' :
  piCationStep c rs st a = Some st' →
  reports ty l p (found st) → reports ty l p (found st').
Proof. unfold piCationStep. step_mono. Qed.

Lemma cationPiStep_mono c ps st lr st' :
  cationPiStep c ps st lr = Some st' →
  reports ty l p (found st) → reports ty l p (found st').
Proof. unfold cationPiStep. step_mono. Qed.

Lemma saltBridgePosStep_mono c ps st a st' :
  saltBridgePosStep c ps st a = Some st' →
  reports ty l p (found st) → reports ty l p (found st').
Proof. unfold saltBridgePosStep. step_mono. Qed.

Lemma saltBridgeNegStep_mono c ns st a st' :
  saltBridgeNegStep c ns st a = Some st' →
  reports ty l p (found st) → reports ty l p (found st').
Proof. unfold saltBridgeNegStep. step_mono. Qed.

Lemma forEachM_mono {A} (f : Detection → A → option Detection) xs st st' :
  (∀ s a s', f s a = Some s' →
     reports ty l p (found s) → reports ty l p (found s')) →
  forEachM f xs st = Some st' →
  reports ty l p (found st) → reports ty l p (found st').
Proof.
  intros Hf Hrun Hst.
  apply (forEachM_invariant (λ s, reports ty l p (found s)) f xs st st');
    [done| |done].
  intros s a s' _ Hs Hstep. by eapply Hf.
Qed.

Lemma forEachM_hits {A} (f : Detection → A → option Detection) xs st st' a :
  a ∈ xs →
  (∀ s s', f s a = Some s' → reports ty l p (found s')) →
  (∀ s b s', f s b = Some s' →
     reports ty l p (found s) → reports ty l p (found s')) →
  forEachM f xs st = Some st' →
  reports ty l p (found st').
Proof.
  intros Ha Hhit Hmono. revert st.
  induction xs as [|b xs IH]; intros st Hrun; [by apply elem_of_nil in Ha|].
  simpl in Hrun. destruct (f st b) as [s1|] eqn:Hstep; [|done].
  simpl in Hrun. apply elem_of_cons in Ha as [<-|Ha]; [|by eapply IH].
  eapply forEachM_mono; [exact Hmono | exact Hrun |]. by eapply Hhit.
Qed.
End Complete.

Section CompleteBlocks.
Variable Math_acos : float → float.
Variable lig : list AtomData.
Variables (ty : InteractionType) (l p : AtomData).

Let ligandRingData := ringData <$> findLigandRings lig.

Lemma aromaticBlock_mono rn resAtoms st st' :
  aromaticBlock Math_acos lig ligandRingData rn resAtoms st = Some st' →
  reports ty l p (found st) → reports ty l p (found st').
Proof.
  unfold aromaticBlock.
  destruct (JS.get _ _) as [aromDef| |]; [|done|by intros [= <-]].
  cbv zeta. case_match; [|by intros [= <-]].
  destruct (forEachM (piStackingStep _ _ _ _) _ _) as [s1|] eqn:H1; [|done].
  simpl. intros H2 Hst.
  eapply forEachM_mono; [apply piCationStep_mono | exact H2 |].
  eapply forEachM_mono; [apply piStackingStep_mono | exact H1 | done].
Qed.

Lemma positiveBlock_mono rn resAtoms st st' :
  positiveBlock lig ligandRingData rn resAtoms st = Some st' →
  reports ty l p (found st) → reports ty l p (found st').
Proof.
  unfold positiveBlock.
  destruct (JS.get _ _) as [posDef| |]; [|done|by intros [= <-]].
  cbv zeta. case_match; [|by intros [= <-]].
  destruct (forEachM (cationPiStep _ _) _ _) as [s1|] eqn:H1; [|done].
  simpl. intros H2 Hst.
  eapply forEachM_mono; [apply saltBridgePosStep_mono | exact H2 |].
  eapply forEachM_mono; [apply cationPiStep_mono | exact H1 | done].
Qed.

Lemma negativeBlock_mono rn resAtoms st st' :
  negativeBlock lig rn resAtoms st = Some st' →
  reports ty l p (found st) → reports ty l p (found st').
Proof.
  unfold negativeBlock.
  destruct (JS.get _ _) as [negDef| |]; [|done|by intros [= <-]].
  cbv zeta. case_match; [|by intros [= <-]].
  intros H1 Hst.
  eapply forEachM_mono; [apply saltBridgeNegStep_mono | exact H1 | done].
Qed.

Lemma residueStep_blocks st resAtoms st' :
  residueStep Math_acos lig ligandRingData st resAtoms = Some st' →
  ∃ first s1 s2,
    head resAtoms = Some first
    ∧ aromaticBlock Math_acos lig ligandRingData (resName first) resAtoms st
      = Some s1
    ∧ positiveBlock lig ligandRingData (resName first) resAtoms s1 = Some s2
    ∧ negativeBlock lig (resName first) resAtoms s2 = Some st'.
Proof.
  unfold residueStep. destruct (head resAtoms) as [first|]; [|done]. simpl.
  destruct (aromaticBlock _ _ _ _ _ _) as [s1|] eqn:Harom; [|done]. simpl.
  destruct (positiveBlock _ _ _ _ _) as [s2|] eqn:Hpos; [|done]. simpl.
  intros Hneg. by exists first, s1, s2.
Qed.

Lemma residueStep_mono st resAtoms st' :
  residueStep Math_acos lig ligandRingData st resAtoms = Some st' →
  reports ty l p (found st) → reports ty l p (found st').
Proof.
  intros (first & s1 & s2 & _ & H1 & H2 & H3)%residueStep_blocks Hst.
  eapply negativeBlock_mono; [exact H3|].
  eapply positiveBlock_mono; [exact H2|].
  by eapply aromaticBlock_mono.
Qed.
End CompleteBlocks.

Section CompleteDetection.
Variable Math_acos : float → float.
Variables lig prot : list AtomData.

Let ligandRingData := ringData <$> findLigandRings lig.

Lemma ringData_listed ring :
  ring ∈ findLigandRings lig → ringData ring ∈ ligandRingData.
Proof. intros. by apply list_elem_of_fmap_2. Qed.

Lemma aromaticBlock_reports_stacking resAtoms first aromDef ring l p st st' :
  head resAtoms = Some first →
  JS.get ATOM_PROPS.AROMATIC_PLANES (resName first) = JS.Own aromDef →
  3 ≤ length (namedAtoms aromDef resAtoms) →
  ring ∈ findLigandRings lig → head ring = Some l →
  head (namedAtoms aromDef resAtoms) = Some p →
  (distance (centreOf (namedAtoms aromDef resAtoms)) (centreOf ring)
     <=? THRESHOLDS.PI_STACKING_DIST)%float = true →
  stackingAngle
    (angleBetween Math_acos
       (getPlaneNormal (coords <$> namedAtoms aromDef resAtoms))
       (getPlaneNormal (coords <$> ring))) = true →
  aromaticBlock Math_acos lig ligandRingData (resName first) resAtoms st
    = Some st' →
  reports PiStacking l p (found st').
Proof.
  intros _ Hget Hlen Hring Hl Hp Hd Hang. unfold aromaticBlock.
  rewrite Hget. cbv zeta. fold (namedAtoms aromDef resAtoms).
  apply Nat.leb_le in Hlen. rewrite Hlen.
  destruct (forEachM (piStackingStep _ _ _ _) _ _) as [s1|] eqn:H1; [|done].
  simpl. intros H2.
  eapply forEachM_mono; [apply piCationStep_mono | exact H2 |].
  eapply forEachM_hits with (a := ringData ring);
    [by apply ringData_listed | | apply piStackingStep_mono | exact H1].
  intros s s'. unfold piStackingStep, ringData.
  cbv beta iota zeta delta
    [LigandRing.center LigandRing.normal LigandRing.atoms].
  unfold centreOf in Hd. rewrite Hd.
  unfold stackingAngle in Hang. rewrite Hang, Hl, Hp. simpl.
  intros [= <-]. apply reports_push.
Qed.

Lemma aromaticBlock_reports_cation resAtoms first aromDef l p st st' :
  head resAtoms = Some first →
  JS.get ATOM_PROPS.AROMATIC_PLANES (resName first) = JS.Own aromDef →
  3 ≤ length (namedAtoms aromDef resAtoms) →
  l ∈ lig → isAmine l = true →
  head (namedAtoms aromDef resAtoms) = Some p →
  (distance l (centreOf (namedAtoms aromDef resAtoms))
     <? THRESHOLDS.PI_CATION_DIST)%float = true →
  aromaticBlock Math_acos lig ligandRingData (resName first) resAtoms st
    = Some st' →
  reports PiStacking l p (found st').
Proof.
  intros _ Hget Hlen Hl Hamine Hp Hd. unfold aromaticBlock.
  rewrite Hget. cbv zeta. fold (namedAtoms aromDef resAtoms).
  apply Nat.leb_le in Hlen. rewrite Hlen.
  destruct (forEachM (piStackingStep _ _ _ _) _ _) as [s1|] eqn:H1; [|done].
  simpl. intros H2.
  eapply forEachM_hits with (a := l);
    [done | | apply piCationStep_mono | exact H2].
  intros s s'. unfold piCationStep.
  unfold centreOf in Hd. rewrite Hamine, Hd, Hp. simpl.
  intros [= <-]. apply reports_push.
Qed.

Lemma positiveBlock_reports_cation resAtoms first posDef ring l p st st' :
  head resAtoms = Some first →
  JS.get ATOM_PROPS.POS_CHARGE_ATOMS (resName first) = JS.Own posDef →
  ring ∈ findLigandRings lig → head ring = Some l →
  head (namedAtoms posDef resAtoms) = Some p →
  (distance (centreOf (namedAtoms posDef resAtoms)) (centreOf ring)
     <? THRESHOLDS.PI_CATION_DIST)%float = true →
  positiveBlock lig ligandRingData (resName first) resAtoms st = Some st' →
  reports PiStacking l p (found st').
Proof.
  intros _ Hget Hring Hl Hp Hd. unfold positiveBlock.
  rewrite Hget. cbv zeta. fold (namedAtoms posDef resAtoms).
  assert ((0 <? length (namedAtoms posDef resAtoms)) = true) as ->.
  { apply Nat.ltb_lt. destruct (namedAtoms posDef resAtoms); [done|simpl; lia]. }
  destruct (forEachM (cationPiStep _ _) _ _) as [s1|] eqn:H1; [|done].
  simpl. intros H2.
  eapply forEachM_mono; [apply saltBridgePosStep_mono | exact H2 |].
  eapply forEachM_hits with (a := ringData ring);
    [by apply ringData_listed | | apply cationPiStep_mono | exact H1].
  intros s s'. unfold cationPiStep, ringData.
  cbv beta iota zeta delta
    [LigandRing.center LigandRing.normal LigandRing.atoms].
  unfold centreOf in Hd. rewrite Hd, Hl, Hp. simpl.
  intros [= <-]. apply reports_push.
Qed.

Lemma positiveBlock_reports_bridge resAtoms first posDef l p st st' :
  head resAtoms = Some first →
  JS.get ATOM_PROPS.POS_CHARGE_ATOMS (resName first) = JS.Own posDef →
  l ∈ lig → JS.includes (element l) ["O"; "S"; "P"] = true →
  head (namedAtoms posDef resAtoms) = Some p →
  (distance l (centreOf (namedAtoms posDef resAtoms))
     <? THRESHOLDS.SALT_BRIDGE_DIST)%float = true →
  positiveBlock lig ligandRingData (resName first) resAtoms st = Some st' →
  reports SaltBridge l p (found st').
Proof.
  intros _ Hget Hl Hel Hp Hd. unfold positiveBlock.
  rewrite Hget. cbv zeta. fold (namedAtoms posDef resAtoms).
  assert ((0 <? length (namedAtoms posDef resAtoms)) = true) as ->.
  { apply Nat.ltb_lt. destruct (namedAtoms posDef resAtoms); [done|simpl; lia]. }
  destruct (forEachM (cationPiStep _ _) _ _) as [s1|] eqn:H1; [|done].
  simpl. intros H2.
  eapply forEachM_hits with (a := l);
    [done | | apply saltBridgePosStep_mono | exact H2].
  intros s s'. unfold saltBridgePosStep. cbv zeta.
  unfold centreOf in Hd. rewrite Hel, Hd, Hp. simpl.
  intros [= <-]. apply reports_push.
Qed.

Lemma negativeBlock_reports_bridge resAtoms first negDef l p st st' :
  head resAtoms = Some first →
  JS.get ATOM_PROPS.NEG_CHARGE_ATOMS (resName first) = JS.Own negDef →
  l ∈ lig → isAmine l = true →
  head (namedAtoms negDef resAtoms) = Some p →
  (distance l (centreOf (namedAtoms negDef resAtoms))
     <? THRESHOLDS.SALT_BRIDGE_DIST)%float = true →
  negativeBlock lig (resName first) resAtoms st = Some st' →
  reports SaltBridge l p (found st').
Proof.
  intros _ Hget Hl Hamine Hp Hd. unfold negativeBlock.
  rewrite Hget. cbv zeta. fold (namedAtoms negDef resAtoms).
  assert ((0 <? length (namedAtoms negDef resAtoms)) = true) as ->.
  { apply Nat.ltb_lt. destruct (namedAtoms negDef resAtoms); [done|simpl; lia]. }
  intros H1.
  eapply forEachM_hits with (a := l);
    [done | | apply saltBridgeNegStep_mono | exact H1].
  intros s s'. unfold saltBridgeNegStep. cbv zeta.
  unfold centreOf in Hd. rewrite Hamine, Hd, Hp. simpl.
  intros [= <-]. apply reports_push.
Qed.
End CompleteDetection.

Lemma atomPairs_mono ty l p lig prot st :
  reports ty l p (found st) → reports ty l p (found (atomPairs lig prot st)).
Proof.
  intros Hst. unfold atomPairs. apply fold_left_invariant; [done|].
  intros s a _ Hs. apply fold_left_invariant; [done|].
  intros s' b _. apply atomPairStep_mono.
Qed.

(** Whatever one of the nine places would record is among the candidates:
    the candidate list holds an interaction of that type for those atoms. *)
Lemma detectInteractions_complete Math_acos lig prot cs n c :
  detectInteractions Math_acos lig prot = Some cs →
  Recorded Math_acos lig prot n c →
  reports (Interaction.type c) (Interaction.ligandAtom c)
          (Interaction.proteinAtom c) cs.
Proof.
  unfold detectInteractions. intros Hrun Hrec.
  destruct (forEachM _ _ _) as [st|] eqn:Hres; [|done].
  simpl in Hrun. injection Hrun as <-.
  fold (residueGroups prot) in Hres.
  assert (∀ ty l p,
    (∃ resAtoms, resAtoms ∈ residueGroups prot
       ∧ ∀ s s', residueStep Math_acos lig (ringData <$> findLigandRings lig)
                   s resAtoms = Some s' → reports ty l p (found s')) →
    reports ty l p (found (atomPairs lig prot st))) as Hres'.
  { intros ty l p (resAtoms & Hin & Hhit). apply atomPairs_mono.
    eapply forEachM_hits with (a := resAtoms);
      [done | exact Hhit | apply residueStep_mono | exact Hres]. }
  destruct Hrec; simpl.
  - apply Hres'. exists resAtoms. split; [done|].
    intros s s' (f & s1 & s2 & Hf & Hb1 & Hb2 & Hb3)%residueStep_blocks.
    assert (f = first) as -> by congruence.
    eapply negativeBlock_mono; [exact Hb3|].
    eapply positiveBlock_mono; [exact Hb2|].
    by eapply aromaticBlock_reports_stacking.
  - apply Hres'. exists resAtoms. split; [done|].
    intros s s' (f & s1 & s2 & Hf & Hb1 & Hb2 & Hb3)%residueStep_blocks.
    assert (f = first) as -> by congruence.
    eapply negativeBlock_mono; [exact Hb3|].
    eapply positiveBlock_mono; [exact Hb2|].
    by eapply aromaticBlock_reports_cation.
  - apply Hres'. exists resAtoms. split; [done|].
    intros s s' (f & s1 & s2 & Hf & Hb1 & Hb2 & Hb3)%residueStep_blocks.
    assert (f = first) as -> by congruence.
    eapply negativeBlock_mono; [exact Hb3|].
    by eapply positiveBlock_reports_cation.
  - apply Hres'. exists resAtoms. split; [done|].
    intros s s' (f & s1 & s2 & Hf & Hb1 & Hb2 & Hb3)%residueStep_blocks.
    assert (f = first) as -> by congruence.
    eapply negativeBlock_mono; [exact Hb3|].
    by eapply positiveBlock_reports_bridge.
  - apply Hres'. exists resAtoms. split; [done|].
    intros s s' (f & s1 & s2 & Hf & Hb1 & Hb2 & Hb3)%residueStep_blocks.
    assert (f = first) as -> by congruence.
    by eapply negativeBlock_reports_bridge.
  - apply atomPairs_reports; [done..|].
    unfold atomPairRule. by apply andb_true_iff.
  - apply atomPairs_reports; [done..|].
    unfold atomPairRule. by apply andb_true_iff.
  - apply atomPairs_reports; [done..|].
    unfold atomPairRule. by apply andb_true_iff.
  - apply atomPairs_reports; [done..|].
    unfold atomPairRule. by apply andb_true_iff.
Qed.

(** X12: Every contact that passes the tests of one of the nine places that
    record an interaction (ring stacking, the three pi-cation and salt-bridge
    places of the residue loop, the four atom-atom tests) is represented in
    the result: the result holds an interaction for the same pair of atom
    indices whose type ranks at least as high as the type of the contact. *)
Theorem every_accepted_contact_is_represented (Math_acos : float → float)
    (structure : NGL.Structure) (ligandResidue : ResidueOption)
    (r : AnalysisResult) (ligandAtoms proteinAtoms : list AtomData)
    (n : N) (c : Interaction) :
  analyzeInteractions Math_acos structure ligandResidue = Some r →
  extractAtoms structure ligandResidue = (ligandAtoms, proteinAtoms) →
  ligandAtoms ≠ [] →
  Recorded Math_acos ligandAtoms
    (coarseFilter (getCenter (coords <$> ligandAtoms)) proteinAtoms) n c →
  ∃ w, w ∈ interactions r
       ∧ index (Interaction.ligandAtom w) = index (Interaction.ligandAtom c)
       ∧ index (Interaction.proteinAtom w) = index (Interaction.proteinAtom c)
       ∧ typeScore (Interaction.type c) ≤ typeScore (Interaction.type w).
Proof.
  intros Hrun Hex Hne Hrec.
  destruct (analyzeInteractions_deduplicate _ _ _ _ Hrun) as (cs & Hcs & ->).
  unfold candidates in Hcs. rewrite Hex in Hcs.
  destruct ligandAtoms as [|l0 la']; [done|].
  set (la := l0 :: la') in *.
  replace (length la =? 0) with false in Hcs by done.
  destruct (detectInteractions_complete _ _ _ _ _ _ Hcs Hrec)
    as (c' & Hc' & Hty & Hcl & Hcp).
  destruct (deduplicate_at_least cs c' Hc') as (w & Hw & Hkey & Hscore).
  apply pairKey_inj in Hkey as [Hkl Hkp].
  exists w. unfold score in Hscore. rewrite Hty in Hscore.
  split_and!; [done|congruence|congruence|done].
Qed.

Lemma every_accepted_contact_is_represented_witness :
  ∃ w, w ∈ [arg_sb0; arg_hb2]
       ∧ index (Interaction.ligandAtom w) = index (parseNGLAtom lig_O1)
       ∧ index (Interaction.proteinAtom w) = index (parseNGLAtom arg_NH1)
       ∧ typeScore SaltBridge ≤ typeScore (Interaction.type w).
Proof.
  set (resAtoms := [parseNGLAtom arg_NH1; parseNGLAtom arg_NH2]).
  apply (every_accepted_contact_is_represented (λ _, nan) argStructure LIG1
           {| interactions := [arg_sb0; arg_hb2];
              ligandCenter := {| x := 1; y := 0; z := 3 |} |}
           [parseNGLAtom lig_O1] resAtoms 0
           (recordOf "sb" 0 SaltBridge
              (distance (parseNGLAtom lig_O1)
                 (centreOf (namedAtoms ["NH1"; "NH2"; "CZ"] resAtoms)))
              (parseNGLAtom lig_O1) (parseNGLAtom arg_NH1) None));
    [vm_compute; reflexivity | vm_compute; reflexivity | done |].
  apply (Rec_saltBridgePos _ _ _ _ resAtoms (parseNGLAtom arg_NH1));
    [|reflexivity | vm_compute; reflexivity | left | vm_compute; reflexivity
     | vm_compute; reflexivity | vm_compute; reflexivity].
  replace (residueGroups _) with [resAtoms] by (vm_compute; reflexivity).
  left.
Defined.

(** ** Ties between candidates *)

(** Two candidates tie when they are both common or both not, and have the
    same atom count. *)
Definition tied (common : bool) (n : N) (r : ResidueOption) : Prop :=
  isCommonName (ResidueOption.resName r) = common
  ∧ ResidueOption.atomCount r = n.

Global Instance tied_dec common n r : Decision (tied common n r).
Proof. unfold tied. apply _. Defined.

Lemma candidate_values_sublist (l : list NGL.ResidueProxy) m :
  ∃ k, OMap.values (fold_left candidateStep l m) = OMap.values m ++ k
       ∧ k `sublist_of` (toResidueOption <$> l).
Proof.
  revert m. induction l as [|rp l IH]; intros m.
  { exists []. by rewrite app_nil_r. }
  simpl. destruct (IH (candidateStep m rp)) as (k & -> & Hk).
  rewrite candidateStep_qualifies.
  destruct (qualifies rp); [|exists k; split; [done | by constructor]].
  destruct (OMap.get (candidateKey rp) m) as [v|] eqn:Hget;
    [exists k; split; [done | by constructor]|].
  rewrite (OMap_set_fresh _ _ _ Hget).
  exists (toResidueOption rp :: k). split; [|by constructor].
  unfold OMap.values. rewrite fmap_app. simpl. by rewrite <- (assoc_L (++)).
Qed.

(** X20: candidates that tie in the sort (same class, same atom count) keep
    the order in which their residues are traversed. *)
Theorem getLigandCandidates_ties_keep_traversal_order
    (structure : NGL.Structure) (common : bool) (n : N) :
  filter (tied common n) (getLigandCandidates structure)
  `sublist_of` (toResidueOption <$> NGL.residues structure).
Proof.
  unfold getLigandCandidates, NGL.eachResidue.
  rewrite arraySort_stable.
  - destruct (candidate_values_sublist (NGL.residues structure) [])
      as (k & -> & Hk).
    simpl. by etrans; [apply sublist_filter|].
  - intros a b [Ha Hna] [Hb Hnb]. unfold compareCandidates.
    rewrite Ha, Hb, Hna, Hnb. destruct common; simpl; lia.
Qed.

(** ** The distance stored on an interaction *)

(** [grp] is the group of atoms that the residue loop forms from [table]: the
    atoms of a visited residue whose names are listed in the entry that
    [table] has for the residue name of the residue's first atom. *)
Definition tableGroup (table : list (string * list string))
    (prot grp : list AtomData) : Prop :=
  ∃ resAtoms first def,
    resAtoms ∈ residueGroups prot
    ∧ head resAtoms = Some first
    ∧ JS.get table (resName first) = JS.Own def
    ∧ grp = namedAtoms def resAtoms.

(** What the stored distance of an interaction of type [ty] was measured
    between, and the cutoff it was compared with. *)
Definition measured (lig prot : list AtomData) (ty : InteractionType)
    (d : float) (l p : AtomData) : Prop :=
  match ty with
  | HydrogenBond | HalogenBond | Hydrophobic | MetalCoordination =>
      d = distance l p ∧ (d <=? atomPairCutoff ty)%float = true
  | SaltBridge =>
      ∃ grp,
        (tableGroup ATOM_PROPS.POS_CHARGE_ATOMS prot grp
         ∨ tableGroup ATOM_PROPS.NEG_CHARGE_ATOMS prot grp)
        ∧ head grp = Some p
        ∧ d = distance l (centreOf grp)
        ∧ (d <? THRESHOLDS.SALT_BRIDGE_DIST)%float = true
  | PiStacking =>
      ∃ grp,
        head grp = Some p
        ∧ ((tableGroup ATOM_PROPS.AROMATIC_PLANES prot grp
            ∧ ∃ ring, ring ∈ findLigandRings lig ∧ head ring = Some l
                ∧ d = distance (centreOf grp) (centreOf ring)
                ∧ (d <=? THRESHOLDS.PI_STACKING_DIST)%float = true)
           ∨ (tableGroup ATOM_PROPS.POS_CHARGE_ATOMS prot grp
              ∧ ∃ ring, ring ∈ findLigandRings lig ∧ head ring = Some l
                  ∧ d = distance (centreOf grp) (centreOf ring)
                  ∧ (d <? THRESHOLDS.PI_CATION_DIST)%float = true)
           ∨ (tableGroup ATOM_PROPS.AROMATIC_PLANES prot grp
              ∧ d = distance l (centreOf grp)
              ∧ (d <? THRESHOLDS.PI_CATION_DIST)%float = true))
  | Unknown => False
  end.

Lemma Recorded_measured Math_acos lig prot n i :
  Recorded Math_acos lig prot n i →
  measured lig prot (Interaction.type i) (Interaction.distance i)
    (Interaction.ligandAtom i) (Interaction.proteinAtom i).
Proof.
  destruct 1; simpl; try done.
  - eexists. split; [eassumption|]. left. split; [by eexists _, _, _|].
    by eexists.
  - eexists. split; [eassumption|]. right. right. split; [by eexists _, _, _|].
    done.
  - eexists. split; [eassumption|]. right. left. split; [by eexists _, _, _|].
    by eexists.
  - eexists. split; [left; by eexists _, _, _|]. done.
  - eexists. split; [right; by eexists _, _, _|]. done.
Qed.

(** C5 (as the code has it): the distance stored on an interaction of the
    result is the value that was compared with the cutoff when it was
    accepted.  For HydrogenBond, HalogenBond, Hydrophobic and
    MetalCoordination it is exactly the distance between the stored ligand
    atom and protein atom.  For SaltBridge it is the distance from the
    stored ligand atom to the centre of the charged atoms of a visited
    residue (all the atoms of the residue that the charge table lists for
    its name), the stored protein atom being the first of them.  For
    PiStacking it is measured from the centre of the ring atoms or of the
    charged atoms of a visited residue (again all the listed atoms, the
    stored protein atom being the first) either to the centre of a ligand
    ring whose first atom is the stored ligand atom, or to the stored ligand
    atom itself. *)
Theorem stored_distance_is_the_accepted_distance (Math_acos : float → float)
    (structure : NGL.Structure) (ligandResidue : ResidueOption)
    (r : AnalysisResult) (i : Interaction)
    (ligandAtoms proteinAtoms : list AtomData) :
  extractAtoms structure ligandResidue = (ligandAtoms, proteinAtoms) →
  analyzeInteractions Math_acos structure ligandResidue = Some r →
  i ∈ interactions r →
  Interaction.ligandAtom i ∈ ligandAtoms
  ∧ Interaction.proteinAtom i ∈ proteinAtoms
  ∧ measured ligandAtoms
      (coarseFilter (getCenter (coords <$> ligandAtoms)) proteinAtoms)
      (Interaction.type i) (Interaction.distance i)
      (Interaction.ligandAtom i) (Interaction.proteinAtom i).
Proof.
  intros Hex Hrun Hi.
  destruct (analyzeInteractions_accepted _ _ _ _ _ _ Hex Hrun) as [Hacc _].
  rewrite Forall_forall in Hacc. destruct (Hacc i Hi) as (Hl & Hp & _).
  apply coarseFilter_subseteq in Hp.
  destruct (analyzeInteractions_candidates _ _ _ _ _ _ _ Hex Hrun Hi)
    as (cs & k & _ & _ & Hrec).
  split_and!; [done | done |]. by eapply Recorded_measured.
Qed.

Lemma stored_distance_is_the_accepted_distance_witness :
  arg_sb0 ∈ [arg_sb0; arg_hb2]
  ∧ ∃ grp,
      (tableGroup ATOM_PROPS.POS_CHARGE_ATOMS
         [parseNGLAtom arg_NH1; parseNGLAtom arg_NH2] grp
       ∨ tableGroup ATOM_PROPS.NEG_CHARGE_ATOMS
           [parseNGLAtom arg_NH1; parseNGLAtom arg_NH2] grp)
      ∧ head grp = Some (parseNGLAtom arg_NH1)
      ∧ Interaction.distance arg_sb0
        = distance (parseNGLAtom lig_O1) (centreOf grp)
      ∧ (Interaction.distance arg_sb0 <? THRESHOLDS.SALT_BRIDGE_DIST)%float
        = true.
Proof.
  assert (arg_sb0 ∈ [arg_sb0; arg_hb2]) as Hin by left.
  split; [exact Hin|].
  destruct (stored_distance_is_the_accepted_distance (λ _, nan) argStructure LIG1
              {| interactions := [arg_sb0; arg_hb2];
                 ligandCenter := {| x := 1; y := 0; z := 3 |} |}
              arg_sb0
              [parseNGLAtom lig_O1] [parseNGLAtom arg_NH1; parseNGLAtom arg_NH2])
    as (_ & _ & grp & Hgrp & Hhead & Hd & Hcut);
    [vm_compute; reflexivity | vm_compute; reflexivity | exact Hin |].
  exists grp. split_and!; [|done..].
  replace (coarseFilter _ _)
    with [parseNGLAtom arg_NH1; parseNGLAtom arg_NH2] in Hgrp
    by (vm_compute; reflexivity).
  exact Hgrp.
Defined.

(** ** Ties in deduplication *)

(** Two ways of splitting one list at an element: at the same place, or one
    element stands in front of the other. *)
Lemma split_position {A} (pre pre' post post' : list A) (x y : A) :
  pre ++ x :: post = pre' ++ y :: post' →
  (length pre = length pre' ∧ x = y)
  ∨ (y ∈ pre ∧ x ∈ post')
  ∨ (x ∈ pre' ∧ y ∈ post).
Proof.
  intros Heq.
  assert ((pre ++ x :: post) !! length pre = Some x) as Hx
    by apply list_lookup_middle, eq_refl.
  assert ((pre' ++ y :: post') !! length pre' = Some y) as Hy
    by apply list_lookup_middle, eq_refl.
  destruct (Nat.lt_total (length pre) (length pre')) as [Hlt|[Hlen|Hlt]].
  - right. right. split.
    + rewrite Heq, lookup_app_l in Hx by done. by eapply list_elem_of_lookup_2.
    + rewrite <- Heq, lookup_app_r in Hy by lia.
      destruct (length pre' - length pre) as [|k] eqn:Hk; [lia|].
      simpl in Hy. by eapply list_elem_of_lookup_2.
  - left. split; [done|]. rewrite Heq, Hlen, Hy in Hx. by injection Hx.
  - right. left. split.
    + rewrite <- Heq, lookup_app_l in Hy by done. by eapply list_elem_of_lookup_2.
    + rewrite Heq, lookup_app_r in Hx by lia.
      destruct (length pre - length pre') as [|k] eqn:Hk; [lia|].
      simpl in Hx. by eapply list_elem_of_lookup_2.
Qed.

(** The candidate at position [k] was recorded when the counter stood at
    [k]; so no interaction stands at two positions of the candidate list. *)
Lemma candidates_recorded Math_acos structure lig la pa cs k i :
  extractAtoms structure lig = (la, pa) →
  candidates Math_acos structure lig = Some cs →
  cs !! k = Some i →
  Recorded Math_acos la (coarseFilter (centreOf la) pa) (N.of_nat k) i.
Proof.
  intros Hex Hcs Hk. unfold candidates in Hcs. rewrite Hex in Hcs.
  destruct (length la =? 0).
  - injection Hcs as <-. by rewrite lookup_nil in Hk.
  - by eapply detectInteractions_recorded.
Qed.

Lemma candidates_NoDup Math_acos structure lig cs :
  candidates Math_acos structure lig = Some cs → NoDup cs.
Proof.
  intros Hcs. destruct (extractAtoms structure lig) as [la pa] eqn:Hex.
  apply NoDup_alt. intros i j c Hi Hj.
  destruct (Recorded_id _ _ _ _ _ (candidates_recorded _ _ _ _ _ _ _ _ Hex Hcs Hi))
    as (p1 & Hid1 & _).
  destruct (Recorded_id _ _ _ _ _ (candidates_recorded _ _ _ _ _ _ _ _ Hex Hcs Hj))
    as (p2 & Hid2 & _).
  rewrite Hid1 in Hid2. apply id_counter_inj in Hid2 as [_ Hij]. lia.
Qed.

(** C9: of the candidates for one pair of atom indices, the one that
    deduplication keeps is the earliest of the highest rank.  A candidate
    before which every candidate for its pair ranks strictly lower, and after
    which none ranks higher, is in the result; and a candidate that comes
    after another one for the same pair without ranking strictly higher is
    never in the result: a tie goes to the earlier candidate, and a later
    candidate replaces an earlier one only with a strictly higher rank.
    Conversely every interaction of the result is such an earliest candidate
    of the highest rank.  Hydrophobic, HalogenBond and MetalCoordination
    share one rank. *)
Theorem deduplication_keeps_earliest_of_equal_rank (Math_acos : float → float)
    (structure : NGL.Structure) (ligandResidue : ResidueOption)
    (r : AnalysisResult) (cs : list Interaction) :
  analyzeInteractions Math_acos structure ligandResidue = Some r →
  candidates Math_acos structure ligandResidue = Some cs →
  (∀ pre c1 post,
     cs = pre ++ c1 :: post →
     Forall (λ c, samePairOrdered c c1 →
               typeScore (Interaction.type c) < typeScore (Interaction.type c1))
            pre →
     Forall (λ c, samePairOrdered c c1 →
               typeScore (Interaction.type c) ≤ typeScore (Interaction.type c1))
            post →
     c1 ∈ interactions r)
  ∧ (∀ i j c1 c2,
       cs !! i = Some c1 → cs !! j = Some c2 → i < j →
       samePairOrdered c2 c1 →
       typeScore (Interaction.type c2) ≤ typeScore (Interaction.type c1) →
       c2 ∉ interactions r)
  ∧ (∀ w, w ∈ interactions r →
       ∃ pre post,
         cs = pre ++ w :: post
         ∧ Forall (λ c, samePairOrdered c w →
                     typeScore (Interaction.type c)
                     < typeScore (Interaction.type w)) pre
         ∧ Forall (λ c, samePairOrdered c w →
                     typeScore (Interaction.type c)
                     ≤ typeScore (Interaction.type w)) post)
  ∧ typeScore Hydrophobic = typeScore HalogenBond
  ∧ typeScore HalogenBond = typeScore MetalCoordination.
Proof.
  intros Hrun Hcs.
  destruct (analyzeInteractions_deduplicate _ _ _ _ Hrun) as (cs' & Hcs' & ->).
  rewrite Hcs in Hcs'. injection Hcs' as <-.
  split; [|split; [|split; [|done]]]; cycle 2.
  { intros w Hw.
    destruct (deduplicate_survivor cs w Hw) as (pre & post & Hsplit & Hpre & Hpost).
    exists pre, post. split_and!; [done|..];
      (eapply Forall_impl; [eassumption|]); intros c Hc Hsame%pairKey_inj;
      by apply Hc. }
  - intros pre c1 post Hsplit Hpre Hpost.
    rewrite Forall_forall in Hpre, Hpost.
    assert (c1 ∈ cs) as Hc1
      by (rewrite Hsplit; apply elem_of_app; right; left).
    destruct (deduplicate_covers cs c1 Hc1) as (w & Hw & Hkey).
    destruct (deduplicate_survivor cs w Hw)
      as (pre' & post' & Hsplit' & Hpre' & Hpost').
    rewrite Forall_forall in Hpre', Hpost'. unfold score in Hpre', Hpost'.
    rewrite Hsplit in Hsplit'.
    assert (samePairOrdered w c1) as Hsame by by apply pairKey_inj.
    destruct (split_position _ _ _ _ _ _ Hsplit')
      as [[_ ->]|[[Hwpre Hcpost]|[Hcpre Hwpost]]]; [done|exfalso..].
    + specialize (Hpre w Hwpre Hsame).
      specialize (Hpost' c1 Hcpost (eq_sym Hkey)). lia.
    + specialize (Hpre' c1 Hcpre (eq_sym Hkey)).
      specialize (Hpost w Hwpost Hsame). lia.
  - intros i j c1 c2 Hi Hj Hij Hsame Hle Hin.
    destruct (deduplicate_survivor cs c2 Hin) as (pre & post & Hsplit & Hpre & _).
    rewrite Forall_forall in Hpre. unfold score in Hpre.
    assert (j = length pre) as ->.
    { eapply NoDup_lookup; [by eapply candidates_NoDup | exact Hj |].
      rewrite Hsplit. by apply list_lookup_middle. }
    assert (c1 ∈ pre) as Hc1.
    { rewrite Hsplit, lookup_app_l in Hi by done.
      by eapply list_elem_of_lookup_2. }
    assert (pairKey c1 = pairKey c2) as Hkey.
    { apply pairKey_inj. destruct Hsame. by split. }
    specialize (Hpre c1 Hc1 Hkey). lia.
Qed.

Lemma deduplication_keeps_earliest_of_equal_rank_witness :
  candidates acosAtOne tieStructure LIG1 = Some [tie_pi0; tie_pic1]
  ∧ samePairOrdered tie_pic1 tie_pi0
  ∧ typeScore (Interaction.type tie_pic1) = typeScore (Interaction.type tie_pi0)
  ∧ ∃ r, analyzeInteractions acosAtOne tieStructure LIG1 = Some r
         ∧ tie_pi0 ∈ interactions r ∧ tie_pic1 ∉ interactions r.
Proof.
  assert (candidates acosAtOne tieStructure LIG1 = Some [tie_pi0; tie_pic1])
    as Hcs by (vm_compute; reflexivity).
  assert (samePairOrdered tie_pic1 tie_pi0) as Hsame by (split; reflexivity).
  split_and!; [exact Hcs | exact Hsame | reflexivity |].
  destruct (analyzeInteractions acosAtOne tieStructure LIG1) as [r|] eqn:Hrun;
    [|vm_compute in Hrun; discriminate Hrun].
  exists r. split; [reflexivity|].
  destruct (deduplication_keeps_earliest_of_equal_rank acosAtOne tieStructure
              LIG1 r [tie_pi0; tie_pic1] Hrun Hcs) as (Hkept & Hlost & _ & _).
  split.
  - apply (Hkept [] tie_pi0 [tie_pic1]); [reflexivity | constructor |].
    constructor; [|constructor]. intros _. simpl. lia.
  - apply (Hlost 0 1 tie_pi0 tie_pic1);
      [reflexivity | reflexivity | lia | exact Hsame | simpl; lia].
Defined.
